(** * django-gitversions: the dump and restore management commands

    A shallow embedding of
    [django_gitversions/management/commands/gitversions.py] (the dump
    command and its dependency sort) and
    [django_gitversions/management/commands/gitrestore.py] (the restore
    command and its retrying saver), with the properties the
    specification states about them.

    Python objects are modelled by what the two commands read from them.
    Calls into Django, the data store and the file system are fields of an
    environment record: total functions of an abstract external state. *)

From Stdlib Require Import ZArith Lia Ascii String.
From stdpp Require Import base tactics option list strings gmap sets pretty sorting.

Set Warnings "-clear-no-such-hyp".

Local Open Scope string_scope.
Local Open Scope list_scope.

(** ** Python values shared by the two commands *)

(** A model class.  Django keeps one class per [(app_label, object_name)],
    so the pair stands for the identity of the class; [object_name] is the
    class's [__name__]. *)
Record Model := mkModel {
  app_label : string;     (* model._meta.app_label *)
  object_name : string    (* model._meta.object_name, model.__name__ *)
}.

Global Instance Model_eq_dec : EqDecision Model.
Proof. solve_decision. Defined.

Global Instance Model_countable : Countable Model.
Proof.
  refine (inj_countable' (fun m => (app_label m, object_name m))
                         (fun p => mkModel p.1 p.2) _).
  by intros [].
Defined.

(** The exception classes the commands raise, catch or let through.  In
    Django [DataError], [OperationalError], [IntegrityError],
    [InternalError], [ProgrammingError] and [NotSupportedError] derive from
    [DatabaseError], and [TransactionManagementError] from
    [ProgrammingError]; [OtherDatabaseError] is any further class that
    derives from [DatabaseError] and not from
    [TransactionManagementError].  [OtherException] is a class that derives
    from none of the classes named here; a class is the class object, not
    its name. *)
Inductive ExcClass :=
| CommandError
| LookupError
| ValueError
| AttributeError
| UnboundLocalError
| IOError
| DeserializationError
| DatabaseError
| DataError
| OperationalError
| IntegrityError
| InternalError
| ProgrammingError
| NotSupportedError
| TransactionManagementError
| OtherDatabaseError (name : string)
| OtherException (name : string).

Global Instance ExcClass_eq_dec : EqDecision ExcClass.
Proof. solve_decision. Defined.

(** An exception object: its class and [str(e)], the text of its [args]. *)
Record Exception := mkExc {
  exc_class : ExcClass;
  exc_text : string
}.

Global Instance Exception_eq_dec : EqDecision Exception.
Proof. solve_decision. Defined.

(** What running a piece of Python gives: a value, a raised exception, or
    no answer within the steps allowed to a loop. *)
Inductive Result (A : Type) :=
| Return (a : A)
| Raise (e : Exception)
| OutOfFuel.
Arguments Return {A} a.
Arguments Raise {A} e.
Arguments OutOfFuel {A}.

Definition result_bind {A B} (r : Result A) (k : A -> Result B) : Result B :=
  match r with
  | Return a => k a
  | Raise e => Raise e
  | OutOfFuel => OutOfFuel
  end.

(** [', '.join(parts)] and the like. *)
Fixpoint join (sep : string) (parts : list string) : string :=
  match parts with
  | [] => ""
  | [p] => p
  | p :: rest => p +:+ sep +:+ join sep rest
  end.

(** [needle in text] on strings. *)
Definition str_contains (needle text : string) : bool :=
  match String.index 0 needle text with
  | Some _ => true
  | None => false
  end.

(** [text.split(sep)] for a one-character separator. *)
Fixpoint split_on (sep : Ascii.ascii) (text : string) : list string :=
  match text with
  | EmptyString => [""]
  | String c rest =>
      if Ascii.eqb c sep then "" :: split_on sep rest
      else match split_on sep rest with
           | [] => [String c ""]
           | part :: parts => String c part :: parts
           end
  end.

(** [sorted(l, key=...)] with string keys: Python's sort is stable, and a
    stable sort by a total order on keys has one result; insertion from the
    right, stopping before the first entry whose key is not smaller,
    computes it. *)
Section Sorted.
Context {A : Type} (key : A -> string).

Fixpoint insert_by_key (x : A) (l : list A) : list A :=
  match l with
  | [] => [x]
  | y :: l' =>
      if String.leb (key x) (key y) then x :: y :: l'
      else y :: insert_by_key x l'
  end.

Fixpoint sorted (l : list A) : list A :=
  match l with
  | [] => []
  | x :: l' => insert_by_key x (sorted l')
  end.

Definition key_le (x y : A) : Prop := String.leb (key x) (key y) = true.
End Sorted.

(** * gitversions.py *)
Module Gitversions.

(** ** What the dump command reads from Django *)

(** [model.natural_key], when the class has one: the function object,
    and its [dependencies] attribute as the class body left it, when it has
    one.  Classes that inherit the method have the same function, hence the
    same attribute; [qualname] tells the functions apart. *)
Record NaturalKey := mkNaturalKey {
  qualname : string;
  dependencies : option (list string)
}.

Global Instance NaturalKey_eq_dec : EqDecision NaturalKey.
Proof. solve_decision. Defined.

(** A concrete field: [field.rel.to] when [field.rel] has a [to]. *)
Record Field := mkField {
  rel_to : option Model
}.

Record ModelMeta := mkMeta {
  natural_key : option NaturalKey;   (* hasattr(model, 'natural_key') *)
  fields : list Field;               (* model._meta.fields *)
  many_to_many : list Model          (* field.rel.to of model._meta.many_to_many *)
}.

Record AppConfig := mkApp {
  label : string;
  has_models_module : bool;          (* app_config.models_module is not None *)
  get_models : list Model            (* app_config.get_models() *)
}.

Global Instance AppConfig_eq_dec : EqDecision AppConfig.
Proof. solve_decision. Defined.

Global Instance AppConfig_countable : Countable AppConfig.
Proof.
  refine (inj_countable' (fun a => (label a, has_models_module a, get_models a))
                         (fun p => mkApp p.1.1 p.1.2 p.2) _).
  by intros [].
Defined.

(** The app registry, as far as the command asks it. *)
Record Apps := mkApps {
  meta : Model -> ModelMeta;
  all_models : string -> string -> option Model;  (* the model installed as app_label, model_name *)
  get_app_config : string -> option AppConfig;    (* apps.get_app_config(label) *)
  get_app_configs : list AppConfig;
  app_get_model : AppConfig -> string -> option Model   (* app_config.get_model(name) *)
}.

Abbreviation Entry := (Model * list Model)%type.

Section SortDependencies.
Context (apps : Apps).

(** [apps.get_model(dep)] with the one argument: Django unpacks
    [dep.split('.')] into the app label and the model name, which raises
    [ValueError] unless [dep] has exactly one dot (the wording is Python
    2's), and raises [LookupError] when no such model is installed. *)
Definition get_model (dep : string) : Result Model :=
  match split_on "." dep with
  | [app_label; model_name] =>
      match all_models apps app_label model_name with
      | Some model => Return model
      | None => Raise (mkExc LookupError dep)
      end
  | [] | [_] => Raise (mkExc ValueError "need more than 1 value to unpack")
  | _ => Raise (mkExc ValueError "too many values to unpack")
  end.

Definition has_natural_key (model : Model) : bool :=
  bool_decide (is_Some (natural_key (meta apps model))).

(** [[apps.get_model(dep) for dep in deps]] over labels: the first label
    that fails raises. *)
Fixpoint get_models_of (deps : list string) : Result (list Model) :=
  match deps with
  | [] => Return []
  | dep :: rest =>
      result_bind (get_model dep) (fun m =>
        result_bind (get_models_of rest) (fun ms => Return (m :: ms)))
  end.

(** Lines 202-206: relations of concrete fields. *)
Definition field_deps (model : Model) : list Model :=
  flat_map (fun field =>
    match rel_to field with
    | Some rel_model =>
        if has_natural_key rel_model && bool_decide (rel_model <> model)
        then [rel_model] else []
    | None => []
    end) (fields (meta apps model)).

(** Lines 207-210: many-to-many relations. *)
Definition m2m_deps (model : Model) : list Model :=
  flat_map (fun rel_model =>
    if has_natural_key rel_model && bool_decide (rel_model <> model)
    then [rel_model] else []) (many_to_many (meta apps model)).

(** Lines 200-210: what the relation scan appends to [deps]. *)
Definition relation_deps (model : Model) : list Model :=
  field_deps model ++ m2m_deps model.

(** Lines 193-196 hand out a new list, except when the [dependencies]
    attribute is there and empty: then [if deps:] keeps the attribute list
    itself, and [shared_list] is the function it belongs to.  The relation
    scan appends to that list in place, so every entry of
    [model_dependencies] that holds it shows what was appended, and so does
    the next read of the attribute. *)
Definition shared_list (model : Model) : option NaturalKey :=
  match natural_key (meta apps model) with
  | Some nk => if bool_decide (dependencies nk = Some []) then Some nk else None
  | None => None
  end.

(** What the attribute list of [nk] holds by now: it was empty when the
    call began, and the entries that hold it show what the call appended. *)
Definition list_content (model_dependencies : list Entry) (nk : NaturalKey)
    : list Model :=
  match filter (fun entry : Entry => shared_list entry.1 = Some nk) model_dependencies with
  | [] => []
  | entry :: _ => entry.2
  end.

(** [deps.append(rel_model)], for each of [appended], on the attribute list
    of [nk]. *)
Definition append_shared (nk : NaturalKey) (appended : list Model)
    (model_dependencies : list Entry) : list Entry :=
  (fun entry : Entry =>
     if bool_decide (shared_list entry.1 = Some nk)
     then (entry.1, entry.2 ++ appended) else entry) <$> model_dependencies.

(** Lines 191-211: one turn of [for model in model_list].  On an attribute
    list that a former turn has appended to, [if deps:] holds and
    [apps.get_model] is called on a model class, which has no [split]. *)
Definition collect_model (model : Model) (models : gset Model)
    (model_dependencies : list Entry) : Result (gset Model * list Entry) :=
  let models := {[model]} ∪ models in
  let fresh deps :=
    Return (models, model_dependencies ++ [(model, deps ++ relation_deps model)]) in
  match natural_key (meta apps model) with
  | Some nk =>
      match dependencies nk with
      | Some [] =>
          match list_content model_dependencies nk with
          | [] =>
              Return (models,
                      append_shared nk (relation_deps model) model_dependencies
                      ++ [(model, relation_deps model)])
          | rel_model :: _ =>
              Raise (mkExc AttributeError
                       ("type object '" +:+ object_name rel_model +:+
                        "' has no attribute 'split'"))
          end
      | Some deps => result_bind (get_models_of deps) fresh
      | None => fresh []
      end
  | None => fresh []
  end.

(** The inner [for model in model_list] loop. *)
Fixpoint collect_models (model_list : list Model)
    (models : gset Model) (model_dependencies : list Entry)
    : Result (gset Model * list Entry) :=
  match model_list with
  | [] => Return (models, model_dependencies)
  | model :: rest =>
      result_bind (collect_model model models model_dependencies)
        (fun '(models', model_dependencies') =>
           collect_models rest models' model_dependencies')
  end.

(** The outer [for app_config, model_list in app_list] loop. *)
Fixpoint collect_apps (app_list : list (AppConfig * option (list Model)))
    (models : gset Model) (model_dependencies : list Entry)
    : Result (gset Model * list Entry) :=
  match app_list with
  | [] => Return (models, model_dependencies)
  | (app_config, model_list) :: rest =>
      let model_list := default (get_models app_config) model_list in
      result_bind (collect_models model_list models model_dependencies)
        (fun '(models', model_dependencies') =>
           collect_apps rest models' model_dependencies')
  end.

(** [d not in models or d in model_list]. *)
Definition dependency_met (models : gset Model) (model_list : list Model)
    (d : Model) : bool :=
  bool_decide (d ∉ models) || bool_decide (d ∈ model_list).

(** The inner [while]: [pops] lists the entries in the order in which
    [model_dependencies.pop()] hands them out. *)
Fixpoint scan (models : gset Model) (pops : list Entry)
    (model_list : list Model) (skipped : list Entry) (changed : bool)
    : list Model * list Entry * bool :=
  match pops with
  | [] => (model_list, skipped, changed)
  | (model, deps) :: rest =>
      if forallb (dependency_met models model_list) deps
      then scan models rest (model_list ++ [model]) skipped true
      else scan models rest model_list (skipped ++ [(model, deps)]) changed
  end.

Definition unresolved_message (skipped : list Entry) : string :=
  "Can't resolve dependencies for " +:+
  join ", " (map (fun '(model, deps) => app_label model +:+ "." +:+ object_name model)
                 (sorted (fun obj : Entry => object_name obj.1) skipped)) +:+
  " in serialized app list.".

(** The outer [while model_dependencies]; [pop()] takes from the end of
    the list, hence the [reverse]. *)
Fixpoint sort_loop (fuel : nat) (models : gset Model)
    (model_dependencies : list Entry) (model_list : list Model)
    : Result (list Model) :=
  match model_dependencies with
  | [] => Return model_list
  | _ :: _ =>
      match fuel with
      | 0 => OutOfFuel
      | S fuel' =>
          let '(model_list', skipped, changed) :=
            scan models (reverse model_dependencies) model_list [] false in
          if changed then sort_loop fuel' models skipped model_list'
          else Raise (mkExc CommandError (unresolved_message skipped))
      end
  end.

(** Lines 213-249, from the collected dependencies on.  Every pass that
    does not raise promotes a model, so as many passes as there are entries
    are enough. *)
Definition resolve (models : gset Model) (model_dependencies : list Entry)
    : Result (list Model) :=
  sort_loop (length model_dependencies) models (reverse model_dependencies) [].

Definition sort_dependencies (app_list : list (AppConfig * option (list Model)))
    : Result (list Model) :=
  result_bind (collect_apps app_list ∅ [])
    (fun '(models, model_dependencies) => resolve models model_dependencies).

End SortDependencies.


(** ** The dump command *)

(** The options [handle] reads.  [opt_primary_keys] is
    [options.get('primary_keys')]: the parser of this command defines no such
    option, a caller may pass one. *)
Record Options := mkOptions {
  opt_format : string;
  opt_indent : nat;
  opt_push : bool;
  opt_commit : bool;
  opt_database : string;
  opt_exclude : list string;
  opt_use_natural_keys : bool;
  opt_use_natural_foreign_keys : bool;
  opt_use_natural_primary_keys : bool;
  opt_use_base_manager : bool;
  opt_primary_keys : option string
}.

(** One call of [versioner.handle(queryset, model=..., format=..., ...)],
    with the arguments the queryset was made from. *)
Record DumpCall := mkDumpCall {
  dump_model : Model;
  dump_using : string;
  dump_primary_keys : list string;
  dump_use_base_manager : bool;
  dump_format : string;
  dump_indent : nat;
  dump_use_natural_foreign_keys : bool;
  dump_use_natural_primary_keys : bool
}.

(** What the command leaves behind. *)
Record DumpWorld := mkDumpWorld {
  dumped : list DumpCall;                 (* calls of versioner.handle *)
  written : list string;                  (* self.stdout.write *)
  commits : list (string * bool)          (* versioner.backend.commit(message, push) *)
}.

(** The collaborators of the dump besides the app registry.
    [apps.get_app_config] and [app_config.get_model] answer or raise
    [LookupError], as Django documents them. *)
Record DumpEnv := mkDumpEnv {
  public_serializer_formats : list string;   (* serializers.get_public_serializer_formats() *)
  queryset_count : Model -> string -> list string -> bool -> nat;
  now : string                               (* str(datetime.now()) *)
}.

Abbreviation AppList := (list (AppConfig * option (list Model))).

(** [app_list[app_config] = value] on an [OrderedDict]: a known key keeps
    its place. *)
Fixpoint od_set (app_list : AppList) (app_config : AppConfig)
    (value : option (list Model)) : AppList :=
  match app_list with
  | [] => [(app_config, value)]
  | (k, v) :: rest =>
      if decide (k = app_config) then (k, value) :: rest
      else (k, v) :: od_set rest app_config value
  end.

Fixpoint od_get (app_list : AppList) (app_config : AppConfig)
    : option (option (list Model)) :=
  match app_list with
  | [] => None
  | (k, v) :: rest =>
      if decide (k = app_config) then Some v else od_get rest app_config
  end.

Definition pks_message : string := "You can only use --pks option with one model".

Section Handle.
Context (apps : Apps) (env : DumpEnv).

(** Lines 66-81: the [excludes] loop. *)
Fixpoint collect_excludes (excludes : list string)
    (excluded_apps : gset AppConfig) (excluded_models : gset Model)
    : Result (gset AppConfig * gset Model) :=
  match excludes with
  | [] => Return (excluded_apps, excluded_models)
  | exclude :: rest =>
      if str_contains "." exclude then
        match get_model apps exclude with
        | Return model =>
            collect_excludes rest excluded_apps ({[model]} ∪ excluded_models)
        | Raise e =>
            (* except LookupError *)
            if bool_decide (exc_class e = LookupError)
            then Raise (mkExc CommandError ("Unknown model in excludes: " +:+ exclude))
            else Raise e
        | OutOfFuel => OutOfFuel
        end
      else
        match get_app_config apps exclude with
        | None => Raise (mkExc CommandError ("Unknown app in excludes: " +:+ exclude))
        | Some app_config =>
            collect_excludes rest ({[app_config]} ∪ excluded_apps) excluded_models
        end
  end.

Definition skipped_app (excluded_apps : gset AppConfig) (app_config : AppConfig) : bool :=
  negb (has_models_module app_config) || bool_decide (app_config ∈ excluded_apps).

(** Lines 87-89: every app with models that is not excluded. *)
Definition all_apps (excluded_apps : gset AppConfig) : AppList :=
  foldl (fun app_list app_config =>
           if skipped_app excluded_apps app_config then app_list
           else od_set app_list app_config None)
        [] (get_app_configs apps).

(** Lines 96-132: one label of the command line. *)
Definition add_label (primary_keys : list string) (excluded_apps : gset AppConfig)
    (app_list : AppList) (label : string) : Result AppList :=
  match split_on "."%char label with
  | [app_label; model_label] =>
      match get_app_config apps app_label with
      | None => Raise (mkExc CommandError ("Unknown application: " +:+ app_label))
      | Some app_config =>
          if skipped_app excluded_apps app_config then Return app_list
          else
            match app_get_model apps app_config model_label with
            | None => Raise (mkExc CommandError
                         ("Unknown model: " +:+ app_label +:+ "." +:+ model_label))
            | Some model =>
                match od_get app_list app_config with
                | None => Return (od_set app_list app_config (Some [model]))
                | Some None => Return app_list
                | Some (Some app_list_value) =>
                    if bool_decide (model ∈ app_list_value) then Return app_list
                    else Return (od_set app_list app_config
                                        (Some (app_list_value ++ [model])))
                end
            end
      end
  | _ =>
      (* except ValueError: the label is not app_label.ModelName *)
      match primary_keys with
      | _ :: _ => Raise (mkExc CommandError pks_message)
      | [] =>
          match get_app_config apps label with
          | None => Raise (mkExc CommandError ("Unknown application: " +:+ label))
          | Some app_config =>
              if skipped_app excluded_apps app_config then Return app_list
              else Return (od_set app_list app_config None)
          end
      end
  end.

Fixpoint add_labels (primary_keys : list string) (excluded_apps : gset AppConfig)
    (app_list : AppList) (app_labels : list string) : Result AppList :=
  match app_labels with
  | [] => Return app_list
  | label :: rest =>
      result_bind (add_label primary_keys excluded_apps app_list label)
        (fun app_list' => add_labels primary_keys excluded_apps app_list' rest)
  end.

(** Lines 83-132. *)
Definition build_app_list (primary_keys : list string) (excluded_apps : gset AppConfig)
    (app_labels : list string) : Result AppList :=
  match app_labels with
  | [] =>
      match primary_keys with
      | _ :: _ => Raise (mkExc CommandError pks_message)
      | [] => Return (all_apps excluded_apps)
      end
  | _ :: _ =>
      if bool_decide (1 < length app_labels) && bool_decide (primary_keys <> [])
      then Raise (mkExc CommandError pks_message)
      else add_labels primary_keys excluded_apps [] app_labels
  end.

(** Lines 149-165: the loop over the sorted models. *)
Fixpoint dump_models (options : Options) (primary_keys : list string)
    (sorted_models : list Model) (w : DumpWorld) (models instances : nat)
    : DumpWorld * nat * nat :=
  match sorted_models with
  | [] => (w, models, instances)
  | model :: rest =>
      let call := mkDumpCall model (opt_database options) primary_keys
                    (opt_use_base_manager options) (opt_format options)
                    (opt_indent options)
                    (opt_use_natural_foreign_keys options || opt_use_natural_keys options)
                    (opt_use_natural_primary_keys options) in
      dump_models options primary_keys rest
        (mkDumpWorld (dumped w ++ [call]) (written w) (commits w))
        (models + 1)
        (instances + queryset_count env model (opt_database options) primary_keys
                       (opt_use_base_manager options))
  end.

Definition handle (app_labels : list string) (options : Options) (w : DumpWorld)
    : DumpWorld * Result unit :=
  let primary_keys :=
    match opt_primary_keys options with
    | Some pks => if bool_decide (pks = "") then [] else split_on ","%char pks
    | None => []
    end in
  match collect_excludes (opt_exclude options) ∅ ∅ with
  | Raise e => (w, Raise e)
  | OutOfFuel => (w, OutOfFuel)
  | Return (excluded_apps, excluded_models) =>
  match build_app_list primary_keys excluded_apps app_labels with
  | Raise e => (w, Raise e)
  | OutOfFuel => (w, OutOfFuel)
  | Return app_list =>
  if bool_decide (opt_format options ∉ public_serializer_formats env) then
    (w, Raise (mkExc CommandError
                 ("Unknown serialization format: " +:+ opt_format options)))
  else
  match sort_dependencies apps app_list with
  | Raise e => (w, Raise e)
  | OutOfFuel => (w, OutOfFuel)
  | Return sorted_models =>
      let '(w1, models, instances) :=
        dump_models options primary_keys sorted_models w 0 0 in
      let w2 := mkDumpWorld (dumped w1)
                  (written w1 ++ ["Dumped " +:+ pretty (length app_list) +:+
                                 " applications, " +:+ pretty models +:+
                                 " models and " +:+ pretty instances +:+ " instances."])
                  (commits w1) in
      if opt_commit options || opt_push options then
        (mkDumpWorld (dumped w2) (written w2 ++ ["Commit & Push ..."])
                     (commits w2 ++ [("Initial versions from: " +:+ now env,
                                      opt_push options)]),
         Return ())
      else (w2, Return ())
  end end end.

End Handle.

End Gitversions.

(** * gitrestore.py *)
Module Gitrestore.

(** ** What the restore command reads from Django *)

(** [obj.object.pk] as [%s] prints it. *)
Inductive Pk :=
| PkNone
| PkInt (n : Z)
| PkStr (s : string).

Definition str_pk (pk : Pk) : string :=
  match pk with
  | PkNone => "None"
  | PkInt n => pretty n
  | PkStr s => s
  end.

(** A [DeserializedObject]: the class of [obj.object], its primary key and
    the rest of its content. *)
Record DeserializedObject := mkObject {
  object_class : Model;
  object_pk : Pk;
  object_fields : string
}.

Global Instance Pk_eq_dec : EqDecision Pk.
Proof. solve_decision. Defined.

Global Instance DeserializedObject_eq_dec : EqDecision DeserializedObject.
Proof. solve_decision. Defined.

(** What opening, reading and deserializing one fixture gives. *)
Inductive FixtureRead :=
| OpenFails (text : string)
    (* open(path, 'r') raises: outside the try, the IOError goes up *)
| ReadFails (e : Exception)
    (* read() or the call of deserialize raises: [objects] is not rebound *)
| IterationFails (e : Exception) (rest : list DeserializedObject)
    (* list(objects) raises: [objects] names the iterable, [rest] is what
       it still yields (nothing for a generator) *)
| Decoded (objects : list DeserializedObject).

(** What the name [objects] of [loaddata] is bound to. *)
Inductive ObjectsVar :=
| Unbound
| BoundList (l : list DeserializedObject)
| BoundIter (rest : list DeserializedObject).

(** The collaborators of the restore, as functions of the external state
    [Ext] (the data store, the file system, the repository). *)
Record Env (Ext : Type) := mkEnv {
  (* router.allow_migrate_model(using, obj.object.__class__) *)
  allow_migrate_model : string -> Model -> bool;
  (* obj.save(using=using) *)
  obj_save : string -> DeserializedObject -> Ext -> Ext * option Exception;
  (* connection.disable_constraint_checking(): whether it disabled them *)
  disable_constraint_checking : string -> Ext -> Ext * (bool + Exception);
  (* connection.enable_constraint_checking() *)
  enable_constraint_checking : string -> Ext -> Ext * option Exception;
  (* open(path), read(), serializers.deserialize('json', ...), list(...) *)
  load_fixture : string -> bool -> string -> Ext -> FixtureRead;
  get_all_fixtures : Ext -> list string;
  (* GitBackend(url=url).repo *)
  clone_repository : string -> Ext -> Ext * option Exception;
  versioner_path : string;
  get_autocommit : string -> Ext -> bool;
  close_connection : string -> Ext -> Ext
}.
Arguments mkEnv {Ext}.
Arguments allow_migrate_model {Ext}.
Arguments obj_save {Ext}.
Arguments disable_constraint_checking {Ext}.
Arguments enable_constraint_checking {Ext}.
Arguments load_fixture {Ext}.
Arguments get_all_fixtures {Ext}.
Arguments clone_repository {Ext}.
Arguments versioner_path {Ext}.
Arguments get_autocommit {Ext}.
Arguments close_connection {Ext}.

(** The state the command works on. *)
Record World (Ext : Type) := mkWorld {
  ext : Ext;
  hook_connected : bool;                  (* gitversion is connected to post_save *)
  saves : list DeserializedObject;        (* the calls of obj.save, in order *)
  versioned : list DeserializedObject;    (* the saves gitversion reacted to *)
  stdout : list string;
  stderr : list string
}.
Arguments mkWorld {Ext}.
Arguments ext {Ext}.
Arguments hook_connected {Ext}.
Arguments saves {Ext}.
Arguments versioned {Ext}.
Arguments stdout {Ext}.
Arguments stderr {Ext}.

(** The options [handle] reads. *)
Record Options := mkOptions {
  opt_ignore : bool;
  opt_database : string;
  opt_url : option string;
  opt_app_label : option string;
  opt_verbosity : nat
}.

(** [e.__class__.__name__] *)
Definition exc_name (c : ExcClass) : string :=
  match c with
  | CommandError => "CommandError"
  | LookupError => "LookupError"
  | ValueError => "ValueError"
  | AttributeError => "AttributeError"
  | UnboundLocalError => "UnboundLocalError"
  | IOError => "IOError"
  | DeserializationError => "DeserializationError"
  | DatabaseError => "DatabaseError"
  | DataError => "DataError"
  | OperationalError => "OperationalError"
  | IntegrityError => "IntegrityError"
  | InternalError => "InternalError"
  | ProgrammingError => "ProgrammingError"
  | NotSupportedError => "NotSupportedError"
  | TransactionManagementError => "TransactionManagementError"
  | OtherDatabaseError name => name
  | OtherException name => name
  end.

(** [isinstance(e, (DatabaseError, IntegrityError))]: [DatabaseError] and
    every class that derives from it. *)
Definition is_database_error (c : ExcClass) : bool :=
  match c with
  | DatabaseError | DataError | OperationalError | IntegrityError
  | InternalError | ProgrammingError | NotSupportedError
  | TransactionManagementError | OtherDatabaseError _ => true
  | CommandError | LookupError | ValueError | AttributeError
  | UnboundLocalError | IOError | DeserializationError
  | OtherException _ => false
  end.

Definition unbound_local (name : string) : Exception :=
  mkExc UnboundLocalError
        ("local variable '" +:+ name +:+ "' referenced before assignment").

Definition humanize (dirname : string) : string :=
  if bool_decide (dirname = "") then "absolute path"
  else "'" +:+ dirname +:+ "'".

(** [l.remove(x)]: the first occurrence goes. *)
Fixpoint list_remove (x : string) (l : list string) : list string :=
  match l with
  | [] => []
  | y :: l' => if decide (y = x) then l' else y :: list_remove x l'
  end.

Section Restore.
Context {Ext : Type} (env : Env Ext).

(** State and exceptions, threaded. *)
Definition M (A : Type) : Type := World Ext -> World Ext * Result A.

Definition ret {A : Type} (a : A) : M A := fun w => (w, Return a).

Definition bind {A B : Type} (m : M A) (k : A -> M B) : M B :=
  fun w =>
    match m w with
    | (w', Return a) => k a w'
    | (w', Raise e) => (w', Raise e)
    | (w', OutOfFuel) => (w', OutOfFuel)
    end.

Definition set_ext (x : Ext) (w : World Ext) : World Ext :=
  mkWorld x (hook_connected w) (saves w) (versioned w) (stdout w) (stderr w).

Definition set_hook (connected : bool) (w : World Ext) : World Ext :=
  mkWorld (ext w) connected (saves w) (versioned w) (stdout w) (stderr w).

Definition write_stdout (text : string) (w : World Ext) : World Ext :=
  mkWorld (ext w) (hook_connected w) (saves w) (versioned w)
          (stdout w ++ [text]) (stderr w).

Definition write_stderr (text : string) (w : World Ext) : World Ext :=
  mkWorld (ext w) (hook_connected w) (saves w) (versioned w)
          (stdout w) (stderr w ++ [text]).

(** [obj.save(using=using)]; a save that succeeds sends [post_save], to
    which [gitversion] reacts while it is connected. *)
Definition save (using_ : string) (obj : DeserializedObject) : M unit :=
  fun w =>
    let '(x, failure) := obj_save env using_ obj (ext w) in
    match failure with
    | None =>
        (mkWorld x (hook_connected w) (saves w ++ [obj])
                 (if hook_connected w then versioned w ++ [obj] else versioned w)
                 (stdout w) (stderr w),
         Return ())
    | Some e =>
        (mkWorld x (hook_connected w) (saves w ++ [obj]) (versioned w)
                 (stdout w) (stderr w),
         Raise e)
    end.

(** Lines 61-66: the exception with its [args] replaced. *)
Definition could_not_load (obj : DeserializedObject) (e : Exception) : Exception :=
  mkExc (exc_class e)
        ("Could not load " +:+ app_label (object_class obj) +:+ "." +:+
         object_name (object_class obj) +:+ "(pk=" +:+ str_pk (object_pk obj) +:+
         "): " +:+ exc_text e).

(** Lines 56-68: the [for obj in objects] loop.  [caught] lists the
    exception objects it caught, as line 61 left them; the code keeps no
    reference to them. *)
Fixpoint save_each (using_ : string) (objects : list DeserializedObject)
    (skiped : list DeserializedObject) (caught : list Exception)
    : M (list DeserializedObject * list Exception) :=
  match objects with
  | [] => ret (skiped, caught)
  | obj :: rest =>
      if allow_migrate_model env using_ (object_class obj) then
        fun w =>
          match save using_ obj w with
          | (w', Return _) => save_each using_ rest skiped caught w'
          | (w', Raise e) =>
              if is_database_error (exc_class e)
              then save_each using_ rest (skiped ++ [obj])
                             (caught ++ [could_not_load obj e]) w'
              else (w', Raise e)
          | (w', OutOfFuel) => (w', OutOfFuel)
          end
      else save_each using_ rest skiped caught
  end.

(** [save_all], with the depth of its recursion bounded by [fuel]. *)
Fixpoint save_all_rec (fuel : nat) (objects : list DeserializedObject)
    (using_ : string) (iterations : nat) : M nat :=
  if bool_decide (length objects = 0) || bool_decide (25 <= iterations)
  then ret iterations
  else
    match fuel with
    | 0 => fun w => (w, OutOfFuel)
    | S fuel' =>
        bind (save_each using_ objects [] []) (fun '(skiped, _) =>
          if bool_decide (0 < length skiped)
          then save_all_rec fuel' skiped using_ (iterations + 1)
          else ret iterations)
    end.

(** Every call that goes on has a counter below 25 and hands on a larger
    one: 25 calls are enough. *)
Definition save_all (objects : list DeserializedObject) (using_ : string)
    (iterations : nat) : M nat :=
  save_all_rec 25 objects using_ iterations.

(** [with connection.constraint_checks_disabled(): body].  Django's context
    manager enables the checks again, whatever the body did, when it had
    disabled them; an exception of that step replaces the outcome.  The
    expression [transaction.atomic(...) and
    connection.constraint_checks_disabled()] of [handle] is its second
    operand, so this is all that [with] enters there.  [S] holds the local
    variables the body assigns. *)
Definition constraint_checks_disabled {S : Type} (using_ : string)
    (body : S -> World Ext -> World Ext * S * Result unit)
    (s : S) (w : World Ext) : World Ext * S * Result unit :=
  match disable_constraint_checking env using_ (ext w) with
  | (x, inr e) => (set_ext x w, s, Raise e)
  | (x, inl disabled) =>
      let '(w1, s1, outcome) := body s (set_ext x w) in
      match outcome with
      | OutOfFuel => (w1, s1, OutOfFuel)
      | _ =>
          if disabled then
            match enable_constraint_checking env using_ (ext w1) with
            | (x', Some e') => (set_ext x' w1, s1, Raise e')
            | (x', None) => (set_ext x' w1, s1, outcome)
            end
          else (w1, s1, outcome)
      end
  end.

(** ** [loaddata] *)

(** The local variables of [loaddata].  [fixture_labels] is the list object
    the caller passed: what [remove] does to it stays done when the function
    raises. *)
Record Loading := mkLoading {
  fixture_labels : list string;
  ld_skiped : list string;
  ld_processed : list string;
  loaded_objects : list DeserializedObject;
  missing_model : list string;
  ld_missing_fks : list DeserializedObject;
  ld_objects : ObjectsVar
}.

(** Lines 210-224: the two [except] clauses; [objects] is what the name is
    bound to when they run. *)
Definition fixture_failed (path : string) (e : Exception) (objects : ObjectsVar)
    (st : Loading) (w : World Ext) : World Ext * Loading * Result unit :=
  if bool_decide (exc_class e = DeserializationError) then
    let st1 := mkLoading (list_remove path (fixture_labels st))
                 (ld_skiped st ++ [path]) (ld_processed st) (loaded_objects st)
                 (missing_model st) (ld_missing_fks st) objects in
    if str_contains "Invalid model identifier" (exc_text e) then
      (w, mkLoading (fixture_labels st1) (ld_skiped st1) (ld_processed st1)
            (loaded_objects st1) (missing_model st1 ++ [exc_text e])
            (ld_missing_fks st1) objects,
       Return ())
    else if str_contains "matching query does not exist" (exc_text e) then
      match objects with
      | Unbound => (w, st1, Raise (unbound_local "objects"))
      | BoundList l =>
          (w, mkLoading (fixture_labels st1) (ld_skiped st1) (ld_processed st1)
                (loaded_objects st1) (missing_model st1)
                (ld_missing_fks st1 ++ l) objects,
           Return ())
      | BoundIter rest =>
          (w, mkLoading (fixture_labels st1) (ld_skiped st1) (ld_processed st1)
                (loaded_objects st1) (missing_model st1)
                (ld_missing_fks st1 ++ rest) (BoundIter []),
           Return ())
      end
    else
      (write_stderr ("DeserializationError(" +:+ exc_text e +:+
                     ") raised during serialization " +:+ path +:+ " fixture.") w,
       st1, Return ())
  else
    (write_stderr ("Exception " +:+ exc_text e +:+ " " +:+ exc_name (exc_class e) +:+
                   " raised during loading " +:+ path +:+ " fixture.") w,
     mkLoading (list_remove path (fixture_labels st)) (ld_skiped st)
               (ld_processed st) (loaded_objects st) (missing_model st)
               (ld_missing_fks st) objects,
     Return ()).

(** Lines 196-229: [for path in fixture_labels], which walks the list by
    index while the body removes from it. *)
Fixpoint loaddata_loop (fuel : nat) (options : Options) (index : nat)
    (st : Loading) (w : World Ext) : World Ext * Loading * Result unit :=
  match fixture_labels st !! index with
  | None => (w, st, Return ())
  | Some path =>
      match fuel with
      | 0 => (w, st, OutOfFuel)
      | S fuel' =>
          let w0 := if bool_decide (2 <= opt_verbosity options)
                    then write_stdout ("Installing " +:+ humanize path +:+ " fixture") w
                    else w in
          let '(w1, st1, outcome) :=
            match load_fixture env (opt_database options) (opt_ignore options)
                               path (ext w0) with
            | OpenFails text => (w0, st, Raise (mkExc IOError text))
            | ReadFails e => fixture_failed path e (ld_objects st) st w0
            | IterationFails e rest => fixture_failed path e (BoundIter rest) st w0
            | Decoded objects =>
                (w0,
                 mkLoading (list_remove path (fixture_labels st)) (ld_skiped st)
                           (ld_processed st ++ [path])
                           (loaded_objects st ++ objects) (missing_model st)
                           (ld_missing_fks st) (BoundList objects),
                 Return ())
            end in
          match outcome with
          | Return _ => loaddata_loop fuel' options (index + 1) st1 w1
          | _ => (w1, st1, outcome)
          end
      end
  end.

(** [loaddata(fixture_labels)]: what it returns is read off the final
    [Loading].  Each turn of the loop removes a label, so as many turns as
    there are labels are enough.  The counters and tables the method keeps on
    [self] ([fixture_count], [compression_formats], ...) are read by nothing
    that runs and are left out. *)
Definition loaddata (options : Options) (fixture_labels : list string)
    (w : World Ext) : World Ext * Loading * Result unit :=
  constraint_checks_disabled (opt_database options)
    (loaddata_loop (length fixture_labels) options 0)
    (mkLoading fixture_labels [] [] [] [] [] Unbound) w.

(** ** [handle] *)

(** The local variables of [handle] that outlive a pass. *)
Record Locals := mkLocals {
  unloaded : list string;
  _processed : option (list string);
  processed : list string;
  skiped : list string;
  really_skiped : list string;
  objects : list DeserializedObject;
  missing_fks : option (list DeserializedObject);
  i : nat
}.

(** Lines 123-127: the body of the [with] of the first loop. *)
Definition ingest_pass (options : Options) (st : Locals) (w : World Ext)
    : World Ext * Locals * Result unit :=
  let '(w1, ld, outcome) := loaddata options (unloaded st) w in
  match outcome with
  | Return _ =>
      (w1,
       mkLocals (fixture_labels ld) (Some (ld_processed ld))
                (processed st ++ ld_processed ld) (skiped st ++ ld_skiped ld)
                (really_skiped st) (objects st ++ loaded_objects ld)
                (Some (ld_missing_fks ld)) (i st),
       Return ())
  | _ =>
      (w1,
       mkLocals (fixture_labels ld) (_processed st) (processed st) (skiped st)
                (really_skiped st) (objects st) (missing_fks st) (i st),
       outcome)
  end.

Definition next_pass (st : Locals) (unloaded' : list string) : Locals :=
  mkLocals unloaded' (_processed st) (processed st) (skiped st)
           (really_skiped st) (objects st) (missing_fks st) (i st + 1).

(** Lines 119-131: [while len(unloaded) > 0]. *)
Fixpoint ingest_loop (fuel : nat) (options : Options) (st : Locals)
    (w : World Ext) : World Ext * Locals * Result unit :=
  if bool_decide (length (unloaded st) = 0) then (w, st, Return ())
  else
    match fuel with
    | 0 => (w, st, OutOfFuel)
    | S fuel' =>
        let '(w1, st1, outcome) :=
          constraint_checks_disabled (opt_database options)
                                     (ingest_pass options) st w in
        match outcome with
        | Return _ => ingest_loop fuel' options (next_pass st1 (unloaded st1)) w1
        | Raise e =>
            if bool_decide (exc_class e = TransactionManagementError) then
              match _processed st1 with
              | None => (w1, st1, Raise (unbound_local "_processed"))
              | Some again =>
                  ingest_loop fuel' options (next_pass st1 (unloaded st1 ++ again)) w1
              end
            else (w1, st1, Raise e)
        | OutOfFuel => (w1, st1, OutOfFuel)
        end
    end.

(** Lines 142-146: the body of the [with] of the second loop. *)
Definition retry_pass (options : Options) (st : Locals) (w : World Ext)
    : World Ext * Locals * Result unit :=
  let '(w1, ld, outcome) := loaddata options (skiped st) w in
  match outcome with
  | Return _ =>
      (w1,
       mkLocals (unloaded st) (Some (ld_processed ld))
                (processed st ++ ld_processed ld) (fixture_labels ld)
                (really_skiped st ++ ld_skiped ld) (objects st ++ loaded_objects ld)
                (Some (ld_missing_fks ld)) (i st),
       Return ())
  | _ =>
      (w1,
       mkLocals (unloaded st) (_processed st) (processed st) (fixture_labels ld)
                (really_skiped st) (objects st) (missing_fks st) (i st),
       outcome)
  end.

(** Lines 138-148: [while len(skiped) > 0]. *)
Fixpoint retry_loop (fuel : nat) (options : Options) (st : Locals)
    (w : World Ext) : World Ext * Locals * Result unit :=
  if bool_decide (length (skiped st) = 0) then (w, st, Return ())
  else
    match fuel with
    | 0 => (w, st, OutOfFuel)
    | S fuel' =>
        let '(w1, st1, outcome) :=
          constraint_checks_disabled (opt_database options)
                                     (retry_pass options) st w in
        match outcome with
        | Return _ => retry_loop fuel' options (next_pass st1 (unloaded st1)) w1
        | _ => (w1, st1, outcome)
        end
    end.

(** Lines 133-135: the first two calls of [save_all]; the local
    [iterations] is what the body leaves. *)
Definition save_first (options : Options) (st : Locals)
    (iterations : option nat) (w : World Ext)
    : World Ext * option nat * Result unit :=
  match missing_fks st with
  | None => (w, iterations, Raise (unbound_local "missing_fks"))
  | Some missing =>
      match save_all missing (opt_database options) 0 w with
      | (w1, Return n1) =>
          match save_all (objects st) (opt_database options) 0 w1 with
          | (w2, Return n2) => (w2, Some n2, Return ())
          | (w2, Raise e) => (w2, Some n1, Raise e)
          | (w2, OutOfFuel) => (w2, Some n1, OutOfFuel)
          end
      | (w1, Raise e) => (w1, iterations, Raise e)
      | (w1, OutOfFuel) => (w1, iterations, OutOfFuel)
      end
  end.

(** Line 152: the last call of [save_all]. *)
Definition save_again (options : Options) (st : Locals)
    (iterations : option nat) (w : World Ext)
    : World Ext * option nat * Result unit :=
  match iterations with
  | None => (w, iterations, Raise (unbound_local "iterations"))
  | Some n =>
      match save_all (objects st) (opt_database options) n w with
      | (w1, Return n') => (w1, Some n', Return ())
      | (w1, Raise e) => (w1, iterations, Raise e)
      | (w1, OutOfFuel) => (w1, iterations, OutOfFuel)
      end
  end.

Definition summary (st : Locals) (count_total iterations : nat) : string :=
  "Loaded " +:+ pretty (length (processed st)) +:+ " instances and " +:+
  pretty (length (really_skiped st)) +:+ " was skipped from total " +:+
  pretty count_total +:+ " in " +:+ pretty (i st) +:+
  " loaddata iterations and " +:+ pretty iterations +:+ " saving iterations.".

(** Lines 106-163, from the list of fixtures on. *)
Definition restore (fuel : nat) (options : Options) (total : list string)
    (w : World Ext) : World Ext * Result nat :=
  let count_total := length total in
  let st := mkLocals total None [] [] [] [] None 0 in
  let w := set_hook false w in
  match ingest_loop fuel options st w with
  | (w1, st1, Return _) =>
  match constraint_checks_disabled (opt_database options)
          (save_first options st1) None w1 with
  | (w2, iterations2, Return _) =>
  match retry_loop fuel options st1 w2 with
  | (w3, st3, Return _) =>
  match constraint_checks_disabled (opt_database options)
          (save_again options st3) iterations2 w3 with
  | (w4, Some iterations, Return _) =>
      let w5 := write_stdout (summary st3 count_total iterations) w4 in
      let w6 := if get_autocommit env (opt_database options) (ext w5)
                then set_ext (close_connection env (opt_database options) (ext w5)) w5
                else w5 in
      (set_hook true w6, Return iterations)
  | (w4, None, Return _) => (w4, Raise (unbound_local "iterations"))
  | (w4, _, Raise e) => (w4, Raise e)
  | (w4, _, OutOfFuel) => (w4, OutOfFuel)
  end
  | (w3, _, Raise e) => (w3, Raise e)
  | (w3, _, OutOfFuel) => (w3, OutOfFuel)
  end
  | (w2, _, Raise e) => (w2, Raise e)
  | (w2, _, OutOfFuel) => (w2, OutOfFuel)
  end
  | (w1, _, Raise e) => (w1, Raise e)
  | (w1, _, OutOfFuel) => (w1, OutOfFuel)
  end.

(** [Command.handle]; it returns nothing, the number of saving iterations
    it reports is kept as its value. *)
Definition handle (fuel : nat) (options : Options) (w : World Ext)
    : World Ext * Result nat :=
  let cloned :=
    match opt_url options with
    | Some url =>
        if bool_decide (url = "") then (w, None)
        else
          let w0 := write_stdout ("Clonning initial data from " +:+ url +:+
                                  " into " +:+ versioner_path env) w in
          let '(x, failure) := clone_repository env url (ext w0) in
          (set_ext x w0, failure)
    | None => (w, None)
    end in
  match cloned with
  | (w0, Some e) => (w0, Raise e)
  | (w0, None) => restore fuel options (get_all_fixtures env (ext w0)) w0
  end.

End Restore.

(** ** [parse_name] *)

(** [text.rsplit(sep, maxsplit)] for a one-character separator: the pieces
    of [split], the leading ones joined again when there are more than
    [maxsplit + 1]. *)
Definition rsplit (sep : Ascii.ascii) (maxsplit : nat) (text : string) : list string :=
  let parts := split_on sep text in
  if bool_decide (length parts <= maxsplit + 1) then parts
  else join (String sep "") (take (length parts - maxsplit) parts)
       :: drop (length parts - maxsplit) parts.

(** [parts[:-1]]. *)
Definition but_last (parts : list string) : list string :=
  take (length parts - 1) parts.

(** [Command.parse_name]; [compression_formats] lists the keys of the
    table [loaddata] sets up, [None] among them, and
    [serialization_formats] is the list it stores beside it. *)
Definition parse_name (compression_formats : list (option string))
    (serialization_formats : list string) (fixture_name : string)
    : Result (string * option string * option string) :=
  let parts := rsplit "." 2 fixture_name in
  let '(cmp_fmt, parts) :=
    match last parts with
    | Some ending =>
        if bool_decide (1 < length parts) &&
           bool_decide (Some ending ∈ compression_formats)
        then (Some ending, but_last parts)
        else (None, parts)
    | None => (None, parts)
    end in
  if bool_decide (1 < length parts) then
    match last parts with
    | Some ending =>
        if bool_decide (ending ∈ serialization_formats)
        then Return (join "." (but_last parts), Some ending, cmp_fmt)
        else Raise (mkExc CommandError
                      ("Problem installing fixture '" +:+ join "" (but_last parts) +:+
                       "': " +:+ ending +:+ " is not a known serialization format."))
    | None => Raise (mkExc (OtherException "IndexError") "list index out of range")
    end
  else Return (join "." parts, None, cmp_fmt).

End Gitrestore.

(** * Vocabulary of the statements *)

Section SortVocabulary.
Import Gitversions.
Context (apps : Apps).

(** The models handed to [sort_dependencies], in the order of the app
    list. *)
Definition input_models (app_list : list (AppConfig * option (list Model)))
    : list Model :=
  flat_map (fun '(app_config, model_list) =>
              default (get_models app_config) model_list) app_list.

(** One full scan pass of the outer [while] over the entries that
    remain. *)
Definition full_pass (models : gset Model) (remaining : list Entry)
    (model_list : list Model) : list Model * list Entry * bool :=
  scan models (reverse remaining) model_list [] false.

Definition promotes_none (models : gset Model) (remaining : list Entry)
    (model_list : list Model) : Prop :=
  (full_pass models remaining model_list).2 = false.

(** The loop states the outer [while] goes through: each step is a pass
    that promoted a model. *)
Inductive Passes (models : gset Model)
    : list Entry -> list Model -> list Entry -> list Model -> Prop :=
| Passes_here md ml : Passes models md ml md ml
| Passes_step md ml ml' skipped md'' ml'' :
    md <> [] ->
    full_pass models md ml = (ml', skipped, true) ->
    Passes models skipped ml' md'' ml'' ->
    Passes models md ml md'' ml''.

(** Every model of the list stands after those of its dependencies that
    are selected. *)
Definition deps_precede (models : gset Model) (md : list Entry)
    (model_list : list Model) : Prop :=
  forall l1 m l2, model_list = l1 ++ m :: l2 ->
    exists deps, (m, deps) ∈ md /\
      forall d, d ∈ deps -> d ∈ models -> d ∈ l1.

(** [m] waits for [d]: a dependency listed for [m] that is selected. *)
Definition waits_for (models : gset Model) (md : list Entry) (m d : Model) : Prop :=
  exists deps, (m, deps) ∈ md /\ d ∈ deps /\ d ∈ models.

(** The labels a model's [natural_key.dependencies] declares. *)
Definition declared_labels (model : Model) : list string :=
  match natural_key (meta apps model) with
  | Some nk => default [] (dependencies nk)
  | None => []
  end.
(** No selected model waits, through the collected lists, for itself. *)
Definition acyclic (models : gset Model) (md : list Entry) : Prop :=
  forall m, ~ tc (waits_for models md) m m.

(** [m] and [m'] are handed one and the same list: their [natural_key] is
    one function, whose [dependencies] attribute is there and empty. *)
Definition shares_list (m m' : Model) : Prop :=
  exists nk, shared_list apps m = Some nk /\ shared_list apps m' = Some nk.

(** The entries that hold one attribute list hold the same models. *)
Definition one_list (md : list Entry) : Prop :=
  forall entry entry' nk, entry ∈ md -> entry' ∈ md ->
    shared_list apps entry.1 = Some nk -> shared_list apps entry'.1 = Some nk ->
    entry.2 = entry'.2.

(** What the list collected for [model] holds, [selected] being the models
    read: the models its labels name, what the relation scan appended for
    it, and what it appended for the models that hold the same list. *)
Definition listed (selected : list Model) (model d : Model) : Prop :=
  (exists dep, dep ∈ declared_labels model /\ get_model apps dep = Return d) \/
  (exists m', (m' = model \/ (m' ∈ selected /\ shares_list model m')) /\
     d ∈ relation_deps apps m').

Definition lists_described (md : list Entry) : Prop :=
  forall model deps, (model, deps) ∈ md ->
    forall d, d ∈ deps <-> listed (md.*1) model d.

(** Reading [m] after the models of [read] goes through: its labels
    resolve, and no model of [read] that holds the same list has had
    anything appended. *)
Definition readable (read : list Model) (m : Model) : Prop :=
  (forall dep, dep ∈ declared_labels m -> exists d, get_model apps dep = Return d) /\
  (forall m0, m0 ∈ read -> shares_list m0 m -> relation_deps apps m0 = []).

(** The entries with the dependencies outside [models] erased. *)
Definition internal_only (models : gset Model) (md : list Entry) : list Entry :=
  (fun '(model, deps) => (model, filter (fun d => d ∈ models) deps)) <$> md.

(** ['%s.%s' % (model._meta.app_label, model._meta.object_name)] *)
Definition model_label (model : Model) : string :=
  app_label model +:+ "." +:+ object_name model.

End SortVocabulary.

(** A step that returns or raises [CommandError]. *)
Definition returns_or_command_error {A : Type} (r : Result A) : Prop :=
  (exists a, r = Return a) \/ (exists e, r = Raise e /\ exc_class e = CommandError).

Section RestoreVocabulary.
Import Gitrestore.
Context {Ext : Type} (env : Env Ext).

(** The objects the router lets through to the store. *)
Definition routed (using_ : string) (objects : list DeserializedObject)
    : list DeserializedObject :=
  filter (fun obj => allow_migrate_model env using_ (object_class obj) = true) objects.

(** The constraint toggles of the store never raise a
    [TransactionManagementError]. *)
Definition toggles_keep_transaction : Prop :=
  (forall using_ x x' e,
     disable_constraint_checking env using_ x = (x', inr e) ->
     exc_class e <> TransactionManagementError) /\
  (forall using_ x x' e,
     enable_constraint_checking env using_ x = (x', Some e) ->
     exc_class e <> TransactionManagementError).

(** A step that leaves the hook as it is and, while the hook is
    disconnected, adds nothing to what [gitversion] reacted to. *)
Definition quiet (w w' : World Ext) : Prop :=
  hook_connected w' = hook_connected w /\
  (hook_connected w = false -> versioned w' = versioned w).
End RestoreVocabulary.

Section DumpVocabulary.
Import Gitversions.

(** The primary keys [handle] filters by (lines 59-64). *)
Definition primary_keys_of (options : Options) : list string :=
  match opt_primary_keys options with
  | Some pks => if bool_decide (pks = "") then [] else split_on "," pks
  | None => []
  end.

(** The call of [versioner.handle] the dump makes for a model. *)
Definition dump_call (options : Options) (model : Model) : DumpCall :=
  mkDumpCall model (opt_database options) (primary_keys_of options)
    (opt_use_base_manager options) (opt_format options) (opt_indent options)
    (opt_use_natural_foreign_keys options || opt_use_natural_keys options)
    (opt_use_natural_primary_keys options).

(** The options with another list of excludes. *)
Definition with_exclude (options : Options) (excludes : list string) : Options :=
  mkOptions (opt_format options) (opt_indent options) (opt_push options)
    (opt_commit options) (opt_database options) excludes
    (opt_use_natural_keys options) (opt_use_natural_foreign_keys options)
    (opt_use_natural_primary_keys options) (opt_use_base_manager options)
    (opt_primary_keys options).

(** The excludes that name an app: those without a dot. *)
Definition app_excludes (excludes : list string) : list string :=
  filter (fun exclude => str_contains "." exclude = false) excludes.

(** The number of instances the dump counts for the models. *)
Definition count_instances (env : DumpEnv) (options : Options)
    (sorted_models : list Model) : nat :=
  foldl (fun n model =>
           n + queryset_count env model (opt_database options)
                 (primary_keys_of options) (opt_use_base_manager options))
        0 sorted_models.

(** Where a dumped model comes from: the models of an app, or a model the
    app gave for a name. *)
Definition model_of_app (apps : Apps) (app_config : AppConfig) (model : Model) : Prop :=
  model ∈ get_models app_config \/
  exists name, app_get_model apps app_config name = Some model.

(** The app list: its keys are apps with models that are not excluded, and
    a model listed for an app is one the app gave for a name. *)
Definition app_list_sound (apps : Apps) (excluded_apps : gset AppConfig)
    (app_list : AppList) : Prop :=
  forall app_config model_list, (app_config, model_list) ∈ app_list ->
    skipped_app excluded_apps app_config = false /\
    forall l model, model_list = Some l -> model ∈ l ->
      exists name, app_get_model apps app_config name = Some model.
End DumpVocabulary.

Section LoadVocabulary.
Import Gitrestore.
Context {Ext : Type} (env : Env Ext).

(** The elements at the positions 0, 2, 4, ... of a list, and those at
    1, 3, 5, ... *)
Fixpoint visited {A : Type} (l : list A) : list A :=
  match l with
  | x :: _ :: l' => x :: visited l'
  | [x] => [x]
  | [] => []
  end.

Definition stepped_over {A : Type} (l : list A) : list A := visited (tail l).

(** The constraint toggles of the store raise nothing. *)
Definition toggles_succeed : Prop :=
  (forall using_ x, exists x' disabled,
     disable_constraint_checking env using_ x = (x', inl disabled)) /\
  (forall using_ x, exists x',
     enable_constraint_checking env using_ x = (x', None)).

(** Every fixture of [labels] opens and deserializes, to [decode path]. *)
Definition decodes (options : Options) (decode : string -> list DeserializedObject)
    (labels : list string) : Prop :=
  forall path x, path ∈ labels ->
    load_fixture env (opt_database options) (opt_ignore options) path x
    = Decoded (decode path).
End LoadVocabulary.

Section NameVocabulary.

(** A string without a dot. *)
Definition dot_free (s : string) : Prop := "."%char ∉ String.list_ascii_of_string s.

(** The ending a format adds to a fixture name. *)
Definition ending_of (format : option string) : string :=
  match format with
  | Some f => "." +:+ f
  | None => ""
  end.
End NameVocabulary.

(** * Concrete registries *)
Module Examples.
Import Gitversions.

(** A library app: [Book] declares a natural-key dependency on [Author] and
    points to it, and to [Publisher] of another app, by foreign keys. *)
Definition Author := mkModel "library" "Author".
Definition Book := mkModel "library" "Book".
Definition Publisher := mkModel "trade" "Publisher".

Definition library_meta (model : Model) : ModelMeta :=
  if decide (model = Author) then
    mkMeta (Some (mkNaturalKey "Author.natural_key" None)) [mkField None] []
  else if decide (model = Book) then
    mkMeta (Some (mkNaturalKey "Book.natural_key" (Some ["library.Author"])))
           [mkField None; mkField (Some Author); mkField (Some Publisher)] []
  else mkMeta (Some (mkNaturalKey "Publisher.natural_key" None)) [mkField None] [].

Definition library_lookup (dep : string) : option Model :=
  if decide (dep = "library.Author") then Some Author
  else if decide (dep = "library.Book") then Some Book
  else if decide (dep = "trade.Publisher") then Some Publisher
  else None.

Definition library := mkApp "library" true [Book; Author].

Definition library_apps : Apps :=
  mkApps library_meta
         (fun app_label model_name => library_lookup (app_label +:+ "." +:+ model_name))
         (fun name => if decide (name = "library") then Some library else None)
         [library]
         (fun app_config name => library_lookup (label app_config +:+ "." +:+ name)).

(** Two models that declare each other. *)
Definition A := mkModel "app" "A".
Definition B := mkModel "app" "B".

Definition cycle_lookup (dep : string) : option Model :=
  if decide (dep = "app.A") then Some A
  else if decide (dep = "app.B") then Some B
  else None.

Definition cycle_app := mkApp "app" true [A; B].

Definition cycle_apps : Apps :=
  mkApps (fun model =>
            if decide (model = A) then
              mkMeta (Some (mkNaturalKey "A.natural_key" (Some ["app.B"]))) [] []
            else mkMeta (Some (mkNaturalKey "B.natural_key" (Some ["app.A"]))) [] [])
         (fun app_label model_name => cycle_lookup (app_label +:+ "." +:+ model_name))
         (fun name => if decide (name = "app") then Some cycle_app else None)
         [cycle_app]
         (fun app_config name => cycle_lookup (label app_config +:+ "." +:+ name)).


(** Two models that inherit one [natural_key], whose [dependencies]
    attribute is there and empty; [Child] has a foreign key to [Parent]. *)
Definition Parent := mkModel "family" "Parent".
Definition Child := mkModel "family" "Child".

Definition inherited_key := mkNaturalKey "Person.natural_key" (Some []).

Definition family := mkApp "family" true [Parent; Child].

Definition family_apps : Apps :=
  mkApps (fun model =>
            if decide (model = Child)
            then mkMeta (Some inherited_key) [mkField (Some Parent)] []
            else mkMeta (Some inherited_key) [] [])
         (fun app_label model_name =>
            if decide (app_label = "family") then
              if decide (model_name = "Parent") then Some Parent
              else if decide (model_name = "Child") then Some Child else None
            else None)
         (fun name => if decide (name = "family") then Some family else None)
         [family]
         (fun app_config name =>
            if decide (name = "Parent") then Some Parent
            else if decide (name = "Child") then Some Child else None).

(** The library app beside the trade app of [Publisher]. *)
Definition trade := mkApp "trade" true [Publisher].

Definition shop_apps : Apps :=
  mkApps library_meta
         (fun app_label model_name => library_lookup (app_label +:+ "." +:+ model_name))
         (fun name => if decide (name = "library") then Some library
                      else if decide (name = "trade") then Some trade else None)
         [library; trade]
         (fun app_config name => library_lookup (label app_config +:+ "." +:+ name)).

(** A dump of the library app. *)
Definition dump_env : DumpEnv :=
  mkDumpEnv ["xml"; "json"; "yaml"] (fun _ _ _ _ => 2) "2015-06-01 12:00:00".

Definition dump_options (format : string) (pks : option string) : Options :=
  mkOptions format 4 false false "default" [] true true true false pks.

Definition empty_dump : DumpWorld := mkDumpWorld [] [] [].

End Examples.

(** * Concrete stores *)
Module RestoreExamples.
Import Gitrestore.

Definition author1 := mkObject Examples.Author (PkInt 1) "name=Ann".
Definition book7 := mkObject Examples.Book (PkInt 7) "author=1".
Definition publisher3 := mkObject Examples.Publisher (PkInt 3) "name=Orbit".

Definition shelf_fixture (path : string) : FixtureRead :=
  if decide (path = "author.json") then Decoded [author1]
  else if decide (path = "book.json") then Decoded [book7]
  else if decide (path = "publisher.json") then Decoded [publisher3]
  else OpenFails ("No such file or directory: " +:+ path).

(** A store that holds the rows saved so far, refuses a book before its
    author, and to which publishers are not routed. *)
Definition shelf_save (obj : DeserializedObject) (rows : list DeserializedObject)
    : list DeserializedObject * option Exception :=
  if bool_decide (object_class obj = Examples.Book) && bool_decide (author1 ∉ rows)
  then (rows, Some (mkExc IntegrityError "FOREIGN KEY constraint failed"))
  else (rows ++ [obj], None).

Definition shelf_env (fixtures : list string) : Env (list DeserializedObject) :=
  mkEnv (fun _ model => bool_decide (model <> Examples.Publisher))
        (fun _ => shelf_save)
        (fun _ rows => (rows, inl true))
        (fun _ rows => (rows, None))
        (fun _ _ path _ => shelf_fixture path)
        (fun _ => fixtures)
        (fun _ rows => (rows, None))
        "/srv/backup"
        (fun _ _ => true)
        (fun _ rows => rows).

(** What the fixtures of the shelf hold. *)
Definition shelf_decode (path : string) : list DeserializedObject :=
  match shelf_fixture path with
  | Decoded objects => objects
  | _ => []
  end.

(** A store to which every model is routed and in which saving a book
    raises [e]. *)
Definition raising_env (e : Exception) : Env (list DeserializedObject) :=
  mkEnv (fun _ _ => true)
        (fun _ obj rows =>
           if bool_decide (object_class obj = Examples.Book) then (rows, Some e)
           else (rows ++ [obj], None))
        (fun _ rows => (rows, inl true))
        (fun _ rows => (rows, None))
        (fun _ _ path _ => shelf_fixture path)
        (fun _ => [])
        (fun _ rows => (rows, None))
        "/srv/backup"
        (fun _ _ => true)
        (fun _ rows => rows).

Definition restore_options : Options := mkOptions false "default" None None 1.

Definition fresh {Ext : Type} (x : Ext) : World Ext := mkWorld x true [] [] [] [].

(** The format tables [loaddata] sets up. *)
Definition compression_keys : list (option string) :=
  [None; Some "gz"; Some "zip"; Some "bz2"].

Definition serializer_names : list string := ["xml"; "json"; "yaml"].

(** The empty shelf, with the hook connected. *)
Definition empty_shelf : World (list DeserializedObject) := fresh [].


End RestoreExamples.

(** * Properties of the dependency sort *)

Import Gitversions.

(** ** Sorting by key *)
Section SortedFacts.
Context {A : Type} (key : A -> string).

Lemma insert_by_key_perm (x : A) (l : list A) : insert_by_key key x l ≡ₚ x :: l.
Proof.
  induction l as [|y l IH]; simpl; [done|].
  destruct (String.leb (key x) (key y)); [done|].
  rewrite IH. apply Permutation_swap.
Qed.

Lemma sorted_perm (l : list A) : sorted key l ≡ₚ l.
Proof.
  induction l as [|x l IH]; simpl; [done|].
  by rewrite insert_by_key_perm, IH.
Qed.

Lemma insert_by_key_HdRel (a x : A) (l : list A) :
  key_le key a x -> HdRel (key_le key) a l -> HdRel (key_le key) a (insert_by_key key x l).
Proof.
  intros Hax Hal. destruct l as [|y l]; simpl; [by constructor|].
  destruct (String.leb (key x) (key y)); constructor; [done|].
  by inversion Hal.
Qed.

Lemma insert_by_key_Sorted (x : A) (l : list A) :
  Sorted (key_le key) l -> Sorted (key_le key) (insert_by_key key x l).
Proof.
  induction 1 as [|y l Hl IH Hy]; simpl; [by repeat constructor|].
  destruct (String.leb (key x) (key y)) eqn:Hxy.
  - constructor; [by constructor|]. by constructor.
  - constructor; [done|]. apply insert_by_key_HdRel; [|done].
    unfold key_le. destruct (String.leb_total (key x) (key y)); congruence.
Qed.

Lemma sorted_Sorted (l : list A) : Sorted (key_le key) (sorted key l).
Proof.
  induction l as [|x l IH]; simpl; [constructor|].
  by apply insert_by_key_Sorted.
Qed.

Lemma insert_by_key_fmap {B : Type} (key' : B -> string) (f : A -> B) x l :
  (forall a, key' (f a) = key a) ->
  insert_by_key key' (f x) (f <$> l) = f <$> insert_by_key key x l.
Proof.
  intros Hk. induction l as [|y l IH]; simpl; [done|].
  rewrite !Hk. destruct (String.leb (key x) (key y)); simpl; [done|].
  f_equal. apply IH.
Qed.

Lemma sorted_fmap {B : Type} (key' : B -> string) (f : A -> B) l :
  (forall a, key' (f a) = key a) ->
  sorted key' (f <$> l) = f <$> sorted key l.
Proof.
  intros Hk. induction l as [|x l IH]; [done|].
  change (insert_by_key key' (f x) (sorted key' (f <$> l)) =
          f <$> insert_by_key key x (sorted key l)).
  rewrite IH. by apply insert_by_key_fmap.
Qed.
End SortedFacts.

(** ** One scan pass *)
Section ScanFacts.
Context (models : gset Model).

Lemma dependency_met_true ml d :
  dependency_met models ml d = true <-> (d ∈ models -> d ∈ ml).
Proof.
  unfold dependency_met. rewrite orb_true_iff, !bool_decide_eq_true.
  destruct (decide (d ∈ models)); tauto.
Qed.

Lemma all_met_true ml deps :
  forallb (dependency_met models ml) deps = true <->
  forall d, d ∈ deps -> d ∈ models -> d ∈ ml.
Proof.
  rewrite forallb_forall. setoid_rewrite dependency_met_true.
  setoid_rewrite <- list_elem_of_In. naive_solver.
Qed.

Lemma all_met_false ml deps :
  forallb (dependency_met models ml) deps = false ->
  exists d, d ∈ deps /\ d ∈ models /\ d ∉ ml.
Proof.
  induction deps as [|d deps IH]; simpl; [done|].
  destruct (dependency_met models ml d) eqn:Hd; simpl.
  - intros (d' & ? & ?)%IH. exists d'. split; [by right|done].
  - intros _. exists d. split; [by left|].
    apply not_true_iff_false in Hd. rewrite dependency_met_true in Hd.
    destruct (decide (d ∈ models)); [|naive_solver].
    split; [done|]. naive_solver.
Qed.

(** What a pass does to its accumulators. *)
Lemma scan_inv pops : forall ml sk ch ml' sk' ch',
  scan models pops ml sk ch = (ml', sk', ch') ->
  exists promoted kept,
    ml' = ml ++ promoted /\ sk' = sk ++ kept /\
    promoted ++ kept.*1 ≡ₚ pops.*1 /\
    (forall e, e ∈ kept -> e ∈ pops) /\
    ch' = ch || bool_decide (promoted <> []).
Proof.
  induction pops as [|[model deps] pops IH]; intros ml sk ch ml' sk' ch'; simpl.
  - intros [= <- <- <-]. exists [], []. rewrite !app_nil_r.
    repeat split; [done| |by destruct ch]. intros e He. by apply elem_of_nil in He.
  - destruct (forallb _ deps).
    + intros (promoted & kept & -> & -> & Hp & Hk & ->)%IH.
      exists (model :: promoted), kept. rewrite <- app_assoc. simpl.
      repeat split; [by rewrite Hp| |].
      * intros e He. right. by apply Hk.
      * by rewrite orb_true_r.
    + intros (promoted & kept & -> & -> & Hp & Hk & ->)%IH.
      exists promoted, ((model, deps) :: kept). rewrite <- app_assoc. simpl.
      repeat split.
      * rewrite <- Hp. symmetry. apply Permutation_middle.
      * intros e [->|He]%elem_of_cons; [by left|]. right. by apply Hk.
Qed.

Lemma scan_changed_mono pops ml sk ml' sk' ch' :
  scan models pops ml sk true = (ml', sk', ch') -> ch' = true.
Proof. by intros (? & ? & _ & _ & _ & _ & ->)%scan_inv. Qed.

(** A pass that promotes nothing leaves the list as it was and skips every
    entry, each for a selected dependency that is not yet listed. *)
Lemma scan_unchanged pops : forall ml sk ml' sk',
  scan models pops ml sk false = (ml', sk', false) ->
  ml' = ml /\ sk' = sk ++ pops /\
  Forall (fun e : Entry => forallb (dependency_met models ml) e.2 = false) pops.
Proof.
  induction pops as [|[model deps] pops IH]; intros ml sk ml' sk'; simpl.
  - intros [= <- <-]. by rewrite app_nil_r.
  - destruct (forallb _ deps) eqn:Hmet.
    + by intros ?%scan_changed_mono.
    + intros (-> & -> & ?)%IH. rewrite <- app_assoc. by repeat constructor.
Qed.

Lemma scan_none_met pops : forall ml sk ch,
  Forall (fun e : Entry => forallb (dependency_met models ml) e.2 = false) pops ->
  scan models pops ml sk ch = (ml, sk ++ pops, ch).
Proof.
  induction pops as [|[model deps] pops IH]; intros ml sk ch Hall; simpl.
  - by rewrite app_nil_r.
  - inversion Hall as [|? ? Hmet Hrest]; subst. simpl in Hmet. rewrite Hmet.
    rewrite IH by done. by rewrite <- app_assoc.
Qed.

(** Selected dependencies stay in front. *)
Inductive DepsFirst (md : list Entry) : list Model -> Prop :=
| DepsFirst_nil : DepsFirst md []
| DepsFirst_snoc ml m deps :
    DepsFirst md ml -> (m, deps) ∈ md ->
    (forall d, d ∈ deps -> d ∈ models -> d ∈ ml) ->
    DepsFirst md (ml ++ [m]).

Lemma DepsFirst_precede md ml : DepsFirst md ml -> deps_precede models md ml.
Proof.
  induction 1 as [|ml m deps _ IH Hin Hdeps]; intros l1 x l2 Heq.
  - by destruct l1.
  - destruct l2 as [|y l2 _] using rev_ind.
    + apply app_inj_tail in Heq as [-> ->]. by exists deps.
    + rewrite app_comm_cons, app_assoc in Heq.
      apply app_inj_tail in Heq as [-> ->]. by apply (IH l1 x l2).
Qed.

Lemma scan_DepsFirst md pops : forall ml sk ch ml' sk' ch',
  scan models pops ml sk ch = (ml', sk', ch') ->
  (forall e, e ∈ pops -> e ∈ md) ->
  DepsFirst md ml -> DepsFirst md ml'.
Proof.
  induction pops as [|[model deps] pops IH]; intros ml sk ch ml' sk' ch'; simpl.
  - by intros [= <- <- <-].
  - intros Hscan Hsub Hml. destruct (forallb _ deps) eqn:Hmet.
    + eapply IH; [done| |].
      * intros e He. apply Hsub. by right.
      * eapply DepsFirst_snoc; [done| |by apply all_met_true].
        apply Hsub. by left.
    + eapply IH; [done| |done]. intros e He. apply Hsub. by right.
Qed.
End ScanFacts.

(** ** The outer loop *)
Section SortLoopFacts.
Context (models : gset Model).

Lemma full_pass_shrinks md ml ml' sk :
  full_pass models md ml = (ml', sk, true) -> length sk < length md.
Proof.
  intros (promoted & kept & _ & -> & Hp & _ & Hch)%scan_inv.
  apply Permutation_length in Hp.
  rewrite length_app, !length_fmap, length_reverse in Hp. simpl in *.
  symmetry in Hch. apply bool_decide_eq_true in Hch.
  destruct promoted; [done|]. simpl in Hp. lia.
Qed.

Lemma full_pass_stuck md ml ml' sk :
  full_pass models md ml = (ml', sk, false) ->
  ml' = ml /\ sk = reverse md /\
  Forall (fun e : Entry => forallb (dependency_met models ml) e.2 = false) md.
Proof.
  intros (-> & -> & Hall)%scan_unchanged. repeat split; try done.
  apply Forall_forall. intros e He. rewrite Forall_forall in Hall.
  apply Hall. by apply elem_of_reverse.
Qed.

(** What the loop returns, read off the states it goes through. *)
Lemma sort_loop_Passes fuel : forall md ml,
  length md <= fuel ->
  match sort_loop fuel models md ml with
  | Return r => Passes models md ml [] r
  | Raise e => exists md' ml',
      Passes models md ml md' ml' /\ md' <> [] /\
      promotes_none models md' ml' /\
      e = mkExc CommandError (unresolved_message (reverse md'))
  | OutOfFuel => False
  end.
Proof.
  induction fuel as [|fuel IH]; intros md ml Hlen.
  - destruct md; simpl in *; [constructor|lia].
  - destruct md as [|e md]; [constructor|].
    set (md0 := e :: md) in *.
    change (sort_loop (S fuel) models md0 ml) with
      (let '(ml', skipped, changed) := full_pass models md0 ml in
       if changed then sort_loop fuel models skipped ml'
       else Raise (mkExc CommandError (unresolved_message skipped))).
    destruct (full_pass models md0 ml) as [[ml' sk] ch] eqn:Hpass.
    destruct ch.
    + pose proof (full_pass_shrinks _ _ _ _ Hpass) as Hlt.
      specialize (IH sk ml' ltac:(lia)).
      destruct (sort_loop fuel models sk ml') as [r|ex|]; [| |done].
      * eapply Passes_step; [done|done|done].
      * destruct IH as (md' & ml'' & ? & ? & ? & ?). exists md', ml''.
        split; [|done]. eapply Passes_step; [done|done|done].
    + exists md0, ml. split; [constructor|]. split; [done|].
      split; [unfold promotes_none; by rewrite Hpass|].
      by apply full_pass_stuck in Hpass as (_ & -> & _).
Qed.

Lemma Passes_sort_loop md ml md' ml' :
  Passes models md ml md' ml' ->
  forall fuel, length md <= fuel ->
  exists fuel', length md' <= fuel' /\
    sort_loop fuel models md ml = sort_loop fuel' models md' ml'.
Proof.
  induction 1 as [md ml|md ml ml1 sk md' ml' Hne Hpass _ IH]; intros fuel Hlen.
  - by exists fuel.
  - pose proof (full_pass_shrinks _ _ _ _ Hpass) as Hlt.
    destruct fuel as [|fuel]; [lia|].
    destruct (IH fuel ltac:(lia)) as (fuel' & ? & Heq). exists fuel'.
    split; [done|]. rewrite <- Heq. destruct md; [done|].
    simpl. unfold full_pass in Hpass. simpl in Hpass. by rewrite Hpass.
Qed.

Lemma Passes_stuck_Raise md ml md' ml' fuel :
  Passes models md ml md' ml' -> md' <> [] -> promotes_none models md' ml' ->
  length md <= fuel ->
  sort_loop fuel models md ml =
    Raise (mkExc CommandError (unresolved_message (reverse md'))).
Proof.
  intros HP Hne Hnone Hlen.
  destruct (Passes_sort_loop _ _ _ _ HP fuel Hlen) as (fuel' & Hlen' & ->).
  destruct md' as [|e md']; [done|]. destruct fuel' as [|fuel']; [simpl in *; lia|].
  unfold promotes_none in Hnone.
  destruct (full_pass models (e :: md') ml') as [[ml1 sk] ch] eqn:Hpass.
  simpl in Hnone. subst ch.
  pose proof Hpass as (_ & -> & _)%full_pass_stuck.
  unfold full_pass in Hpass. simpl in *. by rewrite Hpass.
Qed.

(** Invariants of the loop. *)
Lemma Passes_perm md ml md' ml' :
  Passes models md ml md' ml' -> ml' ++ md'.*1 ≡ₚ ml ++ md.*1.
Proof.
  induction 1 as [|md ml ml1 sk md' ml' _ Hpass _ IH]; [done|].
  rewrite IH. apply scan_inv in Hpass as (promoted & kept & -> & -> & Hp & _).
  simpl. rewrite <- app_assoc, Hp, fmap_reverse. by rewrite reverse_Permutation.
Qed.

Lemma Passes_sub md ml md' ml' :
  Passes models md ml md' ml' -> forall e, e ∈ md' -> e ∈ md.
Proof.
  induction 1 as [|md ml ml1 sk md' ml' _ Hpass _ IH]; [done|].
  intros e He%IH. apply scan_inv in Hpass as (promoted & kept & _ & -> & _ & Hk & _).
  simpl in He. apply Hk in He. by rewrite elem_of_reverse in He.
Qed.

Lemma Passes_DepsFirst md0 md ml md' ml' :
  Passes models md ml md' ml' ->
  (forall e, e ∈ md -> e ∈ md0) ->
  DepsFirst models md0 ml -> DepsFirst models md0 ml'.
Proof.
  induction 1 as [|md ml ml1 sk md' ml' _ Hpass HP IH]; [done|].
  intros Hsub Hml. apply IH.
  - intros e He. apply Hsub. eapply Passes_sub; [|done].
    eapply Passes_step with (ml'' := ml1); [|done|constructor].
    destruct md; [|done]. apply scan_inv in Hpass as (? & kept & _ & -> & _ & Hk & _).
    simpl in He. apply Hk in He. by apply elem_of_nil in He.
  - eapply scan_DepsFirst; [done| |done].
    intros e He. apply Hsub. by rewrite elem_of_reverse in He.
Qed.
End SortLoopFacts.

(** ** A finite set in which every node has a successor holds a cycle *)
Section Cycle.
Context {A : Type} `{EqDecision A} (R : relation A) (nodes : list A).

Inductive Walk : A -> list A -> Prop :=
| Walk_nil x : Walk x []
| Walk_cons x y w : R x y -> y ∈ nodes -> Walk y w -> Walk x (y :: w).

Lemma Walk_exists :
  (forall x, x ∈ nodes -> exists y, R x y /\ y ∈ nodes) ->
  forall n x, x ∈ nodes -> exists w, length w = n /\ Walk x w.
Proof.
  intros Hsucc. induction n as [|n IH]; intros x Hx.
  - exists []. split; [done|constructor].
  - destruct (Hsucc x Hx) as (y & Hxy & Hy).
    destruct (IH y Hy) as (w & <- & Hw).
    exists (y :: w). split; [done|]. by constructor.
Qed.

Lemma Walk_nodes x w : Walk x w -> forall y, y ∈ w -> y ∈ nodes.
Proof.
  induction 1 as [|x y w _ Hy _ IH]; intros z Hz.
  - by apply elem_of_nil in Hz.
  - apply elem_of_cons in Hz as [->|Hz]; [done|]. by apply IH.
Qed.

Lemma Walk_tc x w : Walk x w -> forall y, y ∈ w -> tc R x y.
Proof.
  induction 1 as [|x y w Hxy _ _ IH]; intros z Hz.
  - by apply elem_of_nil in Hz.
  - apply elem_of_cons in Hz as [->|Hz]; [by apply tc_once|].
    eapply tc_l; [done|]. by apply IH.
Qed.

Lemma Walk_suffix x w : Walk x w ->
  forall l1 y l2, x :: w = l1 ++ y :: l2 -> Walk y l2.
Proof.
  induction 1 as [x|x y w Hxy Hy Hw IH]; intros l1 z l2 Heq.
  - destruct l1 as [|? [|? ?]]; simplify_eq/=. constructor.
  - destruct l1 as [|a l1]; simplify_eq/=; [by constructor|].
    by eapply IH.
Qed.

Lemma repeated_element (l : list A) :
  ~ NoDup l -> exists x l1 l2 l3, l = l1 ++ x :: l2 ++ x :: l3.
Proof.
  induction l as [|a l IH]; intros Hnd.
  - destruct Hnd. constructor.
  - destruct (decide (a ∈ l)) as [Hin|Hnin].
    + apply list_elem_of_split in Hin as (l2 & l3 & ->).
      by exists a, [], l2, l3.
    + destruct IH as (x & l1 & l2 & l3 & ->).
      { intros ?. apply Hnd. by constructor. }
      by exists x, (a :: l1), l2, l3.
Qed.

Lemma no_sink_cycle :
  nodes <> [] ->
  (forall x, x ∈ nodes -> exists y, R x y /\ y ∈ nodes) ->
  exists x, tc R x x.
Proof.
  intros Hne Hsucc. destruct nodes as [|x0 rest] eqn:Hnodes; [done|].
  rewrite <- Hnodes in *. assert (x0 ∈ nodes) as Hx0 by (rewrite Hnodes; by left).
  destruct (Walk_exists Hsucc (length nodes) x0 Hx0) as (w & Hlen & Hw).
  assert (~ NoDup (x0 :: w)) as Hdup.
  { intros Hnd. apply (NoDup_submseteq _ nodes) in Hnd.
    - apply submseteq_length in Hnd. simpl in Hnd. lia.
    - intros y [->|Hy]%elem_of_cons; [done|]. by eapply Walk_nodes. }
  apply repeated_element in Hdup as (x & l1 & l2 & l3 & Heq).
  exists x. eapply Walk_tc.
  - eapply Walk_suffix; [exact Hw|exact Heq].
  - apply elem_of_app. right. by left.
Qed.
End Cycle.

(** ** The sort from the collected entries on *)
Section ResolveFacts.
Context (models : gset Model) (md : list Entry).

Lemma resolve_total : resolve models md <> OutOfFuel.
Proof.
  unfold resolve. pose proof (sort_loop_Passes models (length md) (reverse md) []) as H.
  rewrite length_reverse in H. specialize (H ltac:(lia)).
  by destruct (sort_loop _ _ _ _).
Qed.

Lemma resolve_Return r :
  resolve models md = Return r ->
  r ≡ₚ md.*1 /\ deps_precede models md r.
Proof.
  unfold resolve. intros Hr.
  pose proof (sort_loop_Passes models (length md) (reverse md) []) as H.
  rewrite length_reverse, Hr in H. specialize (H ltac:(lia)). split.
  - apply Passes_perm in H. rewrite app_nil_r in H. simpl in H.
    by rewrite H, fmap_reverse, reverse_Permutation.
  - apply DepsFirst_precede. eapply Passes_DepsFirst; [done| |constructor].
    intros e He. by rewrite elem_of_reverse in He.
Qed.

Lemma resolve_acyclic :
  (forall d, d ∈ models -> d ∈ md.*1) ->
  (forall m, ~ tc (waits_for models md) m m) ->
  exists r, resolve models md = Return r.
Proof.
  intros Hmodels Hacyc. destruct (resolve models md) as [r|e|] eqn:Hres.
  - by exists r.
  - exfalso. unfold resolve in Hres.
    pose proof (sort_loop_Passes models (length md) (reverse md) []) as H.
    rewrite length_reverse, Hres in H.
    destruct (H ltac:(lia)) as (md' & ml' & HP & Hne & Hnone & _).
    unfold promotes_none in Hnone.
    destruct (full_pass models md' ml') as [[ml1 sk] ch] eqn:Hpass.
    simpl in Hnone. subst ch. apply full_pass_stuck in Hpass as (_ & _ & Hall).
    pose proof (Passes_perm _ _ _ _ _ HP) as Hperm.
    pose proof (Passes_sub _ _ _ _ _ HP) as Hsub.
    destruct (no_sink_cycle (waits_for models md) (md'.*1)) as (x & Hx).
    + by destruct md'.
    + intros m (en & -> & He)%list_elem_of_fmap.
      rewrite Forall_forall in Hall.
      destruct (all_met_false _ _ _ (Hall en He)) as (d & Hd & Hdm & Hdl).
      exists d. split.
      * exists en.2. split; [|done]. apply elem_of_reverse.
        rewrite <- surjective_pairing. by apply Hsub.
      * assert (d ∈ ml' ++ md'.*1) as Hin.
        { rewrite Hperm. simpl. rewrite fmap_reverse, elem_of_reverse.
          by apply Hmodels. }
        apply elem_of_app in Hin as [?|?]; done.
    + by apply (Hacyc x).
  - by apply resolve_total in Hres.
Qed.
End ResolveFacts.

(** ** Dependencies outside the selection do not count *)
Section InternalOnly.
Context (models : gset Model).

Lemma all_met_filter ml deps :
  forallb (dependency_met models ml) (filter (fun d => d ∈ models) deps) =
  forallb (dependency_met models ml) deps.
Proof.
  induction deps as [|d deps IH]; [done|].
  rewrite filter_cons. destruct (decide (d ∈ models)) as [Hd|Hd]; simpl.
  - by rewrite IH.
  - rewrite IH. unfold dependency_met at 2. by rewrite (bool_decide_true (d ∉ models)).
Qed.

Lemma scan_internal_only pops : forall ml sk ch,
  scan models (internal_only models pops) ml (internal_only models sk) ch =
  let '(ml', sk', ch') := scan models pops ml sk ch in
  (ml', internal_only models sk', ch').
Proof.
  induction pops as [|[model deps] pops IH]; intros ml sk ch; [done|].
  simpl. rewrite all_met_filter. destruct (forallb _ deps).
  - apply IH.
  - specialize (IH ml (sk ++ [(model, deps)]) ch).
    unfold internal_only in *. by rewrite fmap_app in IH.
Qed.

Lemma unresolved_message_internal_only sk :
  unresolved_message (internal_only models sk) = unresolved_message sk.
Proof.
  unfold unresolved_message, internal_only. do 3 f_equal.
  rewrite (sorted_fmap (fun obj : Entry => object_name obj.1)); [|by intros []].
  rewrite <- list_fmap_compose. apply list_fmap_ext. by intros _ [] _.
Qed.

Lemma sort_loop_internal_only fuel : forall md ml,
  sort_loop fuel models (internal_only models md) ml = sort_loop fuel models md ml.
Proof.
  induction fuel as [|fuel IH]; intros [|e md] ml; try done.
  set (md0 := e :: md).
  change (sort_loop (S fuel) models md0 ml) with
    (let '(ml', skipped, changed) := scan models (reverse md0) ml [] false in
     if changed then sort_loop fuel models skipped ml'
     else Raise (mkExc CommandError (unresolved_message skipped))).
  change (sort_loop (S fuel) models (internal_only models md0) ml) with
    (let '(ml', skipped, changed) :=
       scan models (reverse (internal_only models md0)) ml (internal_only models []) false in
     if changed then sort_loop fuel models skipped ml'
     else Raise (mkExc CommandError (unresolved_message skipped))).
  replace (reverse (internal_only models md0))
    with (internal_only models (reverse md0))
    by (unfold internal_only; by rewrite fmap_reverse).
  rewrite scan_internal_only.
  destruct (scan models (reverse md0) ml [] false) as [[ml' sk] [|]].
  - apply IH.
  - by rewrite unresolved_message_internal_only.
Qed.

Lemma resolve_internal_only md :
  resolve models (internal_only models md) = resolve models md.
Proof.
  unfold resolve.
  replace (reverse (internal_only models md))
    with (internal_only models (reverse md))
    by (unfold internal_only; by rewrite fmap_reverse).
  unfold internal_only at 1. rewrite length_fmap. apply sort_loop_internal_only.
Qed.
End InternalOnly.


(** ** Collecting the dependencies *)
Section CollectFacts.
Context (apps : Apps).

Lemma get_model_Raise dep e :
  get_model apps dep = Raise e ->
  exc_class e = LookupError \/ exc_class e = ValueError.
Proof.
  unfold get_model. intros Hrun.
  repeat (case_match; simplify_eq/=); auto.
Qed.

Lemma get_model_fuel dep : get_model apps dep <> OutOfFuel.
Proof. unfold get_model. by repeat case_match. Qed.

Lemma get_models_of_elem deps : forall ms,
  get_models_of apps deps = Return ms ->
  forall d, d ∈ ms <-> exists dep, dep ∈ deps /\ get_model apps dep = Return d.
Proof.
  induction deps as [|dep deps IH]; intros ms; simpl.
  - intros [= <-] d. split; [by intros ?%elem_of_nil|].
    by intros (? & ?%elem_of_nil & _).
  - destruct (get_model apps dep) as [m| |] eqn:Hm; [|done|done]. simpl.
    destruct (get_models_of apps deps) as [ms'| |]; try done. simpl.
    intros [= <-] d. rewrite elem_of_cons, (IH ms' eq_refl). split.
    + intros [->|(dep' & ? & ?)]; [exists dep|exists dep']; split; try done;
        [by left|by right].
    + intros (dep' & [->|?]%elem_of_cons & ?); [left; congruence|right; by exists dep'].
Qed.

Lemma get_models_of_Raise deps e :
  get_models_of apps deps = Raise e ->
  exists dep, dep ∈ deps /\ get_model apps dep = Raise e.
Proof.
  induction deps as [|dep deps IH]; simpl; [done|].
  destruct (get_model apps dep) as [m|e'|] eqn:Hm; simpl.
  - destruct (get_models_of apps deps) as [ms|e'|]; simpl; [done| |done].
    intros [= <-]. destruct IH as (dep' & ? & ?); [done|].
    exists dep'. split; [by right|done].
  - intros [= <-]. exists dep. split; [by left|done].
  - done.
Qed.

Lemma get_models_of_fuel deps : get_models_of apps deps <> OutOfFuel.
Proof.
  induction deps as [|dep deps IH]; simpl; [done|].
  pose proof (get_model_fuel dep).
  destruct (get_model apps dep); [|done|done]. simpl.
  by destruct (get_models_of apps deps).
Qed.

Lemma get_models_of_defined deps :
  (exists ms, get_models_of apps deps = Return ms) <->
  (forall dep, dep ∈ deps -> exists d, get_model apps dep = Return d).
Proof.
  induction deps as [|dep deps IH]; simpl.
  - split; [by intros _ ? ?%elem_of_nil|by eexists].
  - split.
    + intros (ms & Hrun) dep' Hin.
      destruct (get_model apps dep) as [m| |] eqn:Hm; [|done|done]. simpl in Hrun.
      destruct (get_models_of apps deps) as [ms'| |]; [|done|done].
      apply elem_of_cons in Hin as [->|Hin]; [by eexists|].
      apply IH; [by eexists|done].
    + intros Hall. destruct (Hall dep) as (m & ->); [by left|]. simpl.
      destruct (proj2 IH) as (ms & ->); [|by eexists].
      intros dep' Hin. apply Hall. by right.
Qed.




(** *** One turn of the loop *)

Lemma shared_list_Some model nk :
  shared_list apps model = Some nk <->
  natural_key (meta apps model) = Some nk /\ dependencies nk = Some [].
Proof.
  unfold shared_list. destruct (natural_key (meta apps model)) as [nk'|].
  - case_bool_decide; naive_solver.
  - naive_solver.
Qed.

Lemma shared_list_declared model nk :
  shared_list apps model = Some nk -> declared_labels apps model = [].
Proof.
  intros [Hnk Hdeps]%shared_list_Some. unfold declared_labels. by rewrite Hnk, Hdeps.
Qed.

Lemma shares_list_shared m m' :
  shares_list apps m m' -> is_Some (shared_list apps m').
Proof. intros (nk & _ & ->). by eexists. Qed.

(** The turn of a model that is handed a list of its own. *)
Lemma collect_model_own model models md :
  shared_list apps model = None ->
  collect_model apps model models md =
  result_bind (get_models_of apps (declared_labels apps model)) (fun ms =>
    Return ({[model]} ∪ models, md ++ [(model, ms ++ relation_deps apps model)])).
Proof.
  unfold shared_list, collect_model, declared_labels.
  destruct (natural_key (meta apps model)) as [nk|]; [|done].
  case_bool_decide as Hempty; [done|]. intros _.
  destruct (dependencies nk) as [[|dep deps]|]; done.
Qed.

(** The turn of a model that is handed the attribute list. *)
Lemma collect_model_shared model nk models md :
  shared_list apps model = Some nk ->
  collect_model apps model models md =
  match list_content apps md nk with
  | [] =>
      Return ({[model]} ∪ models,
              append_shared apps nk (relation_deps apps model) md
              ++ [(model, relation_deps apps model)])
  | rel_model :: _ =>
      Raise (mkExc AttributeError
               ("type object '" +:+ object_name rel_model +:+
                "' has no attribute 'split'"))
  end.
Proof.
  intros [Hnk Hdeps]%shared_list_Some. unfold collect_model. by rewrite Hnk, Hdeps.
Qed.

Lemma append_shared_fst nk appended (md : list Entry) :
  (append_shared apps nk appended md).*1 = md.*1.
Proof.
  unfold append_shared. rewrite <- list_fmap_compose. apply list_fmap_ext.
  intros _ entry _. simpl. by case_bool_decide.
Qed.

Lemma collect_model_Return model models md models' md' :
  collect_model apps model models md = Return (models', md') ->
  models' = {[model]} ∪ models /\ md'.*1 = md.*1 ++ [model].
Proof.
  destruct (shared_list apps model) as [nk|] eqn:Hshared.
  - rewrite (collect_model_shared _ nk) by done.
    destruct (list_content apps md nk); [|done]. intros [= <- <-].
    by rewrite fmap_app, append_shared_fst.
  - rewrite collect_model_own by done.
    destruct (get_models_of apps _); [|done|done]. simpl. intros [= <- <-].
    by rewrite fmap_app.
Qed.

Lemma collect_model_Raise model models md e :
  collect_model apps model models md = Raise e ->
  exc_class e = LookupError \/ exc_class e = ValueError \/ exc_class e = AttributeError.
Proof.
  destruct (shared_list apps model) as [nk|] eqn:Hshared.
  - rewrite (collect_model_shared _ nk) by done.
    destruct (list_content apps md nk); [done|]. intros [= <-]. auto.
  - rewrite collect_model_own by done.
    destruct (get_models_of apps _) eqn:Hg; [done| |done]. simpl. intros [= <-].
    apply get_models_of_Raise in Hg as (dep & _ & Hg).
    apply get_model_Raise in Hg. tauto.
Qed.

Lemma collect_model_fuel model models md :
  collect_model apps model models md <> OutOfFuel.
Proof.
  destruct (shared_list apps model) as [nk|] eqn:Hshared.
  - rewrite (collect_model_shared _ nk) by done.
    by destruct (list_content apps md nk).
  - rewrite collect_model_own by done.
    pose proof (get_models_of_fuel (declared_labels apps model)).
    by destruct (get_models_of apps _).
Qed.

(** *** The two loops *)

Lemma collect_models_app l1 l2 models md :
  collect_models apps (l1 ++ l2) models md =
  result_bind (collect_models apps l1 models md)
    (fun '(models', md') => collect_models apps l2 models' md').
Proof.
  revert models md. induction l1 as [|m l1 IH]; intros models md; simpl; [done|].
  destruct (collect_model apps m models md) as [[models1 md1]| |]; simpl; [|done|done].
  apply IH.
Qed.

(** The nested loops read the selected models one after the other. *)
Lemma collect_apps_flat app_list : forall models md,
  collect_apps apps app_list models md =
  collect_models apps (input_models app_list) models md.
Proof.
  induction app_list as [|[app_config model_list] app_list IH];
    intros models md; simpl; [done|].
  rewrite collect_models_app.
  destruct (collect_models apps _ models md) as [[models1 md1]| |]; simpl; [|done|done].
  apply IH.
Qed.

Lemma collect_models_inv ml : forall models md models' md',
  collect_models apps ml models md = Return (models', md') ->
  md'.*1 = md.*1 ++ ml /\ models' = list_to_set ml ∪ models.
Proof.
  induction ml as [|model ml IH]; intros models md models' md'; simpl.
  - intros [= <- <-]. rewrite app_nil_r. split; [done|set_solver].
  - destruct (collect_model apps model models md) as [[models1 md1]| |] eqn:Hm;
      [|done|done]. simpl.
    apply collect_model_Return in Hm as [-> Hfst].
    intros [-> ->]%IH. rewrite Hfst, <- app_assoc. split; [done|set_solver].
Qed.

Lemma collect_apps_inv app_list models md models' md' :
  collect_apps apps app_list models md = Return (models', md') ->
  md'.*1 = md.*1 ++ input_models app_list /\
  models' = list_to_set (input_models app_list) ∪ models.
Proof. rewrite collect_apps_flat. apply collect_models_inv. Qed.

(** The set of models follows from the lists. *)
Lemma collect_apps_lists app_list md :
  match collect_apps apps app_list ∅ [] with
  | Return (_, md') => Some md'
  | _ => None
  end = Some md ->
  collect_apps apps app_list ∅ [] = Return (list_to_set (input_models app_list), md).
Proof.
  destruct (collect_apps apps app_list ∅ []) as [[models md']| |] eqn:Hrun;
    [|done|done].
  intros [= ->]. apply collect_apps_inv in Hrun as [_ ->].
  by rewrite (right_id_L ∅ (∪)).
Qed.

Lemma collect_models_Raise ml : forall models md e,
  collect_models apps ml models md = Raise e ->
  exc_class e = LookupError \/ exc_class e = ValueError \/ exc_class e = AttributeError.
Proof.
  induction ml as [|model ml IH]; intros models md e; simpl; [done|].
  destruct (collect_model apps model models md) as [[models1 md1]| |] eqn:Hm; simpl;
    [apply IH| |done].
  intros [= <-]. by eapply collect_model_Raise.
Qed.

Lemma collect_apps_Raise app_list models md e :
  collect_apps apps app_list models md = Raise e ->
  exc_class e = LookupError \/ exc_class e = ValueError \/ exc_class e = AttributeError.
Proof. rewrite collect_apps_flat. apply collect_models_Raise. Qed.

Lemma collect_models_fuel ml : forall models md,
  collect_models apps ml models md <> OutOfFuel.
Proof.
  induction ml as [|model ml IH]; intros models md; simpl; [done|].
  pose proof (collect_model_fuel model models md).
  destruct (collect_model apps model models md) as [[models1 md1]| |]; simpl;
    [apply IH|done|done].
Qed.

Lemma collect_apps_fuel app_list models md :
  collect_apps apps app_list models md <> OutOfFuel.
Proof. rewrite collect_apps_flat. apply collect_models_fuel. Qed.

(** *** What the collected lists hold *)

Lemma list_content_nil md nk :
  one_list apps md -> list_content apps md nk = [] ->
  forall entry, entry ∈ md -> shared_list apps entry.1 = Some nk -> entry.2 = [].
Proof.
  intros Hone Hnil entry Hin Hshared. unfold list_content in Hnil.
  assert (entry ∈ filter (fun entry : Entry => shared_list apps entry.1 = Some nk) md)
    as Hf by (by apply list_elem_of_filter).
  destruct (filter _ md) as [|first rest] eqn:Hfilter; [by apply elem_of_nil in Hf|].
  assert (first ∈ filter (fun entry : Entry => shared_list apps entry.1 = Some nk) md)
    as [Hfs Hfin]%list_elem_of_filter by (rewrite Hfilter; by left).
  by rewrite (Hone entry first nk).
Qed.

Lemma list_content_cons md nk d rest :
  list_content apps md nk = d :: rest ->
  exists entry, entry ∈ md /\ shared_list apps entry.1 = Some nk /\ d ∈ entry.2.
Proof.
  unfold list_content. intros Hcons.
  destruct (filter _ md) as [|first more] eqn:Hfilter; [done|].
  assert (first ∈ filter (fun entry : Entry => shared_list apps entry.1 = Some nk) md)
    as [Hfs Hfin]%list_elem_of_filter by (rewrite Hfilter; by left).
  exists first. rewrite Hcons. repeat split; [done|done|by left].
Qed.

Lemma elem_of_append_shared nk appended md entry :
  entry ∈ append_shared apps nk appended md <->
  exists old, old ∈ md /\
    entry = if bool_decide (shared_list apps old.1 = Some nk)
            then (old.1, old.2 ++ appended) else old.
Proof.
  unfold append_shared. rewrite list_elem_of_fmap. naive_solver.
Qed.

(** Both properties hold of the empty list and each turn keeps them. *)
Lemma collect_model_described model models md models' md' :
  one_list apps md -> lists_described apps md ->
  collect_model apps model models md = Return (models', md') ->
  one_list apps md' /\ lists_described apps md'.
Proof.
  intros Hone Hdesc Hrun.
  pose proof (collect_model_Return _ _ _ _ _ Hrun) as [_ Hfst].
  destruct (shared_list apps model) as [nk|] eqn:Hshared.
  - (* the attribute list *)
    rewrite (collect_model_shared _ nk) in Hrun by done.
    destruct (list_content apps md nk) eqn:Hcontent; [|done].
    injection Hrun as <- <-.
    pose proof (list_content_nil md nk Hone Hcontent) as Hempty.
    assert (forall entry, entry ∈
              append_shared apps nk (relation_deps apps model) md
              ++ [(model, relation_deps apps model)] ->
            (shared_list apps entry.1 = Some nk /\
             entry.2 = relation_deps apps model /\
             (entry.1 = model \/ entry.1 ∈ md.*1)) \/
            (shared_list apps entry.1 <> Some nk /\ entry ∈ md)) as Hcases.
    { intros entry [Hin|Hin]%elem_of_app.
      - apply elem_of_append_shared in Hin as (old & Hold & ->).
        case_bool_decide as Hs.
        + left. simpl. rewrite (Hempty old Hold Hs). split; [done|].
          split; [done|]. right. apply list_elem_of_fmap. by exists old.
        + right. by split.
      - apply list_elem_of_singleton in Hin as ->. left. simpl. auto. }
    assert (forall m0, m0 ∈ md.*1 -> shared_list apps m0 = Some nk ->
              relation_deps apps m0 = []) as Hnone.
    { intros m0 (entry & -> & Hin)%list_elem_of_fmap Hs.
      destruct (relation_deps apps entry.1) as [|d ds] eqn:Hrel; [done|].
      assert (d ∈ entry.2) as Hd.
      { destruct entry as [m0 deps0]. apply (Hdesc m0 deps0 Hin).
        right. exists m0. split; [by left|]. simpl in Hrel. rewrite Hrel. by left. }
      rewrite (Hempty entry Hin Hs) in Hd. by apply elem_of_nil in Hd. }
    split.
    + intros entry entry' nk' Hin Hin' Hs Hs'.
      destruct (Hcases entry Hin) as [(Hs1 & He & _)|(Hne & Hold)],
               (Hcases entry' Hin') as [(Hs1' & He' & _)|(Hne' & Hold')];
        [congruence|congruence|congruence|].
      by apply (Hone entry entry' nk').
    + intros m deps Hin d. rewrite Hfst.
      destruct (Hcases (m, deps) Hin) as [(Hs & Hdeps & Hread)|(Hne & Hold)];
        simpl in *; [subst deps|].
      * split.
        -- intros Hd. right. exists model. split; [|done]. right.
           split; [apply elem_of_app; right; by left|]. by exists nk.
        -- intros [(dep & Hdep & _)|(m' & Hm' & Hd)].
           { rewrite (shared_list_declared m nk Hs) in Hdep.
             by apply elem_of_nil in Hdep. }
           assert (shared_list apps m' = Some nk) as Hs'.
           { destruct Hm' as [->|[_ (nk' & Hs1 & Hs2)]]; [done|congruence]. }
           assert (m' = model \/ m' ∈ md.*1) as [->|Hm'old]; [|done|].
           { destruct Hm' as [->|[[?|?%list_elem_of_singleton]%elem_of_app _]]; auto. }
           rewrite (Hnone m' Hm'old Hs') in Hd. by apply elem_of_nil in Hd.
      * rewrite (Hdesc m deps Hold d). unfold listed.
        split; (intros [?|(m' & Hm' & Hd)]; [by left|right; exists m'; split; [|done]]).
        -- destruct Hm' as [->|[? ?]]; [by left|right].
           split; [apply elem_of_app; by left|done].
        -- destruct Hm' as [->|[[?|Heq%list_elem_of_singleton]%elem_of_app Hsh]];
             [by left|right; by split|subst m'].
           destruct Hsh as (nk' & Hs1 & Hs2). congruence.
  - (* a list of its own *)
    rewrite collect_model_own in Hrun by done.
    destruct (get_models_of apps (declared_labels apps model)) as [ms| |] eqn:Hg;
      [|done|done].
    simpl in Hrun. injection Hrun as <- <-. split.
    + intros entry entry' nk Hin Hin' Hs Hs'.
      apply elem_of_app in Hin as [Hin|Heq%list_elem_of_singleton];
        [|subst entry; simpl in Hs; congruence].
      apply elem_of_app in Hin' as [Hin'|Heq%list_elem_of_singleton];
        [|subst entry'; simpl in Hs'; congruence].
      by apply (Hone entry entry' nk).
    + intros m deps Hin d. rewrite Hfst.
      apply elem_of_app in Hin as [Hin|[= -> ->]%list_elem_of_singleton].
      * rewrite (Hdesc m deps Hin d). unfold listed.
        split; (intros [?|(m' & Hm' & Hd)]; [by left|right; exists m'; split; [|done]]).
        -- destruct Hm' as [->|[? ?]]; [by left|right].
           split; [apply elem_of_app; by left|done].
        -- destruct Hm' as [->|[[?|Heq%list_elem_of_singleton]%elem_of_app Hsh]];
             [by left|right; by split|subst m'].
           apply shares_list_shared in Hsh as [? ?]. congruence.
      * rewrite elem_of_app, (get_models_of_elem _ _ Hg). unfold listed. split.
        -- intros [?|?]; [by left|right]. exists model. split; [by left|done].
        -- intros [?|(m' & Hm' & Hd)]; [by left|right].
           destruct Hm' as [->|[_ (nk & Hs & _)]]; [done|congruence].
Qed.

Lemma collect_models_described ml : forall models md models' md',
  one_list apps md -> lists_described apps md ->
  collect_models apps ml models md = Return (models', md') ->
  one_list apps md' /\ lists_described apps md'.
Proof.
  induction ml as [|model ml IH]; intros models md models' md' Hone Hdesc; simpl.
  - by intros [= <- <-].
  - destruct (collect_model apps model models md) as [[models1 md1]| |] eqn:Hm;
      [|done|done]. simpl.
    apply collect_model_described in Hm as [Hone1 Hdesc1]; [|done|done].
    by apply IH.
Qed.

Lemma collect_apps_described app_list models md :
  collect_apps apps app_list ∅ [] = Return (models, md) ->
  md.*1 = input_models app_list /\
  models = list_to_set (input_models app_list) /\
  one_list apps md /\ lists_described apps md.
Proof.
  intros Hrun. pose proof Hrun as [Hfst ->]%collect_apps_inv.
  split; [done|]. split; [set_solver|].
  rewrite collect_apps_flat in Hrun.
  eapply collect_models_described; [| |exact Hrun].
  - intros entry entry' nk Hin. by apply elem_of_nil in Hin.
  - intros m deps Hin. by apply elem_of_nil in Hin.
Qed.

(** The entries of one model hold the same models. *)
Lemma lists_described_same md m deps deps' d :
  lists_described apps md -> (m, deps) ∈ md -> (m, deps') ∈ md ->
  d ∈ deps -> d ∈ deps'.
Proof.
  intros Hdesc Hin Hin' Hd. apply (Hdesc m deps' Hin').
  by apply (Hdesc m deps Hin).
Qed.

(** *** When the collection goes through *)

Lemma collect_model_readable model models md :
  one_list apps md -> lists_described apps md ->
  (exists r, collect_model apps model models md = Return r) <->
  readable apps (md.*1) model.
Proof.
  intros Hone Hdesc. unfold readable.
  destruct (shared_list apps model) as [nk|] eqn:Hshared.
  - rewrite (collect_model_shared _ nk) by done.
    rewrite (shared_list_declared model nk Hshared). split.
    + intros (r & Hrun). split; [by intros dep ?%elem_of_nil|].
      destruct (list_content apps md nk) eqn:Hcontent; [|done].
      pose proof (list_content_nil md nk Hone Hcontent) as Hempty.
      intros m0 (entry & -> & Hin)%list_elem_of_fmap (nk' & Hs & Hs').
      assert (nk' = nk) as -> by congruence.
      destruct (relation_deps apps entry.1) as [|d ds] eqn:Hrel; [done|].
      assert (d ∈ entry.2) as Hd.
      { destruct entry as [m0 deps0]. apply (Hdesc m0 deps0 Hin).
        right. exists m0. split; [by left|]. simpl in Hrel. rewrite Hrel. by left. }
      rewrite (Hempty entry Hin Hs) in Hd. by apply elem_of_nil in Hd.
    + intros [_ Hnone].
      destruct (list_content apps md nk) as [|d rest] eqn:Hcontent; [by eexists|].
      exfalso. apply list_content_cons in Hcontent as ([m0 deps0] & Hin & Hs & Hd).
      simpl in *. apply (Hdesc m0 deps0 Hin) in Hd as [(dep & Hdep & _)|(m' & Hm' & Hd)].
      * rewrite (shared_list_declared m0 nk Hs) in Hdep. by apply elem_of_nil in Hdep.
      * assert (m' ∈ md.*1 /\ shared_list apps m' = Some nk) as [Hm'in Hs'].
        { destruct Hm' as [->|[? (nk' & Hs1 & Hs2)]].
          - split; [|done]. apply list_elem_of_fmap. by exists (m0, deps0).
          - split; [done|congruence]. }
        rewrite (Hnone m') in Hd; [by apply elem_of_nil in Hd|done|by exists nk].
  - rewrite collect_model_own by done.
    rewrite <- get_models_of_defined. split.
    + intros (r & Hrun).
      destruct (get_models_of apps _) as [ms| |]; [|done|done].
      split; [by eexists|].
      intros m0 _ (nk & _ & Hs). congruence.
    + intros [(ms & ->) _]. by eexists.
Qed.

Lemma collect_models_readable ml : forall models md,
  one_list apps md -> lists_described apps md ->
  (exists r, collect_models apps ml models md = Return r) <->
  (forall l1 m l2, ml = l1 ++ m :: l2 -> readable apps (md.*1 ++ l1) m).
Proof.
  induction ml as [|model ml IH]; intros models md Hone Hdesc; simpl.
  - split; [|by eexists]. intros _ l1 m l2 Heq. by destruct l1.
  - split.
    + intros (r & Hrun) l1 m l2 Heq.
      destruct (collect_model apps model models md) as [[models1 md1]| |] eqn:Hm;
        [|done|done]. simpl in Hrun.
      pose proof (collect_model_Return _ _ _ _ _ Hm) as [_ Hfst].
      destruct l1 as [|m1 l1]; simpl in Heq; injection Heq as Hhead Heq.
      * subst m. rewrite app_nil_r.
        apply (collect_model_readable model models md); [done|done|].
        by eexists.
      * subst m1. apply collect_model_described in Hm as [Hone1 Hdesc1]; [|done|done].
        replace (md.*1 ++ model :: l1) with (md1.*1 ++ l1)
          by (by rewrite Hfst, <- app_assoc).
        eapply (proj1 (IH models1 md1 Hone1 Hdesc1)); [by eexists|done].
    + intros Hall.
      destruct (proj2 (collect_model_readable model models md Hone Hdesc))
        as ([models1 md1] & Hm).
      { specialize (Hall [] model ml eq_refl). by rewrite app_nil_r in Hall. }
      rewrite Hm. simpl.
      pose proof (collect_model_Return _ _ _ _ _ Hm) as [_ Hfst].
      apply collect_model_described in Hm as [Hone1 Hdesc1]; [|done|done].
      apply IH; [done|done|].
      intros l1 m l2 ->. rewrite Hfst, <- app_assoc.
      by apply (Hall (model :: l1) m l2).
Qed.
End CollectFacts.

(** ** The claims about [sort_dependencies] *)

(** C1. When the dependency lists are collected and hold no cycle among
    the selected models, [sort_dependencies] returns a permutation of the
    selected models in which each model stands after every selected model
    its list holds; dependencies outside the selection play no part: no
    cycle through them is excluded, and the result is the one computed from
    the lists with those dependencies erased. *)
Theorem sort_dependencies_acyclic (apps : Apps)
    (app_list : list (AppConfig * option (list Model)))
    (models : gset Model) (md : list Entry) :
  collect_apps apps app_list ∅ [] = Return (models, md) ->
  acyclic models md ->
  exists model_list,
    sort_dependencies apps app_list = Return model_list /\
    model_list ≡ₚ input_models app_list /\
    (forall l1 m l2 deps d,
       model_list = l1 ++ m :: l2 -> (m, deps) ∈ md ->
       d ∈ deps -> d ∈ input_models app_list -> d ∈ l1) /\
    resolve models (internal_only models md) = Return model_list.
Proof.
  intros Hc Hacyc.
  pose proof (collect_apps_described _ _ _ _ Hc) as (Hfst & Hmodels & _ & Hdesc).
  assert (forall d, d ∈ models <-> d ∈ input_models app_list) as Hsel.
  { intros d. rewrite Hmodels. set_solver. }
  destruct (resolve_acyclic models md) as (r & Hr).
  { intros d Hd. rewrite Hfst. by apply Hsel. }
  { exact Hacyc. }
  exists r. unfold sort_dependencies. rewrite Hc. simpl.
  pose proof (resolve_Return _ _ _ Hr) as [Hperm Hprec].
  split; [done|]. split; [by rewrite Hperm, Hfst|]. split.
  - intros l1 m l2 deps d Heq Hin Hd Hdsel.
    destruct (Hprec l1 m l2 Heq) as (deps' & Hin' & Hfirst).
    apply Hfirst; [|by apply Hsel].
    by apply (lists_described_same apps md m deps deps' d).
  - by rewrite resolve_internal_only.
Qed.

(** C2. [sort_dependencies] raises its [CommandError] exactly when the loop
    reaches entries that remain and of which a full scan pass promotes none;
    the message then names the remaining entries, each once, sorted by model
    name.  Two models that depend on each other are such entries. *)
Theorem sort_dependencies_raises_iff_no_promotion (apps : Apps)
    (app_list : list (AppConfig * option (list Model))) :
  (forall e,
     sort_dependencies apps app_list = Raise e /\ exc_class e = CommandError <->
     exists models md remaining model_list,
       collect_apps apps app_list ∅ [] = Return (models, md) /\
       Passes models (reverse md) [] remaining model_list /\
       remaining <> [] /\
       promotes_none models remaining model_list /\
       e = mkExc CommandError (unresolved_message (reverse remaining))) /\
  (forall skipped : list Entry, exists named,
     named ≡ₚ skipped /\
     Sorted (key_le (fun obj : Entry => object_name obj.1)) named /\
     unresolved_message skipped =
       "Can't resolve dependencies for " +:+
       join ", " (model_label <$> named.*1) +:+ " in serialized app list.") /\
  (forall A B : Model,
     resolve {[A; B]} [(A, [B]); (B, [A])] =
     Raise (mkExc CommandError (unresolved_message [(A, [B]); (B, [A])]))).
Proof.
  split; [|split].
  - intros e. unfold sort_dependencies. split.
    + intros [Hraise Hclass].
      destruct (collect_apps apps app_list ∅ []) as [[models md]|e'|] eqn:Hc;
        simpl in Hraise; [| |done].
      * unfold resolve in Hraise.
        pose proof (sort_loop_Passes models (length md) (reverse md) []) as H.
        rewrite length_reverse, Hraise in H.
        destruct (H ltac:(lia)) as (md' & ml' & ? & ? & ? & ?).
        by exists models, md, md', ml'.
      * injection Hraise as ->.
        destruct (collect_apps_Raise _ _ _ _ _ Hc) as [?|[?|?]]; congruence.
    + intros (models & md & md' & ml' & -> & HP & Hne & Hnone & ->). simpl.
      split; [|done]. unfold resolve.
      apply (Passes_stuck_Raise _ _ _ _ _ _ HP Hne Hnone).
      by rewrite length_reverse.
  - intros skipped. exists (sorted (fun obj : Entry => object_name obj.1) skipped).
    split; [apply sorted_perm|]. split; [apply sorted_Sorted|].
    unfold unresolved_message. do 3 f_equal.
    rewrite <- list_fmap_compose. apply list_fmap_ext. by intros _ [] _.
  - intros A B. unfold resolve. set (l := [(A, [B]); (B, [A])]).
    rewrite (Passes_stuck_Raise {[A; B]} (reverse l) [] (reverse l) []).
    + by rewrite reverse_involutive.
    + constructor.
    + intros Hn. apply (f_equal length) in Hn. by rewrite length_reverse in Hn.
    + unfold promotes_none, full_pass. rewrite reverse_involutive.
      rewrite scan_none_met; [done|].
      repeat constructor; simpl; unfold dependency_met;
        rewrite andb_true_r, orb_false_iff, !bool_decide_eq_false;
        set_solver.
    + by rewrite length_reverse.
Qed.

(** The scenario of C2 on a concrete registry. *)
Example sort_dependencies_mutual_cycle :
  sort_dependencies Examples.cycle_apps [(Examples.cycle_app, None)] =
  Raise (mkExc CommandError
           "Can't resolve dependencies for app.A, app.B in serialized app list.").
Proof. vm_compute. reflexivity. Qed.


(** ** The claims on the concrete registries *)
Section SortExamples.
Import Examples.

Lemma tc_first_step {A : Type} (R : relation A) x y :
  tc R x y -> exists z, R x z.
Proof. intros [? ? HR|? z ? HR _]; by eexists. Qed.

Lemma library_waits_for m d :
  waits_for (list_to_set [Book; Author])
            [(Book, [Author; Author; Publisher]); (Author, [])] m d ->
  m = Book /\ d = Author.
Proof.
  intros (deps & Hin & Hd & Hsel). apply elem_of_list_to_set in Hsel.
  apply elem_of_cons in Hin as [[= -> ->]|Hin].
  - split; [done|].
    apply elem_of_cons in Hsel as [->|Hsel].
    + do 3 (apply elem_of_cons in Hd as [Hd|Hd]; [by discriminate Hd|]).
      by apply elem_of_nil in Hd.
    + by apply list_elem_of_singleton in Hsel.
  - apply list_elem_of_singleton in Hin as [= -> ->]. by apply elem_of_nil in Hd.
Qed.

Lemma library_acyclic :
  acyclic (list_to_set [Book; Author])
          [(Book, [Author; Author; Publisher]); (Author, [])].
Proof.
  intros m Htc. inversion Htc as [? ? HR|? z ? HR Htc']; subst.
  - by apply library_waits_for in HR as [-> ?].
  - apply library_waits_for in HR as [-> ->].
    apply tc_first_step in Htc' as (z & HR).
    by apply library_waits_for in HR as [? _].
Qed.

Lemma sort_dependencies_acyclic_library :
  exists model_list,
    sort_dependencies library_apps [(library, None)] = Return model_list /\
    model_list ≡ₚ input_models [(library, None)] /\
    (forall l1 m l2 deps d,
       model_list = l1 ++ m :: l2 ->
       (m, deps) ∈ [(Book, [Author; Author; Publisher]); (Author, [])] ->
       d ∈ deps -> d ∈ input_models [(library, None)] -> d ∈ l1) /\
    resolve (list_to_set [Book; Author])
      (internal_only (list_to_set [Book; Author])
         [(Book, [Author; Author; Publisher]); (Author, [])]) = Return model_list.
Proof.
  apply (sort_dependencies_acyclic library_apps [(library, None)]
           (list_to_set [Book; Author])
           [(Book, [Author; Author; Publisher]); (Author, [])]).
  - apply (collect_apps_lists library_apps [(library, None)]).
    vm_compute. reflexivity.
  - exact library_acyclic.
Defined.

(** The order it gives: [Author], then [Book], whatever [Publisher] is. *)
Example sort_dependencies_library :
  sort_dependencies library_apps [(library, None)] = Return [Author; Book].
Proof. vm_compute. reflexivity. Qed.



(** One list for two models: what the scan appends for [Child] shows in
    the list of [Parent], which then waits for itself. *)
Example collect_apps_inherited_key :
  exists models,
    collect_apps family_apps [(family, None)] ∅ [] =
    Return (models, [(Parent, [Parent]); (Child, [Parent])]).
Proof.
  eexists. apply (collect_apps_lists family_apps [(family, None)]).
  vm_compute. reflexivity.
Qed.

Example sort_dependencies_inherited_key :
  sort_dependencies family_apps [(family, None)] =
  Raise (mkExc CommandError
           "Can't resolve dependencies for family.Child, family.Parent in serialized app list.").
Proof. vm_compute. reflexivity. Qed.

(** Read after [Child], [Parent] finds the list filled with a class. *)
Example sort_dependencies_reads_a_filled_list :
  sort_dependencies family_apps [(family, Some [Child; Parent])] =
  Raise (mkExc AttributeError "type object 'Parent' has no attribute 'split'").
Proof. vm_compute. reflexivity. Qed.
End SortExamples.

(** * Properties of the dump command *)
Section DumpFacts.
Context (apps : Apps) (env : DumpEnv).







End DumpFacts.


Section DumpExamples.
Import Examples.



(** A filter on primary keys with the bare app label. *)
Example handle_pks_with_app_label :
  Gitversions.handle library_apps dump_env ["library"]
    (dump_options "json" (Some "1,2")) empty_dump =
  (empty_dump, Raise (mkExc CommandError "You can only use --pks option with one model")).
Proof. vm_compute. reflexivity. Qed.

(** The same filter with one model goes through. *)
Example handle_pks_with_one_model :
  exists w, Gitversions.handle library_apps dump_env ["library.Book"]
              (dump_options "json" (Some "1,2")) empty_dump = (w, Return ()) /\
            (dump_model <$> dumped w) = [Book].
Proof. eexists. split; [vm_compute; reflexivity|reflexivity]. Qed.
End DumpExamples.

(** * Properties of [save_all] *)
Section SaveFacts.
Import Gitrestore.
Context {Ext : Type} (env : Env Ext).

Lemma save_cases using_ obj (w : World Ext) :
  (exists w', save env using_ obj w = (w', Return ()) /\
     obj_save env using_ obj (ext w) = (ext w', None)) \/
  (exists w' e, save env using_ obj w = (w', Raise e) /\
     obj_save env using_ obj (ext w) = (ext w', Some e)).
Proof.
  unfold save. destruct (obj_save env using_ obj (ext w)) as [x [e|]].
  - right. by eexists _, _.
  - left. by eexists.
Qed.

(** What one save leaves of the world. *)
Lemma save_world using_ obj (w w' : World Ext) r :
  save env using_ obj w = (w', r) ->
  hook_connected w' = hook_connected w /\
  saves w' = saves w ++ [obj] /\
  (hook_connected w = false -> versioned w' = versioned w) /\
  stdout w' = stdout w /\ stderr w' = stderr w.
Proof.
  unfold save. destruct (obj_save env using_ obj (ext w)) as [x [e|]];
    intros [= <- <-]; simpl; repeat split; try done.
  by intros ->.
Qed.

Lemma save_each_app using_ pre : forall post skiped caught (w : World Ext),
  save_each env using_ (pre ++ post) skiped caught w =
  match save_each env using_ pre skiped caught w with
  | (w1, Return (skiped1, caught1)) => save_each env using_ post skiped1 caught1 w1
  | (w1, Raise e) => (w1, Raise e)
  | (w1, OutOfFuel) => (w1, OutOfFuel)
  end.
Proof.
  induction pre as [|obj pre IH]; intros post skiped caught w; simpl; [done|].
  destruct (allow_migrate_model env using_ (object_class obj)); [|apply IH].
  destruct (save env using_ obj w) as [w' [[]|e|]]; [apply IH| |done].
  destruct (is_database_error (exc_class e)); [apply IH|done].
Qed.

(** The loop ends, and raises nothing of the [DatabaseError] classes. *)
Lemma save_each_outcome using_ objects : forall skiped caught (w w' : World Ext) r,
  save_each env using_ objects skiped caught w = (w', r) ->
  match r with
  | Return _ => True
  | Raise e => is_database_error (exc_class e) = false
  | OutOfFuel => False
  end.
Proof.
  induction objects as [|obj objects IH]; intros skiped caught w w' r; simpl.
  - by intros [= <- <-].
  - destruct (allow_migrate_model env using_ (object_class obj)); [|apply IH].
    destruct (save_cases using_ obj w) as [(w1 & -> & _)|(w1 & e & -> & _)];
      [apply IH|].
    destruct (is_database_error (exc_class e)) eqn:He; [apply IH|].
    by intros [= <- <-].
Qed.

(** An object the router rejects is passed over. *)
Lemma save_each_routed using_ objects : forall skiped caught (w : World Ext),
  save_each env using_ objects skiped caught w =
  save_each env using_ (routed env using_ objects) skiped caught w.
Proof.
  induction objects as [|obj objects IH]; intros skiped caught w; [done|].
  unfold routed in *. rewrite filter_cons. simpl.
  destruct (allow_migrate_model env using_ (object_class obj)) eqn:Hallow.
  - rewrite decide_True by done. simpl. rewrite Hallow.
    destruct (save env using_ obj w) as [w' [[]|e|]]; [apply IH| |done].
    destruct (is_database_error (exc_class e)); [apply IH|done].
  - rewrite decide_False by done. apply IH.
Qed.

(** What the loop leaves of the world, and whom it keeps for the retry. *)
Lemma save_each_world using_ objects : forall skiped caught (w w' : World Ext) r,
  save_each env using_ objects skiped caught w = (w', r) ->
  hook_connected w' = hook_connected w /\
  (hook_connected w = false -> versioned w' = versioned w) /\
  stdout w' = stdout w /\ stderr w' = stderr w /\
  exists attempted,
    saves w' = saves w ++ attempted /\
    Forall (fun obj => allow_migrate_model env using_ (object_class obj) = true)
           attempted.
Proof.
  induction objects as [|obj objects IH]; intros skiped caught w w' r; simpl.
  - intros [= <- <-]. repeat split; try done. exists []. by rewrite app_nil_r.
  - destruct (allow_migrate_model env using_ (object_class obj)) eqn:Hallow;
      [|apply IH].
    destruct (save env using_ obj w) as [w1 r1] eqn:Hsave.
    apply save_world in Hsave as (Hh & Hs & Hv & Ho & He).
    assert (forall sk c,
      save_each env using_ objects sk c w1 = (w', r) ->
      hook_connected w' = hook_connected w /\
      (hook_connected w = false -> versioned w' = versioned w) /\
      stdout w' = stdout w /\ stderr w' = stderr w /\
      exists attempted,
        saves w' = saves w ++ attempted /\
        Forall (fun obj => allow_migrate_model env using_ (object_class obj) = true)
               attempted) as Hrest.
    { intros sk c (Hh' & Hv' & Ho' & He' & att & Hs' & Hall)%IH.
      rewrite Hh', Ho', He', Hh. repeat split; try done.
      - intros Hoff. rewrite Hv' by congruence. by apply Hv.
      - exists (obj :: att). rewrite Hs', Hs, <- app_assoc. split; [done|].
        by constructor. }
    destruct r1 as [[]|e|]; [apply Hrest| |].
    + destruct (is_database_error (exc_class e)); [apply Hrest|].
      intros [= <- <-]. repeat split; try done.
      exists [obj]. split; [done|]. by repeat constructor.
    + intros [= <- <-]. repeat split; try done.
      exists [obj]. split; [done|]. by repeat constructor.
Qed.

Lemma save_each_kept using_ objects : forall skiped caught (w w' : World Ext) skiped' caught',
  save_each env using_ objects skiped caught w = (w', Return (skiped', caught')) ->
  exists kept errors,
    skiped' = skiped ++ kept /\ caught' = caught ++ errors /\
    length errors = length kept /\
    Forall (fun obj => obj ∈ objects /\
              allow_migrate_model env using_ (object_class obj) = true) kept.
Proof.
  induction objects as [|obj objects IH]; intros skiped caught w w' skiped' caught'; simpl.
  - intros [= <- <- <-]. exists [], []. by rewrite !app_nil_r.
  - assert (forall sk c w1,
      save_each env using_ objects sk c w1 = (w', Return (skiped', caught')) ->
      exists kept errors,
        skiped' = sk ++ kept /\ caught' = c ++ errors /\
        length errors = length kept /\
        Forall (fun o => o ∈ obj :: objects /\
                  allow_migrate_model env using_ (object_class o) = true) kept) as Hrest.
    { intros sk c w1 (kept & errors & -> & -> & Hlen & Hall)%IH.
      exists kept, errors. repeat split; try done.
      eapply Forall_impl; [exact Hall|]. intros o [? ?]. split; [by right|done]. }
    destruct (allow_migrate_model env using_ (object_class obj)) eqn:Hallow;
      [|apply Hrest].
    destruct (save env using_ obj w) as [w1 [[]|e|]]; [apply Hrest| |done].
    destruct (is_database_error (exc_class e)); [|done].
    intros (kept & errors & -> & -> & Hlen & Hall)%Hrest.
    exists (obj :: kept), (could_not_load obj e :: errors).
    rewrite <- !app_assoc. simpl. repeat split; [by rewrite Hlen|].
    constructor; [|done]. split; [by left|done].
Qed.
End SaveFacts.

Section SaveAllFacts.
Import Gitrestore.
Context {Ext : Type} (env : Env Ext).

(** One unfolding of [save_all], whatever fuel is left. *)
Lemma save_all_rec_stop fuel objects using_ iterations (w : World Ext) :
  objects = [] \/ 25 <= iterations ->
  save_all_rec env fuel objects using_ iterations w = (w, Return iterations).
Proof.
  intros Hstop. destruct fuel; simpl.
  - destruct Hstop as [->|?]; [done|].
    by rewrite (bool_decide_true (25 <= iterations)), orb_true_r.
  - destruct Hstop as [->|?]; [done|].
    by rewrite (bool_decide_true (25 <= iterations)), orb_true_r.
Qed.

Lemma save_all_rec_round fuel objects using_ iterations (w : World Ext) :
  objects <> [] -> iterations < 25 ->
  save_all_rec env (S fuel) objects using_ iterations w =
  match save_each env using_ objects [] [] w with
  | (w1, Return (skiped, _)) =>
      if bool_decide (skiped = []) then (w1, Return iterations)
      else save_all_rec env fuel skiped using_ (iterations + 1) w1
  | (w1, Raise e) => (w1, Raise e)
  | (w1, OutOfFuel) => (w1, OutOfFuel)
  end.
Proof.
  intros Hne Hlt. simpl.
  rewrite (bool_decide_false (length objects = 0)) by (by destruct objects).
  rewrite (bool_decide_false (25 <= iterations)) by lia. simpl.
  unfold bind. destruct (save_each env using_ objects [] [] w) as [w1 [[sk c]|e|]]; try done.
  destruct sk as [|obj sk]; [done|].
  rewrite (bool_decide_true (0 < length (obj :: sk))) by (simpl; lia).
  by rewrite bool_decide_false.
Qed.

(** Enough fuel: the result no longer depends on it. *)
Lemma save_all_rec_fuel f1 : forall f2 objects using_ iterations (w : World Ext),
  25 - iterations <= f1 -> 25 - iterations <= f2 ->
  save_all_rec env f1 objects using_ iterations w =
  save_all_rec env f2 objects using_ iterations w.
Proof.
  induction f1 as [|f1 IH]; intros f2 objects using_ iterations w H1 H2.
  - rewrite !save_all_rec_stop by (right; lia). done.
  - destruct (decide (objects = [] \/ 25 <= iterations)) as [Hstop|Hgo].
    { by rewrite !save_all_rec_stop. }
    destruct f2 as [|f2]; [lia|].
    rewrite !save_all_rec_round by (try lia; tauto).
    destruct (save_each env using_ objects [] [] w) as [w1 [[sk c]|e|]]; try done.
    case_bool_decide; [done|]. apply IH; lia.
Qed.

Lemma save_all_rec_outcome fuel : forall objects using_ iterations (w w' : World Ext) r,
  25 - iterations <= fuel ->
  save_all_rec env fuel objects using_ iterations w = (w', r) ->
  match r with
  | Return n => iterations <= n /\ n <= Nat.max iterations 25
  | Raise e => is_database_error (exc_class e) = false
  | OutOfFuel => False
  end.
Proof.
  induction fuel as [|fuel IH]; intros objects using_ iterations w w' r Hfuel.
  - rewrite save_all_rec_stop by (right; lia). intros [= <- <-]. lia.
  - destruct (decide (objects = [] \/ 25 <= iterations)) as [Hstop|Hgo].
    { rewrite save_all_rec_stop by done. intros [= <- <-]. lia. }
    rewrite save_all_rec_round by (try lia; tauto).
    destruct (save_each env using_ objects [] [] w) as [w1 r1] eqn:Heach.
    apply save_each_outcome in Heach.
    destruct r1 as [[sk c]|e|]; [| |done].
    + case_bool_decide.
      * intros [= <- <-]. lia.
      * intros Hrec%IH; [|lia]. destruct r; [lia|done|done].
    + by intros [= <- <-].
Qed.

Lemma save_all_rec_routed fuel objects using_ iterations (w : World Ext) :
  25 - iterations <= fuel ->
  save_all_rec env fuel objects using_ iterations w =
  save_all_rec env fuel (routed env using_ objects) using_ iterations w.
Proof.
  intros Hfuel. destruct (decide (25 <= iterations)) as [Hcap|Hcap].
  { by rewrite !save_all_rec_stop by (by right). }
  destruct fuel as [|fuel]; [lia|].
  destruct (decide (objects = [])) as [->|Hne]; [done|].
  rewrite (save_all_rec_round _ objects) by (try done; lia).
  rewrite save_each_routed.
  destruct (decide (routed env using_ objects = [])) as [Hnone|Hsome].
  - rewrite Hnone. by rewrite save_all_rec_stop by (by left).
  - by rewrite (save_all_rec_round _ (routed env using_ objects)) by (try done; lia).
Qed.

Lemma save_all_rec_world fuel : forall objects using_ iterations (w w' : World Ext) r,
  save_all_rec env fuel objects using_ iterations w = (w', r) ->
  hook_connected w' = hook_connected w /\
  (hook_connected w = false -> versioned w' = versioned w) /\
  stdout w' = stdout w /\ stderr w' = stderr w /\
  exists attempted,
    saves w' = saves w ++ attempted /\
    Forall (fun obj => allow_migrate_model env using_ (object_class obj) = true)
           attempted.
Proof.
  induction fuel as [|fuel IH]; intros objects using_ iterations w w' r; simpl.
  - destruct (_ || _); intros [= <- <-]; repeat split; try done;
      exists []; by rewrite app_nil_r.
  - destruct (_ || _).
    { intros [= <- <-]; repeat split; try done. exists []. by rewrite app_nil_r. }
    unfold bind. destruct (save_each env using_ objects [] [] w) as [w1 r1] eqn:Heach.
    apply save_each_world in Heach as (Hh & Hv & Ho & He & att & Hs & Hall).
    destruct r1 as [[sk c]|e|].
    + case_bool_decide.
      * intros (Hh' & Hv' & Ho' & He' & att' & Hs' & Hall')%IH.
        rewrite Hh', Ho', He'. repeat split; try done.
        -- intros Hoff. rewrite Hv' by congruence. by apply Hv.
        -- exists (att ++ att'). rewrite Hs', Hs, <- app_assoc. split; [done|].
           by apply Forall_app.
      * intros [= <- <-]. repeat split; try done. by exists att.
    + intros [= <- <-]. repeat split; try done. by exists att.
    + intros [= <- <-]. repeat split; try done. by exists att.
Qed.
(** The same for [save_all], whose fuel is fixed. *)
Lemma save_all_outcome objects using_ iterations (w w' : World Ext) r :
  save_all env objects using_ iterations w = (w', r) ->
  match r with
  | Return n => iterations <= n /\ n <= Nat.max iterations 25
  | Raise e => is_database_error (exc_class e) = false
  | OutOfFuel => False
  end.
Proof. apply save_all_rec_outcome. lia. Qed.

Lemma save_all_round objects using_ iterations (w : World Ext) :
  objects <> [] -> iterations < 25 ->
  save_all env objects using_ iterations w =
  match save_each env using_ objects [] [] w with
  | (w1, Return (skiped, _)) =>
      if bool_decide (skiped = []) then (w1, Return iterations)
      else save_all env skiped using_ (iterations + 1) w1
  | (w1, Raise e) => (w1, Raise e)
  | (w1, OutOfFuel) => (w1, OutOfFuel)
  end.
Proof.
  intros Hne Hlt. unfold save_all. rewrite (save_all_rec_round 24) by done.
  destruct (save_each env using_ objects [] [] w) as [w1 [[sk c]|e|]];
    [|reflexivity|reflexivity].
  case_bool_decide; [reflexivity|]. apply save_all_rec_fuel; lia.
Qed.
End SaveAllFacts.

(** ** The claims about [save_all] *)
Section SaveClaims.
Import Gitrestore.
Context {Ext : Type} (env : Env Ext).

(** C3. [save_all] ends: within the 25 nested calls given to it, it returns
    or raises.  The count it returns is at least the counter it got and at
    most the larger of that counter and 25, so at most 25 for the default 0
    and for every counter up to 25.  It returns the counter at once when there
    is no object or the counter has reached 25; otherwise one pass over the
    objects either leaves nothing to retry, and the counter is returned, or the
    retry set goes to the next call with the counter plus one. *)
Theorem save_all_terminates_within_cap (objects : list DeserializedObject)
    (using_ : string) (iterations : nat) (w : World Ext) :
  (save_all env objects using_ iterations w).2 <> OutOfFuel /\
  (forall w' n,
     save_all env objects using_ iterations w = (w', Return n) ->
     iterations <= n /\ n <= Nat.max iterations 25 /\
     (iterations <= 25 -> n <= 25)) /\
  (objects = [] \/ 25 <= iterations ->
   save_all env objects using_ iterations w = (w, Return iterations)) /\
  (objects <> [] -> iterations < 25 ->
   save_all env objects using_ iterations w =
   match save_each env using_ objects [] [] w with
   | (w1, Return (skiped, _)) =>
       if bool_decide (skiped = []) then (w1, Return iterations)
       else save_all env skiped using_ (iterations + 1) w1
   | (w1, Raise e) => (w1, Raise e)
   | (w1, OutOfFuel) => (w1, OutOfFuel)
   end).
Proof.
  split; [|split; [|split]].
  - destruct (save_all env objects using_ iterations w) as [w' r] eqn:Hrun.
    apply save_all_outcome in Hrun. by destruct r.
  - intros w' n Hrun. apply save_all_outcome in Hrun. lia.
  - apply save_all_rec_stop.
  - apply save_all_round.
Qed.

(** C4. When the pass of [save_all] reaches an object that the router lets
    through and whose save raises a [DatabaseError] or an exception of a
    class that derives from it (an [IntegrityError], an [OperationalError],
    ...), the pass goes on with the objects after it: the object is appended
    to the retry set and the exception's text becomes [Could not load
    app_label.object_name(pk=pk): text].  At the end of the pass the object
    is in the retry set that the next call gets with the counter plus one, and
    no call of [save_all] ever raises an exception of these classes. *)
Theorem save_all_keeps_database_errors (using_ : string)
    (pre rest : list DeserializedObject) (obj : DeserializedObject)
    (w w1 : World Ext) (skiped1 : list DeserializedObject)
    (caught1 : list Exception) (x : Ext) (e : Exception) :
  save_each env using_ pre [] [] w = (w1, Return (skiped1, caught1)) ->
  allow_migrate_model env using_ (object_class obj) = true ->
  obj_save env using_ obj (ext w1) = (x, Some e) ->
  is_database_error (exc_class e) = true ->
  (exists w2, ext w2 = x /\
     save_each env using_ (pre ++ obj :: rest) [] [] w =
     save_each env using_ rest (skiped1 ++ [obj])
               (caught1 ++ [could_not_load obj e]) w2) /\
  exc_text (could_not_load obj e) =
    "Could not load " +:+ app_label (object_class obj) +:+ "." +:+
    object_name (object_class obj) +:+ "(pk=" +:+ str_pk (object_pk obj) +:+
    "): " +:+ exc_text e /\
  (forall w3 skiped3 caught3 iterations,
     save_each env using_ (pre ++ obj :: rest) [] [] w =
       (w3, Return (skiped3, caught3)) ->
     obj ∈ skiped3 /\ could_not_load obj e ∈ caught3 /\
     (iterations < 25 ->
      save_all env (pre ++ obj :: rest) using_ iterations w =
      save_all env skiped3 using_ (iterations + 1) w3)) /\
  (forall objects iterations w0 w' e',
     save_all env objects using_ iterations w0 = (w', Raise e') ->
     is_database_error (exc_class e') = false).
Proof.
  intros Hpre Hallow Hsave Hclass.
  assert (exists w2, ext w2 = x /\
     save_each env using_ (pre ++ obj :: rest) [] [] w =
     save_each env using_ rest (skiped1 ++ [obj])
               (caught1 ++ [could_not_load obj e]) w2) as Hstep.
  { rewrite save_each_app, Hpre. simpl. rewrite Hallow.
    destruct (save_cases env using_ obj w1) as [(w2 & _ & Hok)|(w2 & e2 & -> & Hko)];
      [congruence|].
    rewrite Hsave in Hko. injection Hko as -> ->. rewrite Hclass. by exists w2. }
  split; [exact Hstep|]. split; [done|]. split.
  - intros w3 skiped3 caught3 iterations Hpass.
    destruct Hstep as (w2 & _ & Heq). pose proof Hpass as Hkept.
    rewrite Heq in Hkept.
    apply save_each_kept in Hkept as (kept & errors & -> & -> & _).
    assert (obj ∈ (skiped1 ++ [obj]) ++ kept) as Hin.
    { rewrite !elem_of_app. left. right. by left. }
    repeat split; [done| |].
    + rewrite !elem_of_app. left. right. by left.
    + intros Hlt. rewrite save_all_round; [|by destruct pre|done].
      rewrite Hpass. rewrite bool_decide_false; [done|].
      intros Hnil. rewrite Hnil in Hin. by apply elem_of_nil in Hin.
  - intros objects iterations w0 w' e' Hraise.
    by apply save_all_outcome in Hraise.
Qed.
(** C9. An object the router rejects is passed over: the pass and the whole
    of [save_all] run as they do on the list without it, so it causes no
    error; it is never saved and never enters the retry set. *)
Theorem save_all_drops_unrouted (using_ : string)
    (pre rest : list DeserializedObject) (obj : DeserializedObject)
    (iterations : nat) (w : World Ext) :
  allow_migrate_model env using_ (object_class obj) = false ->
  save_each env using_ (pre ++ obj :: rest) [] [] w =
    save_each env using_ (pre ++ rest) [] [] w /\
  save_all env (pre ++ obj :: rest) using_ iterations w =
    save_all env (pre ++ rest) using_ iterations w /\
  (forall w' r,
     save_all env (pre ++ obj :: rest) using_ iterations w = (w', r) ->
     exists attempted, saves w' = saves w ++ attempted /\ obj ∉ attempted) /\
  (forall w' skiped caught,
     save_each env using_ (pre ++ obj :: rest) [] [] w =
       (w', Return (skiped, caught)) ->
     (obj ∉ skiped) /\ length caught = length skiped).
Proof.
  intros Hreject.
  assert (routed env using_ (pre ++ obj :: rest) = routed env using_ (pre ++ rest))
    as Hrouted.
  { unfold routed. rewrite !filter_app, filter_cons.
    by rewrite decide_False by congruence. }
  split; [|split; [|split]].
  - by rewrite save_each_routed, Hrouted, <- save_each_routed.
  - unfold save_all. rewrite save_all_rec_routed by lia.
    rewrite Hrouted. by rewrite <- save_all_rec_routed by lia.
  - intros w' r (_ & _ & _ & _ & attempted & Hsaves & Hall)%save_all_rec_world.
    exists attempted. split; [done|]. intros Hin.
    rewrite Forall_forall in Hall. apply Hall in Hin. congruence.
  - intros w' skiped caught (kept & errors & -> & -> & Hlen & Hall)%save_each_kept.
    split; [|done]. simpl. intros Hin. rewrite Forall_forall in Hall.
    apply Hall in Hin as [_ ?]. congruence.
Qed.
End SaveClaims.

Section SaveExamples.
Import Gitrestore RestoreExamples.

(** The scenario of the specification: thirty books whose author never
    comes are tried 25 times, and the count returned is 25. *)
Example save_all_stops_at_cap :
  exists w, save_all (shelf_env []) (replicate 30 book7) "default" 0 (fresh []) =
              (w, Return 25) /\
            length (saves w) = 750 /\ ext w = [].
Proof. eexists. split; [vm_compute; reflexivity|]. by vm_compute. Qed.

Lemma save_all_keeps_database_errors_book :
  obj_save (shelf_env []) "default" book7 [] =
    ([], Some (mkExc IntegrityError "FOREIGN KEY constraint failed")) /\
  exc_text (could_not_load book7
              (mkExc IntegrityError "FOREIGN KEY constraint failed")) =
    "Could not load library.Book(pk=7): FOREIGN KEY constraint failed" /\
  save_all (shelf_env []) [book7; author1] "default" 0 (fresh []) =
    save_all (shelf_env []) [book7] "default" 1
      (mkWorld [author1] true [book7; author1] [author1] [] []).
Proof.
  destruct (save_all_keeps_database_errors (shelf_env []) "default" [] [author1]
              book7 (fresh []) (fresh []) [] [] []
              (mkExc IntegrityError "FOREIGN KEY constraint failed")
              eq_refl eq_refl eq_refl eq_refl)
    as (_ & Htext & Hnext & _).
  split; [reflexivity|]. split; [rewrite Htext; reflexivity|].
  apply (Hnext (mkWorld [author1] true [book7; author1] [author1] [] []) [book7]
               [could_not_load book7
                  (mkExc IntegrityError "FOREIGN KEY constraint failed")] 0);
    [reflexivity|lia].
Defined.

Lemma save_all_drops_unrouted_publisher :
  allow_migrate_model (shelf_env []) "default" (object_class publisher3) = false /\
  save_all (shelf_env []) [author1; publisher3; book7] "default" 0 (fresh []) =
    save_all (shelf_env []) [author1; book7] "default" 0 (fresh []).
Proof.
  split; [reflexivity|].
  apply (save_all_drops_unrouted (shelf_env []) "default" [author1] [book7]
           publisher3 0 (fresh []) eq_refl).
Defined.
End SaveExamples.


(** * Properties of the restore command *)
Section HandleFacts.
Import Gitrestore.
Context {Ext : Type} (env : Env Ext).

Lemma quiet_refl (w : World Ext) : quiet w w.
Proof. by split. Qed.

Lemma quiet_trans (w1 w2 w3 : World Ext) : quiet w1 w2 -> quiet w2 w3 -> quiet w1 w3.
Proof.
  intros [Hh1 Hv1] [Hh2 Hv2]. split; [congruence|].
  intros Hoff. rewrite Hv2 by congruence. by apply Hv1.
Qed.

Lemma quiet_set_ext x (w : World Ext) : quiet w (set_ext x w).
Proof. by split. Qed.

Lemma quiet_write_stdout text (w : World Ext) : quiet w (write_stdout text w).
Proof. by split. Qed.

Lemma quiet_write_stderr text (w : World Ext) : quiet w (write_stderr text w).
Proof. by split. Qed.

Lemma quiet_save_all objects using_ iterations (w w' : World Ext) r :
  save_all env objects using_ iterations w = (w', r) -> quiet w w'.
Proof. by intros (? & ? & _)%save_all_rec_world. Qed.

(** The context manager adds nothing but its two toggles. *)
Lemma quiet_constraint_checks_disabled {S : Type} using_
    (body : S -> World Ext -> World Ext * S * Result unit) s (w w' : World Ext) s' r :
  (forall s0 w0 w1 s1 r1, body s0 w0 = (w1, s1, r1) -> quiet w0 w1) ->
  constraint_checks_disabled env using_ body s w = (w', s', r) -> quiet w w'.
Proof.
  intros Hbody. unfold constraint_checks_disabled.
  destruct (disable_constraint_checking env using_ (ext w)) as [x [disabled|e]].
  - destruct (body s (set_ext x w)) as [[w1 s1] outcome] eqn:Hrun.
    apply Hbody in Hrun.
    assert (quiet w w1) as Hq by (eapply quiet_trans; [apply quiet_set_ext|done]).
    destruct outcome as [[]|e|]; [| |by intros [= <- <- <-]].
    + destruct disabled; [|by intros [= <- <- <-]].
      destruct (enable_constraint_checking env using_ (ext w1)) as [x' [e'|]];
        intros [= <- <- <-]; (eapply quiet_trans; [exact Hq|apply quiet_set_ext]).
    + destruct disabled; [|by intros [= <- <- <-]].
      destruct (enable_constraint_checking env using_ (ext w1)) as [x' [e'|]];
        intros [= <- <- <-]; (eapply quiet_trans; [exact Hq|apply quiet_set_ext]).
  - intros [= <- <- <-]. apply quiet_set_ext.
Qed.

Lemma list_remove_length path (l : list string) :
  path ∈ l -> S (length (list_remove path l)) = length l.
Proof.
  induction l as [|y l IH]; intros Hin; [by apply elem_of_nil in Hin|].
  simpl. destruct (decide (y = path)); [done|].
  apply elem_of_cons in Hin as [->|Hin]; [done|]. simpl. by rewrite IH.
Qed.

(** Both [except] clauses remove the label; the only exception they let
    out is the [UnboundLocalError] of [objects]. *)
Lemma fixture_failed_inv path e objs st (w w' : World Ext) st' r :
  fixture_failed path e objs st w = (w', st', r) ->
  fixture_labels st' = list_remove path (fixture_labels st) /\
  quiet w w' /\ saves w' = saves w /\ ext w' = ext w /\
  match r with
  | Return _ => True
  | Raise e' => exc_class e' = UnboundLocalError
  | OutOfFuel => False
  end.
Proof.
  unfold fixture_failed. intros Hrun.
  repeat (case_match; simplify_eq/=); repeat split; done.
Qed.

(** The walk over the labels ends; every turn that does not raise removes
    a label, and what it raises is an [IOError] or an [UnboundLocalError]. *)
Lemma loaddata_loop_inv fuel options : forall index st (w w' : World Ext) st' r,
  length (fixture_labels st) - index <= fuel ->
  loaddata_loop env fuel options index st w = (w', st', r) ->
  length (fixture_labels st') <= length (fixture_labels st) /\
  quiet w w' /\ saves w' = saves w /\ ext w' = ext w /\
  match r with
  | Return _ =>
      index < length (fixture_labels st) ->
      length (fixture_labels st') < length (fixture_labels st)
  | Raise e => exc_class e = IOError \/ exc_class e = UnboundLocalError
  | OutOfFuel => False
  end.
Proof.
  induction fuel as [|fuel IH]; intros index st w w' st' r Hfuel; simpl.
  - destruct (fixture_labels st !! index) as [path|] eqn:Hpath.
    + apply lookup_lt_Some in Hpath. lia.
    + intros [= <- <- <-]. apply lookup_ge_None in Hpath.
      repeat split; try done. lia.
  - destruct (fixture_labels st !! index) as [path|] eqn:Hpath.
    2:{ intros [= <- <- <-]. apply lookup_ge_None in Hpath.
        repeat split; try done. lia. }
    pose proof (lookup_lt_Some _ _ _ Hpath) as Hlt.
    assert (path ∈ fixture_labels st) as Hin by (by eapply list_elem_of_lookup_2).
    apply list_remove_length in Hin.
    set (w0 := if bool_decide (2 <= opt_verbosity options)
               then write_stdout ("Installing " +:+ humanize path +:+ " fixture") w
               else w).
    assert (quiet w w0 /\ saves w0 = saves w /\ ext w0 = ext w) as (Hq0 & Hs0 & He0).
    { unfold w0. case_bool_decide; repeat split; done. }
    assert (forall w1 st1,
      quiet w w1 -> saves w1 = saves w -> ext w1 = ext w ->
      fixture_labels st1 = list_remove path (fixture_labels st) ->
      loaddata_loop env fuel options (index + 1) st1 w1 = (w', st', r) ->
      length (fixture_labels st') <= length (fixture_labels st) /\
      quiet w w' /\ saves w' = saves w /\ ext w' = ext w /\
      match r with
      | Return _ =>
          index < length (fixture_labels st) ->
          length (fixture_labels st') < length (fixture_labels st)
      | Raise e => exc_class e = IOError \/ exc_class e = UnboundLocalError
      | OutOfFuel => False
      end) as Hnext.
    { intros w1 st1 Hq1 Hs1 He1 Hl1 Hrun.
      apply IH in Hrun as (Hlen & Hq & Hs & He & Hr); [|rewrite Hl1; lia].
      rewrite Hl1 in Hlen. split; [lia|]. split; [by eapply quiet_trans|].
      split; [congruence|]. split; [congruence|].
      destruct r as [[]|e|]; [|done|done]. intros _. lia. }
    destruct (load_fixture env (opt_database options) (opt_ignore options) path (ext w0))
      as [text|e|e rest|objs].
    + intros [= <- <- <-]. split; [done|]. split; [done|]. split; [done|].
      split; [done|]. by left.
    + destruct (fixture_failed path e (ld_objects st) st w0) as [[w1 st1] r1] eqn:Hfail.
      apply fixture_failed_inv in Hfail as (Hl1 & Hq1 & Hs1 & He1 & Hr1).
      destruct r1 as [[]|e1|]; [|clear Hnext|done].
      * apply Hnext; [by eapply quiet_trans|congruence|congruence|done].
      * intros [= <- <- <-]. rewrite Hl1. split; [lia|].
        split; [by eapply quiet_trans|]. split; [congruence|].
        split; [congruence|]. destruct Hr1. by right.
    + destruct (fixture_failed path e (BoundIter rest) st w0) as [[w1 st1] r1] eqn:Hfail.
      apply fixture_failed_inv in Hfail as (Hl1 & Hq1 & Hs1 & He1 & Hr1).
      destruct r1 as [[]|e1|]; [|clear Hnext|done].
      * apply Hnext; [by eapply quiet_trans|congruence|congruence|done].
      * intros [= <- <- <-]. rewrite Hl1. split; [lia|].
        split; [by eapply quiet_trans|]. split; [congruence|].
        split; [congruence|]. destruct Hr1. by right.
    + by apply Hnext.
Qed.

Lemma set_ext_same (w : World Ext) : set_ext (ext w) w = w.
Proof. by destruct w. Qed.

(** How a [with] block ends: at the toggle before the body, or after the
    body with the body's outcome or with the exception of the toggle after
    it. *)
Lemma constraint_checks_disabled_cases {S : Type} using_
    (body : S -> World Ext -> World Ext * S * Result unit) s (w w' : World Ext) s' r :
  constraint_checks_disabled env using_ body s w = (w', s', r) ->
  (exists x e, disable_constraint_checking env using_ (ext w) = (x, inr e) /\
     w' = set_ext x w /\ s' = s /\ r = Raise e) \/
  (exists x disabled w1 r1 x',
     disable_constraint_checking env using_ (ext w) = (x, inl disabled) /\
     body s (set_ext x w) = (w1, s', r1) /\ w' = set_ext x' w1 /\
     (r = r1 \/
      exists e', r1 <> OutOfFuel /\
        enable_constraint_checking env using_ (ext w1) = (x', Some e') /\
        r = Raise e')).
Proof.
  unfold constraint_checks_disabled.
  destruct (disable_constraint_checking env using_ (ext w)) as [x [disabled|e]] eqn:Hd.
  - destruct (body s (set_ext x w)) as [[w1 s1] outcome] eqn:Hrun.
    intros Hend. right.
    match goal with |- ?G =>
      assert ((w1, s1, outcome) = (w', s', r) -> G) as Hplain;
      [|assert (outcome <> OutOfFuel ->
                (let (x', o) := enable_constraint_checking env using_ (ext w1) in
                 match o with
                 | Some e' => (set_ext x' w1, s1, Raise e')
                 | None => (set_ext x' w1, s1, outcome)
                 end) = (w', s', r) -> G) as Henabled]
    end.
    { intros [= <- <- <-]. exists x, disabled, w1, outcome, (ext w1).
      rewrite set_ext_same. by auto. }
    { intros Hne.
      destruct (enable_constraint_checking env using_ (ext w1)) as [x' [e'|]] eqn:He;
        intros [= <- <- <-]; exists x, disabled, w1, outcome, x'.
      - split; [done|]. split; [done|]. split; [done|]. right. by exists e'.
      - split; [done|]. split; [done|]. split; [done|]. by left. }
    destruct outcome as [[]|e|]; [| |by apply Hplain].
    + destruct disabled; [by apply Henabled|by apply Hplain].
    + destruct disabled; [by apply Henabled|by apply Hplain].
  - intros [= <- <- <-]. left. by exists x, e.
Qed.

Lemma loaddata_inv options labels (w w' : World Ext) ld r :
  loaddata env options labels w = (w', ld, r) ->
  length (fixture_labels ld) <= length labels /\
  quiet w w' /\ saves w' = saves w /\ r <> OutOfFuel /\
  (r = Return () -> labels <> [] -> length (fixture_labels ld) < length labels) /\
  (toggles_keep_transaction env ->
   forall e, r = Raise e -> exc_class e <> TransactionManagementError).
Proof.
  unfold loaddata. intros Hrun.
  apply constraint_checks_disabled_cases in Hrun
    as [(x & e & Hd & -> & -> & ->)|(x & d & w1 & r1 & x' & Hd & Hloop & -> & Hr)].
  - repeat split; try done. intros [Hkeep _] e' [= <-]. by eapply Hkeep.
  - apply loaddata_loop_inv in Hloop as (Hlen & Hq & Hs & _ & Hr1); [|simpl; lia].
    simpl in *. split; [done|]. split.
    { eapply quiet_trans; [apply quiet_set_ext|].
      eapply quiet_trans; [exact Hq|apply quiet_set_ext]. }
    split; [done|].
    destruct Hr as [->|(e' & Hne & He & ->)].
    + destruct r1 as [[]|e1|]; [| |done].
      * repeat split; try done. intros _ Hne. apply Hr1. destruct labels; [done|simpl; lia].
      * repeat split; try done. intros _ e' [= <-]. by destruct Hr1 as [-> | ->].
    + repeat split; try done. intros [_ Hkeep] e'' [= <-]. by eapply Hkeep.
Qed.

(** One pass of the first loop: it ends, and when it returns it has taken
    at least one unit away. *)
Lemma ingest_pass_inv options st (w w' : World Ext) st' r :
  ingest_pass env options st w = (w', st', r) ->
  length (unloaded st') <= length (unloaded st) /\ i st' = i st /\
  quiet w w' /\ saves w' = saves w /\ r <> OutOfFuel /\
  (r = Return () ->
   is_Some (missing_fks st') /\
   (unloaded st <> [] -> length (unloaded st') < length (unloaded st))) /\
  (toggles_keep_transaction env ->
   forall e, r = Raise e -> exc_class e <> TransactionManagementError).
Proof.
  unfold ingest_pass.
  destruct (loaddata env options (unloaded st) w) as [[w1 ld] r1] eqn:Hload.
  apply loaddata_inv in Hload as (Hlen & [Hqh Hqv] & Hs & Hne & Hshort & Hkeep).
  destruct r1 as [[]|e|]; [| |done]; intros [= <- <- <-]; simpl;
    repeat split; try done; try (by eexists); by apply Hshort.
Qed.

Lemma retry_pass_inv options st (w w' : World Ext) st' r :
  retry_pass env options st w = (w', st', r) ->
  length (skiped st') <= length (skiped st) /\
  quiet w w' /\ saves w' = saves w /\ r <> OutOfFuel /\
  (r = Return () -> skiped st <> [] -> length (skiped st') < length (skiped st)).
Proof.
  unfold retry_pass.
  destruct (loaddata env options (skiped st) w) as [[w1 ld] r1] eqn:Hload.
  apply loaddata_inv in Hload as (Hlen & [Hqh Hqv] & Hs & Hne & Hshort & _).
  destruct r1 as [[]|e|]; [| |done]; intros [= <- <- <-]; simpl;
    repeat split; try done; by apply Hshort.
Qed.
(** The same with the [with] of [handle] around it. *)
Lemma ingest_step_inv options st (w w' : World Ext) st' r :
  constraint_checks_disabled env (opt_database options)
    (ingest_pass env options) st w = (w', st', r) ->
  length (unloaded st') <= length (unloaded st) /\ i st' = i st /\
  quiet w w' /\ saves w' = saves w /\ r <> OutOfFuel /\
  (r = Return () ->
   is_Some (missing_fks st') /\
   (unloaded st <> [] -> length (unloaded st') < length (unloaded st))) /\
  (toggles_keep_transaction env ->
   forall e, r = Raise e -> exc_class e <> TransactionManagementError).
Proof.
  intros Hrun.
  apply constraint_checks_disabled_cases in Hrun
    as [(x & e & Hd & -> & -> & ->)|(x & d & w1 & r1 & x' & Hd & Hpass & -> & Hr)].
  - repeat split; try done. intros [Hkeep _] e' [= <-]. by eapply Hkeep.
  - apply ingest_pass_inv in Hpass as (Hlen & Hi & Hq & Hs & Hne & Hret & Hkeep).
    simpl in *. split; [done|]. split; [done|]. split.
    { eapply quiet_trans; [apply quiet_set_ext|].
      eapply quiet_trans; [exact Hq|apply quiet_set_ext]. }
    split; [done|]. destruct Hr as [->|(e' & _ & He & ->)]; [done|].
    repeat split; try done. intros [_ Hen] e'' [= <-]. by eapply Hen.
Qed.

Lemma retry_step_inv options st (w w' : World Ext) st' r :
  constraint_checks_disabled env (opt_database options)
    (retry_pass env options) st w = (w', st', r) ->
  length (skiped st') <= length (skiped st) /\
  quiet w w' /\ saves w' = saves w /\ r <> OutOfFuel /\
  (r = Return () -> skiped st <> [] -> length (skiped st') < length (skiped st)).
Proof.
  intros Hrun.
  apply constraint_checks_disabled_cases in Hrun
    as [(x & e & Hd & -> & -> & ->)|(x & d & w1 & r1 & x' & Hd & Hpass & -> & Hr)].
  - repeat split; done.
  - apply retry_pass_inv in Hpass as (Hlen & Hq & Hs & Hne & Hret).
    simpl in *. split; [done|]. split.
    { eapply quiet_trans; [apply quiet_set_ext|].
      eapply quiet_trans; [exact Hq|apply quiet_set_ext]. }
    split; [done|]. destruct Hr as [->|(e' & _ & He & ->)]; [done|].
    repeat split; done.
Qed.

(** The loops save nothing and leave the hook alone. *)
Lemma ingest_loop_world fuel options : forall st (w w' : World Ext) st' r,
  ingest_loop env fuel options st w = (w', st', r) ->
  quiet w w' /\ saves w' = saves w.
Proof.
  induction fuel as [|fuel IH]; intros st w w' st' r; simpl.
  - case_bool_decide; by intros [= <- <- <-].
  - case_bool_decide; [by intros [= <- <- <-]|].
    destruct (constraint_checks_disabled _ _ _ st w) as [[w1 st1] r1] eqn:Hstep.
    apply ingest_step_inv in Hstep as (_ & _ & Hq & Hs & _).
    assert (forall st2,
      ingest_loop env fuel options st2 w1 = (w', st', r) ->
      quiet w w' /\ saves w' = saves w) as Hnext.
    { intros st2 (Hq' & Hs')%IH. split; [by eapply quiet_trans|congruence]. }
    destruct r1 as [[]|e|]; [apply Hnext| |by intros [= <- <- <-]].
    case_bool_decide; [|by intros [= <- <- <-]].
    destruct (_processed st1); [apply Hnext|by intros [= <- <- <-]].
Qed.

Lemma ingest_loop_empty fuel options st (w : World Ext) :
  unloaded st = [] -> ingest_loop env fuel options st w = (w, st, Return ()).
Proof. intros Hnil. destruct fuel; simpl; by rewrite Hnil. Qed.

Lemma retry_loop_world fuel options : forall st (w w' : World Ext) st' r,
  retry_loop env fuel options st w = (w', st', r) ->
  quiet w w' /\ saves w' = saves w.
Proof.
  induction fuel as [|fuel IH]; intros st w w' st' r; simpl.
  - case_bool_decide; by intros [= <- <- <-].
  - case_bool_decide; [by intros [= <- <- <-]|].
    destruct (constraint_checks_disabled _ _ _ st w) as [[w1 st1] r1] eqn:Hstep.
    apply retry_step_inv in Hstep as (_ & Hq & Hs & _).
    destruct r1 as [[]|e|]; [|by intros [= <- <- <-]|by intros [= <- <- <-]].
    intros (Hq' & Hs')%IH. split; [by eapply quiet_trans|congruence].
Qed.


Lemma retry_loop_bounded fuel options : forall st (w w' : World Ext) st' r,
  length (skiped st) <= fuel ->
  retry_loop env fuel options st w = (w', st', r) ->
  r <> OutOfFuel.
Proof.
  induction fuel as [|fuel IH]; intros st w w' st' r Hfuel; simpl.
  - case_bool_decide as Hempty; [|lia]. by intros [= <- <- <-].
  - case_bool_decide as Hempty; [by intros [= <- <- <-]|].
    assert (skiped st <> []) as Hne by (by intros Hnil; rewrite Hnil in Hempty).
    destruct (constraint_checks_disabled _ _ _ st w) as [[w1 st1] r1] eqn:Hstep.
    apply retry_step_inv in Hstep as (Hlen & _ & _ & Hfuel1 & Hret).
    destruct r1 as [[]|e|]; [| |done].
    + specialize (Hret eq_refl Hne). apply IH. simpl. lia.
    + by intros [= <- <- <-].
Qed.

(** The two blocks that call [save_all]. *)
Lemma save_first_quiet options st iterations (w w' : World Ext) iterations' r :
  save_first env options st iterations w = (w', iterations', r) -> quiet w w'.
Proof.
  unfold save_first. destruct (missing_fks st) as [missing|];
    [|intros [= <- <- <-]; apply quiet_refl].
  destruct (save_all env missing _ 0 w) as [w1 r1] eqn:H1.
  apply quiet_save_all in H1.
  destruct r1 as [n1|e|]; [|by intros [= <- <- <-]|by intros [= <- <- <-]].
  destruct (save_all env (objects st) _ 0 w1) as [w2 r2] eqn:H2.
  apply quiet_save_all in H2.
  destruct r2; intros [= <- <- <-]; by eapply quiet_trans.
Qed.

Lemma save_again_quiet options st iterations (w w' : World Ext) iterations' r :
  save_again env options st iterations w = (w', iterations', r) -> quiet w w'.
Proof.
  unfold save_again. destruct iterations as [n|];
    [|intros [= <- <- <-]; apply quiet_refl].
  destruct (save_all env (objects st) _ n w) as [w1 r1] eqn:H1.
  apply quiet_save_all in H1. by destruct r1; intros [= <- <- <-].
Qed.

(** From the disconnection on, the restore leaves the hook disconnected
    until it connects it again as its last step. *)
Lemma restore_hook fuel options total (w w' : World Ext) r :
  restore env fuel options total w = (w', r) ->
  versioned w' = versioned w /\
  match r with
  | Return _ => hook_connected w' = true
  | _ => hook_connected w' = false
  end.
Proof.
  unfold restore.
  set (w0 := set_hook false w).
  assert (hook_connected w0 = false /\ versioned w0 = versioned w) as [Hoff Hv0] by done.
  assert (forall w1, quiet w0 w1 ->
            hook_connected w1 = false /\ versioned w1 = versioned w) as Hkeep.
  { intros w1 [Hh Hv]. split; [congruence|]. rewrite Hv by done. done. }
  destruct (ingest_loop env fuel options _ w0) as [[w1 st1] r1] eqn:H1.
  apply ingest_loop_world in H1 as [Hq1 _].
  destruct r1 as [[]|e|]; [|intros [= <- <-]; by apply Hkeep in Hq1 as [? ?]
                           |intros [= <- <-]; by apply Hkeep in Hq1 as [? ?]].
  destruct (constraint_checks_disabled env _ (save_first env options st1) None w1)
    as [[w2 it2] r2] eqn:H2.
  apply quiet_constraint_checks_disabled in H2;
    [|intros ? ? ? ? ?; apply save_first_quiet].
  assert (quiet w0 w2) as Hq2 by (by eapply quiet_trans).
  destruct r2 as [[]|e|]; [|intros [= <- <-]; by apply Hkeep in Hq2 as [? ?]
                           |intros [= <- <-]; by apply Hkeep in Hq2 as [? ?]].
  destruct (retry_loop env fuel options st1 w2) as [[w3 st3] r3] eqn:H3.
  apply retry_loop_world in H3 as [Hq3' _].
  assert (quiet w0 w3) as Hq3 by (by eapply quiet_trans).
  destruct r3 as [[]|e|]; [|intros [= <- <-]; by apply Hkeep in Hq3 as [? ?]
                           |intros [= <- <-]; by apply Hkeep in Hq3 as [? ?]].
  destruct (constraint_checks_disabled env _ (save_again env options st3) it2 w3)
    as [[w4 it4] r4] eqn:H4.
  apply quiet_constraint_checks_disabled in H4;
    [|intros ? ? ? ? ?; apply save_again_quiet].
  assert (quiet w0 w4) as Hq4 by (by eapply quiet_trans).
  apply Hkeep in Hq4 as [Hh4 Hv4].
  destruct it4 as [n|], r4 as [[]|e|]; try (by intros [= <- <-]).
  intros [= <- <-]. simpl. split; [|done].
  by destruct (get_autocommit env _ _).
Qed.

End HandleFacts.

(** ** The claims about [handle] *)
Section HandleClaims.
Import Gitrestore.
Context {Ext : Type} (env : Env Ext).


(** C6: what the code does on the empty batch.  The first loop does not
    run, and the block that follows raises: the [UnboundLocalError] of
    [missing_fks], unless a constraint toggle raised around it.  Nothing is
    saved and no count is reported. *)
Theorem restore_empty_batch_raises (fuel : nat) (options : Options) (w : World Ext) :
  exists w' e,
    restore env fuel options [] w = (w', Raise e) /\
    saves w' = saves w /\ stdout w' = stdout w /\
    (e = unbound_local "missing_fks" \/
     (exists x x', disable_constraint_checking env (opt_database options) x = (x', inr e)) \/
     (exists x x', enable_constraint_checking env (opt_database options) x = (x', Some e))).
Proof.
  unfold restore. rewrite ingest_loop_empty by done.
  destruct (constraint_checks_disabled env _ _ None (set_hook false w))
    as [[w2 it2] r2] eqn:H2.
  apply constraint_checks_disabled_cases in H2
    as [(x & e & Hd & -> & -> & ->)|(x & d & w1 & r1 & x' & Hd & Hbody & -> & Hr)].
  - eexists _, e. repeat split; try done. right. left. by eexists _, _.
  - unfold save_first in Hbody. simpl in Hbody. injection Hbody as <- <- <-.
    destruct Hr as [->|(e' & _ & He & ->)].
    + eexists _, _. repeat split; try done. by left.
    + eexists _, e'. repeat split; try done. right. right. by eexists _, _.
Qed.

(** C7, as the code has it.  [handle] disconnects the hook before its first
    pass, so that it runs the same whatever the hook was; none of its saves
    reaches [gitversion], on any path; and when it returns the hook is
    connected again. *)
Theorem handle_suspends_hook (fuel : nat) (options : Options) (w : World Ext) :
  versioned (Gitrestore.handle env fuel options w).1 = versioned w /\
  (forall n, (Gitrestore.handle env fuel options w).2 = Return n ->
     hook_connected (Gitrestore.handle env fuel options w).1 = true) /\
  (forall total,
     restore env fuel options total w =
     restore env fuel options total (set_hook false w)).
Proof.
  split; [|split].
  - unfold Gitrestore.handle.
    destruct (opt_url options) as [url|].
    + case_bool_decide.
      * destruct (restore env fuel options _ w) as [w' r] eqn:Hrun.
        by apply restore_hook in Hrun as [? _].
      * destruct (clone_repository env url _) as [x [e|]]; [done|].
        destruct (restore env fuel options _ (set_ext x _)) as [w' r] eqn:Hrun.
        by apply restore_hook in Hrun as [? _].
    + destruct (restore env fuel options _ w) as [w' r] eqn:Hrun.
      by apply restore_hook in Hrun as [? _].
  - intros n. unfold Gitrestore.handle.
    destruct (opt_url options) as [url|].
    + case_bool_decide.
      * destruct (restore env fuel options _ w) as [w' r] eqn:Hrun.
        apply restore_hook in Hrun as [_ Hh]. simpl. by intros ->.
      * destruct (clone_repository env url _) as [x [e|]]; [done|].
        destruct (restore env fuel options _ (set_ext x _)) as [w' r] eqn:Hrun.
        apply restore_hook in Hrun as [_ Hh]. simpl. by intros ->.
    + destruct (restore env fuel options _ w) as [w' r] eqn:Hrun.
      apply restore_hook in Hrun as [_ Hh]. simpl. by intros ->.
  - done.
Qed.
End HandleClaims.

Section HandleExamples.
Import Gitrestore RestoreExamples.






(** The empty batch on a concrete store. *)
Example handle_empty_batch :
  Gitrestore.handle (shelf_env []) 10 restore_options (fresh []) =
  (mkWorld [] false [] [] [] [],
   Raise (mkExc UnboundLocalError
            "local variable 'missing_fks' referenced before assignment")).
Proof. vm_compute. reflexivity. Qed.

(** C7 as stated fails: a fixture that cannot be opened ends the restore
    with its [IOError], and the hook, connected before, stays disconnected. *)
Lemma handle_failure_leaves_hook_disconnected :
  hook_connected (fresh (Ext := list DeserializedObject) []) = true /\
  exists w e,
    Gitrestore.handle (shelf_env ["author.json"; "missing.json"; "lost.json"]) 10
      restore_options (fresh []) = (w, Raise e) /\
    exc_class e = IOError /\ hook_connected w = false.
Proof.
  split; [reflexivity|]. eexists _, _.
  split; [vm_compute; reflexivity|]. split; reflexivity.
Qed.

(** A restore that runs to its end: two units, the book before its author. *)
Example handle_restores_shelf :
  exists w,
    Gitrestore.handle (shelf_env ["book.json"; "author.json"]) 10
      restore_options (fresh []) = (w, Return 1) /\
    hook_connected w = true /\ versioned w = [] /\
    stdout w = ["Loaded 2 instances and 0 was skipped from total 2 in 2 loaddata iterations and 1 saving iterations."].
Proof. eexists. split; [vm_compute; reflexivity|]. by repeat split. Qed.
End HandleExamples.
(** * Further properties of [sort_dependencies] *)
Section SortMore.
Context (apps : Apps).

Lemma resolve_Raise (models : gset Model) (md : list Entry) e :
  resolve models md = Raise e -> exc_class e = CommandError.
Proof.
  unfold resolve. intros Hraise.
  pose proof (sort_loop_Passes models (length md) (reverse md) []) as H.
  rewrite length_reverse, Hraise in H.
  by destruct (H ltac:(lia)) as (md' & ml' & _ & _ & _ & ->).
Qed.

(** The loop ends: [sort_dependencies] returns or raises. *)
Theorem sort_dependencies_terminates
    (app_list : list (AppConfig * option (list Model))) :
  sort_dependencies apps app_list <> OutOfFuel.
Proof.
  unfold sort_dependencies.
  pose proof (collect_apps_fuel apps app_list ∅ []) as Hc.
  destruct (collect_apps apps app_list ∅ []) as [[models md]|e|]; simpl; [|done|done].
  apply resolve_total.
Qed.

(** [sort_dependencies] gets as far as its sorting loop, and so returns or
    raises its [CommandError], exactly when every label that a selected
    model declares resolves and no selected model is handed a
    [dependencies] list to which the relation scan has appended for a model
    read before it.  Otherwise it raises what [apps.get_model] raises: its
    [LookupError] or [ValueError] for a label, or the [AttributeError] of a
    class in the place of a label. *)
Theorem sort_dependencies_reaches_the_loop
    (app_list : list (AppConfig * option (list Model))) :
  (returns_or_command_error (sort_dependencies apps app_list) <->
   forall l1 m l2, input_models app_list = l1 ++ m :: l2 ->
     (forall dep, dep ∈ declared_labels apps m ->
        exists d, get_model apps dep = Return d) /\
     (forall m0, m0 ∈ l1 -> shares_list apps m0 m -> relation_deps apps m0 = [])) /\
  (forall e, sort_dependencies apps app_list = Raise e ->
     exc_class e = CommandError \/ exc_class e = LookupError \/
     exc_class e = ValueError \/ exc_class e = AttributeError).
Proof.
  assert (returns_or_command_error (sort_dependencies apps app_list) <->
          exists r, collect_apps apps app_list ∅ [] = Return r) as Hloop.
  { unfold sort_dependencies. split.
    - intros Hr.
      destruct (collect_apps apps app_list ∅ []) as [r|e|] eqn:Hc; [by eexists| |].
      + simpl in Hr.
        destruct (collect_apps_Raise _ _ _ _ _ Hc) as [?|[?|?]];
          destruct Hr as [(? & ?)|(e' & [= <-] & ?)]; congruence.
      + simpl in Hr. by destruct Hr as [(? & ?)|(? & ? & ?)].
    - intros ([models md] & ->). simpl.
      pose proof (resolve_total models md) as Htotal.
      destruct (resolve models md) as [r|e|] eqn:Hr; [left; by eexists| |done].
      right. exists e. split; [done|]. by eapply resolve_Raise. }
  split.
  - rewrite Hloop. setoid_rewrite collect_apps_flat.
    rewrite (collect_models_readable apps (input_models app_list) ∅ []).
    + done.
    + intros entry entry' nk Hin. by apply elem_of_nil in Hin.
    + intros m deps Hin. by apply elem_of_nil in Hin.
  - unfold sort_dependencies. intros e.
    destruct (collect_apps apps app_list ∅ []) as [[models md]|e'|] eqn:Hc; simpl.
    + intros ?%resolve_Raise. by left.
    + intros [= <-]. right. by eapply collect_apps_Raise.
    + done.
Qed.

(** A pass over entries that stand in dependency order promotes them all,
    in that order. *)
Lemma scan_ordered (models : gset Model) pops : forall ml sk ch,
  (forall l1 en l2, pops = l1 ++ en :: l2 ->
     forall d, d ∈ en.2 -> d ∈ models -> d ∈ ml ++ l1.*1) ->
  scan models pops ml sk ch =
  (ml ++ pops.*1, sk, ch || bool_decide (pops <> [])).
Proof.
  induction pops as [|[model deps] pops IH]; intros ml sk ch Hord; simpl.
  - rewrite app_nil_r. by destruct ch.
  - assert (forallb (dependency_met models ml) deps = true) as ->.
    { apply all_met_true. intros d Hd Hm.
      specialize (Hord [] (model, deps) pops eq_refl d Hd Hm).
      by rewrite app_nil_r in Hord. }
    rewrite IH.
    + rewrite <- app_assoc. simpl. by rewrite orb_true_r.
    + intros l1 en l2 -> d Hd Hm.
      specialize (Hord ((model, deps) :: l1) en l2 eq_refl d Hd Hm).
      rewrite <- app_assoc. exact Hord.
Qed.

Lemma Passes_Return (models : gset Model) md ml r fuel :
  Passes models md ml [] r -> length md <= fuel ->
  sort_loop fuel models md ml = Return r.
Proof.
  intros HP Hfuel.
  destruct (Passes_sort_loop _ _ _ _ _ HP fuel Hfuel) as (fuel' & _ & ->).
  by destruct fuel'.
Qed.

(** When the collected lists already stand in dependency order, each
    entry after the entries of the selected models its list holds,
    [sort_dependencies] returns the selected models as they stand. *)
Theorem sort_dependencies_keeps_ordered_input
    (app_list : list (AppConfig * option (list Model)))
    (models : gset Model) (md : list Entry) :
  collect_apps apps app_list ∅ [] = Return (models, md) ->
  (forall l1 entry l2 d,
     md = l1 ++ entry :: l2 -> d ∈ entry.2 -> d ∈ input_models app_list ->
     d ∈ l1.*1) ->
  sort_dependencies apps app_list = Return (input_models app_list).
Proof.
  intros Hc Hord.
  pose proof (collect_apps_inv _ _ _ _ _ _ Hc) as [Hfst Hmodels].
  simpl in Hfst. unfold sort_dependencies. rewrite Hc. simpl.
  rewrite <- Hfst. unfold resolve.
  destruct md as [|en md]; [done|].
  apply Passes_Return; [|by rewrite length_reverse].
  eapply Passes_step; [| |apply Passes_here].
  - intros Hnil. apply (f_equal length) in Hnil. by rewrite length_reverse in Hnil.
  - unfold full_pass. rewrite reverse_involutive.
    rewrite scan_ordered; [done|].
    intros l1 en' l2 Heq d Hd Hm. simpl.
    apply (Hord l1 en' l2 d Heq Hd).
    rewrite Hmodels in Hm. set_solver.
Qed.

(** The entries named by the [CommandError]: they are the collected
    entries that were not promoted, each has a dependency among them, and no
    promoted model waits for one of them. *)
Theorem sort_dependencies_unresolved_entries
    (app_list : list (AppConfig * option (list Model))) (e : Exception) :
  sort_dependencies apps app_list = Raise e ->
  exc_class e = CommandError ->
  exists models md promoted remaining,
    collect_apps apps app_list ∅ [] = Return (models, md) /\
    exc_text e = unresolved_message remaining /\
    remaining <> [] /\
    promoted ++ remaining.*1 ≡ₚ input_models app_list /\
    (forall m deps, (m, deps) ∈ remaining ->
       (m, deps) ∈ md /\
       exists d, d ∈ deps /\ d ∈ remaining.*1) /\
    (forall l1 m l2 deps d,
       promoted = l1 ++ m :: l2 -> (m, deps) ∈ md ->
       d ∈ deps -> d ∈ input_models app_list -> d ∈ l1).
Proof.
  unfold sort_dependencies. intros Hraise Hclass.
  destruct (collect_apps apps app_list ∅ []) as [[models md]|e'|] eqn:Hc;
    simpl in Hraise; [| |done].
  2:{ injection Hraise as ->.
      destruct (collect_apps_Raise _ _ _ _ _ Hc) as [?|[?|?]]; congruence. }
  pose proof (collect_apps_described _ _ _ _ Hc) as (Hfst & Hmodels & _ & Hdesc).
  unfold resolve in Hraise.
  pose proof (sort_loop_Passes models (length md) (reverse md) []) as H.
  rewrite length_reverse, Hraise in H.
  destruct (H ltac:(lia)) as (md' & ml' & HP & Hne & Hnone & ->).
  unfold promotes_none in Hnone.
  destruct (full_pass models md' ml') as [[ml1 sk] ch] eqn:Hpass.
  simpl in Hnone. subst ch. apply full_pass_stuck in Hpass as (_ & _ & Hunmet).
  pose proof (Passes_perm _ _ _ _ _ HP) as Hperm. simpl in Hperm.
  rewrite fmap_reverse, reverse_Permutation, Hfst in Hperm.
  pose proof (Passes_sub _ _ _ _ _ HP) as Hsub.
  assert (DepsFirst models (reverse md) ml') as Hfirst.
  { eapply Passes_DepsFirst; [exact HP|done|constructor]. }
  apply DepsFirst_precede in Hfirst.
  exists models, md, ml', (reverse md'). split; [done|]. split; [done|]. split.
  { intros Hnil. apply (f_equal length) in Hnil. rewrite length_reverse in Hnil.
    by destruct md'. }
  split; [by rewrite fmap_reverse, reverse_Permutation|]. split.
  - intros m deps Hin. rewrite elem_of_reverse in Hin.
    pose proof (Hsub _ Hin) as Hmd. rewrite elem_of_reverse in Hmd.
    split; [done|].
    rewrite Forall_forall in Hunmet.
    destruct (all_met_false _ _ _ (Hunmet _ Hin)) as (d & Hd & Hdm & Hdl).
    exists d. split; [done|]. rewrite fmap_reverse, elem_of_reverse.
    assert (d ∈ ml' ++ md'.*1) as Hd'.
    { rewrite Hperm. rewrite Hmodels in Hdm. set_solver. }
    apply elem_of_app in Hd' as [?|?]; done.
  - intros l1 m l2 deps d Heq Hin Hd Hsel.
    destruct (Hfirst l1 m l2 Heq) as (deps' & Hin' & Hpre).
    rewrite elem_of_reverse in Hin'.
    apply Hpre; [|rewrite Hmodels; set_solver].
    by apply (lists_described_same apps md m deps deps' d).
Qed.
End SortMore.

(** * Further properties of the dump command *)
Section DumpMore.
Context (apps : Apps) (env : DumpEnv).

Lemma dump_models_spec options sorted_models : forall w models instances,
  dump_models env options (primary_keys_of options) sorted_models w models instances =
  (mkDumpWorld (dumped w ++ (dump_call options <$> sorted_models))
               (written w) (commits w),
   models + length sorted_models,
   foldl (fun n model =>
            n + queryset_count env model (opt_database options)
                  (primary_keys_of options) (opt_use_base_manager options))
         instances sorted_models).
Proof.
  induction sorted_models as [|model rest IH]; intros w models instances; simpl.
  - rewrite app_nil_r, Nat.add_0_r. by destruct w.
  - rewrite IH. simpl. rewrite <- app_assoc. simpl. do 2 f_equal. lia.
Qed.

(** The excludes: which apps they exclude, and that the models they name
    are looked up and then forgotten. *)
Lemma collect_excludes_apps excludes : forall ea em ea' em',
  collect_excludes apps excludes ea em = Return (ea', em') ->
  forall app_config, app_config ∈ ea' <->
    app_config ∈ ea \/
    exists exclude, exclude ∈ app_excludes excludes /\
      get_app_config apps exclude = Some app_config.
Proof.
  induction excludes as [|exclude excludes IH]; intros ea em ea' em'; simpl.
  - intros [= <- <-] ac. split; [by left|]. intros [?|(? & ?%elem_of_nil & _)]; done.
  - unfold app_excludes. rewrite filter_cons.
    destruct (str_contains "." exclude) eqn:Hdot.
    + rewrite decide_False by done.
      destruct (get_model apps exclude) as [model|e|];
        [apply IH|by case_bool_decide|done].
    + rewrite decide_True by done.
      destruct (get_app_config apps exclude) as [ac0|] eqn:Hac; [|done].
      intros Hrest ac. rewrite (IH _ _ _ _ Hrest ac). split.
      * intros [[->%elem_of_singleton|?]%elem_of_union|(ex & ? & ?)].
        -- right. exists exclude. split; [by left|done].
        -- by left.
        -- right. exists ex. split; [by right|done].
      * intros [?|(ex & [->|?]%elem_of_cons & Hex)].
        -- left. set_solver.
        -- left. rewrite Hac in Hex. set_solver.
        -- right. by exists ex.
Qed.

Lemma collect_excludes_models excludes : forall ea em,
  (forall exclude, exclude ∈ excludes -> str_contains "." exclude = true ->
     exists model, get_model apps exclude = Return model) ->
  match collect_excludes apps excludes ea em with
  | Return (ea', _) =>
      exists em', collect_excludes apps (app_excludes excludes) ea ∅ = Return (ea', em')
  | Raise e => collect_excludes apps (app_excludes excludes) ea ∅ = Raise e
  | OutOfFuel => False
  end.
Proof.
  induction excludes as [|exclude excludes IH]; intros ea em Hknown; simpl.
  - by eexists.
  - unfold app_excludes. rewrite filter_cons.
    assert (forall ex, ex ∈ excludes -> str_contains "." ex = true ->
              exists model, get_model apps ex = Return model) as Hrest.
    { intros ex Hex. apply Hknown. by right. }
    destruct (str_contains "." exclude) eqn:Hdot.
    + rewrite decide_False by done.
      destruct (Hknown exclude) as [m ->]; [by left|done|]. by apply IH.
    + rewrite decide_True by done. simpl. rewrite Hdot.
      destruct (get_app_config apps exclude); [|done]. by apply IH.
Qed.

(** [handle] in terms of its steps. *)
Lemma handle_Return app_labels options w w' :
  Gitversions.handle apps env app_labels options w = (w', Return ()) ->
  exists excluded_apps excluded_models app_list sorted_models,
    collect_excludes apps (opt_exclude options) ∅ ∅ =
      Return (excluded_apps, excluded_models) /\
    build_app_list apps (primary_keys_of options) excluded_apps app_labels =
      Return app_list /\
    opt_format options ∈ public_serializer_formats env /\
    sort_dependencies apps app_list = Return sorted_models /\
    w' = mkDumpWorld
           (dumped w ++ (dump_call options <$> sorted_models))
           (written w ++
            ("Dumped " +:+ pretty (length app_list) +:+ " applications, " +:+
             pretty (length sorted_models) +:+ " models and " +:+
             pretty (count_instances env options sorted_models) +:+ " instances.") ::
            (if opt_commit options || opt_push options
             then ["Commit & Push ..."] else []))
           (commits w ++
            (if opt_commit options || opt_push options
             then [("Initial versions from: " +:+ now env, opt_push options)]
             else [])).
Proof.
  unfold Gitversions.handle. fold (primary_keys_of options).
  destruct (collect_excludes apps (opt_exclude options) ∅ ∅)
    as [[excluded_apps excluded_models]|e|] eqn:Hex;
    [|by intros [= _ ?]|by intros [= _ ?]].
  destruct (build_app_list apps (primary_keys_of options) excluded_apps app_labels)
    as [app_list|e|] eqn:Hbuild; [|by intros [= _ ?]|by intros [= _ ?]].
  case_bool_decide as Hformat; [by intros [= _ ?]|].
  destruct (sort_dependencies apps app_list) as [sorted_models|e|] eqn:Hsort;
    [|by intros [= _ ?]|by intros [= _ ?]].
  rewrite dump_models_spec. simpl. intros Hw.
  exists excluded_apps, excluded_models, app_list, sorted_models.
  split; [done|]. split; [done|].
  split; [done|].
  split; [done|]. unfold count_instances.
  destruct (opt_commit options || opt_push options); injection Hw as <-;
    by rewrite ?app_nil_r, <- ?app_assoc.
Qed.

Lemma sort_dependencies_Return_perm app_list sorted_models :
  sort_dependencies apps app_list = Return sorted_models ->
  sorted_models ≡ₚ input_models app_list.
Proof.
  unfold sort_dependencies.
  destruct (collect_apps apps app_list ∅ []) as [[models md]|e|] eqn:Hc; try done.
  simpl. intros [Hperm _]%resolve_Return.
  apply collect_apps_inv in Hc as [Hfst _]. by rewrite Hperm, Hfst.
Qed.

Lemma od_set_elem (app_list : AppList) app_config value entry :
  entry ∈ od_set app_list app_config value ->
  entry = (app_config, value) \/ entry ∈ app_list.
Proof.
  induction app_list as [|[k v] app_list IH]; simpl.
  - intros ->%list_elem_of_singleton. by left.
  - destruct (decide (k = app_config)) as [->|Hne].
    + intros [->|?]%elem_of_cons; [by left|right; by right].
    + intros [->|[->|?]%IH]%elem_of_cons; [right; by left|by left|right; by right].
Qed.

Lemma od_get_elem (app_list : AppList) app_config value :
  od_get app_list app_config = Some value -> (app_config, value) ∈ app_list.
Proof.
  induction app_list as [|[k v] app_list IH]; simpl; [done|].
  destruct (decide (k = app_config)) as [->|Hne].
  - intros [= ->]. by left.
  - intros ?%IH. by right.
Qed.

Lemma od_set_sound excluded_apps app_list app_config value :
  app_list_sound apps excluded_apps app_list ->
  skipped_app excluded_apps app_config = false ->
  (forall l model, value = Some l -> model ∈ l ->
     exists name, app_get_model apps app_config name = Some model) ->
  app_list_sound apps excluded_apps (od_set app_list app_config value).
Proof.
  intros Hsound Hskip Hvalue ac ml [[= -> ->]|Hin]%od_set_elem; [done|].
  by apply Hsound.
Qed.

Lemma add_label_sound primary_keys excluded_apps app_list label app_list' :
  app_list_sound apps excluded_apps app_list ->
  add_label apps primary_keys excluded_apps app_list label = Return app_list' ->
  app_list_sound apps excluded_apps app_list'.
Proof.
  intros Hsound. unfold add_label.
  destruct (split_on "." label) as [|app_label [|model_label [|p3 ps]]].
  1,2,4: destruct primary_keys; [|done];
    destruct (get_app_config apps label) as [ac|]; [|done];
    destruct (skipped_app excluded_apps ac) eqn:Hskip; intros [= <-]; [done|];
    by apply od_set_sound.
  destruct (get_app_config apps app_label) as [ac|]; [|done].
  destruct (skipped_app excluded_apps ac) eqn:Hskip; [by intros [= <-]|].
  destruct (app_get_model apps ac model_label) as [model|] eqn:Hmodel; [|done].
  destruct (od_get app_list ac) as [[l|]|] eqn:Hget.
  - case_bool_decide; intros [= <-]; [done|].
    apply od_set_sound; [done|done|]. intros l' m [= <-] [Hm|Hm]%elem_of_app.
    + apply od_get_elem in Hget. destruct (Hsound _ _ Hget) as [_ Hl]. by eapply Hl.
    + apply list_elem_of_singleton in Hm as ->. by exists model_label.
  - by intros [= <-].
  - intros [= <-]. apply od_set_sound; [done|done|].
    intros l' m [= <-] ->%list_elem_of_singleton. by exists model_label.
Qed.

Lemma add_labels_sound primary_keys excluded_apps app_labels : forall app_list app_list',
  app_list_sound apps excluded_apps app_list ->
  add_labels apps primary_keys excluded_apps app_list app_labels = Return app_list' ->
  app_list_sound apps excluded_apps app_list'.
Proof.
  induction app_labels as [|label app_labels IH]; intros app_list app_list' Hsound; simpl.
  - by intros [= <-].
  - destruct (add_label apps primary_keys excluded_apps app_list label)
      as [app_list1|e|] eqn:Hadd; try done. simpl.
    apply IH. by eapply add_label_sound.
Qed.

Lemma all_apps_sound excluded_apps :
  app_list_sound apps excluded_apps (all_apps apps excluded_apps).
Proof.
  unfold all_apps.
  assert (app_list_sound apps excluded_apps []) as Hnil.
  { intros ac ml Hin. by apply elem_of_nil in Hin. }
  revert Hnil. generalize ([] : AppList).
  induction (get_app_configs apps) as [|ac acs IH]; intros app_list Hsound; simpl; [done|].
  apply IH. destruct (skipped_app excluded_apps ac) eqn:Hskip; [done|].
  by apply od_set_sound.
Qed.

Lemma build_app_list_sound primary_keys excluded_apps app_labels app_list :
  build_app_list apps primary_keys excluded_apps app_labels = Return app_list ->
  app_list_sound apps excluded_apps app_list.
Proof.
  unfold build_app_list. destruct app_labels as [|label app_labels].
  - destruct primary_keys; [|done]. intros [= <-]. apply all_apps_sound.
  - destruct (_ && _); [done|]. apply add_labels_sound.
    intros ac ml Hin. by apply elem_of_nil in Hin.
Qed.

Lemma input_models_elem (app_list : AppList) model :
  model ∈ input_models app_list ->
  exists app_config model_list, (app_config, model_list) ∈ app_list /\
    model ∈ default (get_models app_config) model_list.
Proof.
  induction app_list as [|[ac ml] app_list IH]; simpl.
  - by intros ?%elem_of_nil.
  - intros [?|(ac' & ml' & ? & ?)%IH]%elem_of_app.
    + exists ac, ml. split; [by left|done].
    + exists ac', ml'. split; [by right|done].
Qed.

Lemma dump_models_with_exclude options excludes primary_keys sorted_models :
  forall w models instances,
  dump_models env (with_exclude options excludes) primary_keys sorted_models
              w models instances =
  dump_models env options primary_keys sorted_models w models instances.
Proof.
  induction sorted_models as [|model rest IH]; intros w models instances; [done|].
  simpl. apply IH.
Qed.


(** A dumped model belongs to an app that has a models module and that no
    exclude names: excluded apps are never dumped. *)
Theorem handle_never_dumps_excluded_apps (app_labels : list string)
    (options : Options) (w w' : DumpWorld) (call : DumpCall) :
  Gitversions.handle apps env app_labels options w = (w', Return ()) ->
  call ∈ dumped w' ->
  call ∈ dumped w \/
  exists app_config,
    model_of_app apps app_config (dump_model call) /\
    has_models_module app_config = true /\
    forall exclude, exclude ∈ opt_exclude options ->
      str_contains "." exclude = false ->
      get_app_config apps exclude <> Some app_config.
Proof.
  intros (ea & em & app_list & sorted_models & Hex & Hbuild & _ & Hsort & ->)%handle_Return.
  simpl. intros [?|(model & -> & Hin)%list_elem_of_fmap]%elem_of_app; [by left|].
  right. apply sort_dependencies_Return_perm in Hsort. rewrite Hsort in Hin.
  apply input_models_elem in Hin as (ac & ml & Hentry & Hmodel).
  apply build_app_list_sound in Hbuild.
  destruct (Hbuild ac ml Hentry) as [Hskip Hlisted].
  unfold skipped_app in Hskip. apply orb_false_iff in Hskip as [Hmod Hnot].
  apply negb_false_iff in Hmod. apply bool_decide_eq_false in Hnot.
  exists ac. split; [|split; [done|]].
  - destruct ml as [l|]; simpl in Hmodel; [right|by left]. by eapply Hlisted.
  - intros exclude Hin Hdot Hac. apply Hnot.
    apply (collect_excludes_apps _ _ _ _ _ Hex). right. exists exclude.
    split; [|done]. unfold app_excludes. apply list_elem_of_filter. by split.
Qed.

(** An exclude that names a model is looked up and then has no effect: the
    dump runs as it does without these excludes, and the model is dumped. *)
Theorem handle_ignores_model_excludes (app_labels : list string)
    (options : Options) (w : DumpWorld) :
  (forall exclude, exclude ∈ opt_exclude options ->
     str_contains "." exclude = true ->
     exists model, get_model apps exclude = Return model) ->
  Gitversions.handle apps env app_labels options w =
  Gitversions.handle apps env app_labels
    (with_exclude options (app_excludes (opt_exclude options))) w.
Proof.
  intros Hknown. unfold Gitversions.handle.
  pose proof (collect_excludes_models (opt_exclude options) ∅ ∅ Hknown) as Hsame.
  simpl. destruct (collect_excludes apps (opt_exclude options) ∅ ∅)
    as [[ea em]|e|]; [|by rewrite Hsame|done].
  destruct Hsame as (em' & ->).
  destruct (build_app_list apps _ ea app_labels) as [app_list|e|]; try done.
  case_bool_decide; [done|].
  destruct (sort_dependencies apps app_list) as [sorted_models|e|]; try done.
  by rewrite dump_models_with_exclude.
Qed.
End DumpMore.

(** * Further properties of [save_all] *)
Section SaveMore.
Import Gitrestore.
Context {Ext : Type} (env : Env Ext).

Lemma save_saves using_ obj (w w' : World Ext) r :
  save env using_ obj w = (w', r) -> saves w' = saves w ++ [obj].
Proof. by intros (_ & ? & _)%save_world. Qed.

Lemma save_each_order (using_ : string)
    (objects : list DeserializedObject) (w w' : World Ext)
    (skiped : list DeserializedObject) (caught : list Exception) :
  save_each env using_ objects [] [] w = (w', Return (skiped, caught)) ->
  saves w' = saves w ++ routed env using_ objects /\
  sublist skiped (routed env using_ objects).
Proof.
  assert (forall sk c sk' c',
    save_each env using_ objects sk c w = (w', Return (sk', c')) ->
    saves w' = saves w ++ routed env using_ objects /\
    exists kept, sk' = sk ++ kept /\ sublist kept (routed env using_ objects)) as Hgen.
  { revert w. induction objects as [|obj objects IH]; intros w sk c sk' c'; simpl.
    - intros [= <- <- <-]. rewrite app_nil_r. split; [done|].
      exists []. by rewrite app_nil_r.
    - unfold routed in *. rewrite filter_cons.
      destruct (allow_migrate_model env using_ (object_class obj)) eqn:Hallow.
      + rewrite decide_True by done.
        destruct (save env using_ obj w) as [w1 r1] eqn:Hsave.
        apply save_saves in Hsave.
        destruct r1 as [[]|e|]; [| |done].
        * intros (Hs & kept & -> & Hsub)%IH. rewrite Hs, Hsave, <- app_assoc.
          split; [done|]. exists kept. split; [done|]. by apply sublist_cons.
        * destruct (is_database_error (exc_class e)); [|done].
          intros (Hs & kept & -> & Hsub)%IH. rewrite Hs, Hsave, <- app_assoc.
          split; [done|]. exists (obj :: kept). rewrite <- app_assoc.
          split; [done|]. by apply sublist_skip.
      + rewrite decide_False by congruence. apply IH. }
  intros Hrun. apply Hgen in Hrun as (Hs & kept & -> & Hsub). by split.
Qed.

(** One pass tries the routed objects once each, in the order given, and
    keeps for the retry a part of them, in that order. *)
Theorem save_each_attempts_in_order (using_ : string)
    (objects : list DeserializedObject) (w w' : World Ext)
    (skiped : list DeserializedObject) (caught : list Exception) :
  save_each env using_ objects [] [] w = (w', Return (skiped, caught)) ->
  saves w' = saves w ++ routed env using_ objects /\
  sublist skiped (routed env using_ objects).
Proof. apply save_each_order. Qed.

Lemma save_all_ok (objects : list DeserializedObject)
    (using_ : string) (iterations : nat) (w : World Ext) :
  (forall obj x, obj ∈ objects ->
     allow_migrate_model env using_ (object_class obj) = true ->
     (obj_save env using_ obj x).2 = None) ->
  iterations < 25 ->
  exists w',
    save_all env objects using_ iterations w = (w', Return iterations) /\
    saves w' = saves w ++ routed env using_ objects.
Proof.
  intros Hok Hlt.
  assert (forall w0 sk c,
    exists w1, save_each env using_ objects sk c w0 = (w1, Return (sk, c)) /\
               saves w1 = saves w0 ++ routed env using_ objects) as Hpass.
  { clear Hlt. induction objects as [|obj objects IH]; intros w0 sk c; simpl.
    - exists w0. by rewrite app_nil_r.
    - unfold routed in *. rewrite filter_cons.
      destruct (allow_migrate_model env using_ (object_class obj)) eqn:Hallow.
      + rewrite decide_True by done.
        destruct (save_cases env using_ obj w0) as [(w1 & Hs & _)|(w1 & e & Hs & He)].
        * rewrite Hs. apply save_saves in Hs.
          destruct (IH (fun o x Ho => Hok o x (proj2 (elem_of_cons _ _ _) (or_intror Ho))) w1 sk c)
            as (w2 & -> & Hs2).
          exists w2. split; [done|]. by rewrite Hs2, Hs, <- app_assoc.
        * specialize (Hok obj (ext w0) (proj2 (elem_of_cons _ _ _) (or_introl eq_refl)) Hallow).
          rewrite He in Hok. done.
      + rewrite decide_False by congruence.
        apply (IH (fun o x Ho => Hok o x (proj2 (elem_of_cons _ _ _) (or_intror Ho)))). }
  destruct objects as [|obj objects].
  - exists w. unfold save_all. rewrite save_all_rec_stop by (by left).
    by rewrite app_nil_r.
  - rewrite save_all_round by done.
    destruct (Hpass w [] []) as (w1 & -> & Hs). by exists w1.
Qed.

(** When every save succeeds, [save_all] saves the routed objects once
    each, in order, and returns the counter it got. *)
Theorem save_all_saves_everything (objects : list DeserializedObject)
    (using_ : string) (iterations : nat) (w : World Ext) :
  (forall obj x, obj ∈ objects ->
     allow_migrate_model env using_ (object_class obj) = true ->
     (obj_save env using_ obj x).2 = None) ->
  iterations < 25 ->
  exists w',
    save_all env objects using_ iterations w = (w', Return iterations) /\
    saves w' = saves w ++ routed env using_ objects.
Proof. apply save_all_ok. Qed.

(** When every object is routed and every save raises a
    [DatabaseError] (of that class or of one that derives from it),
    [save_all] gives up at the cap: it returns 25 after
    trying every object once in each of the rounds that were left. *)
Theorem save_all_gives_up_at_cap (objects : list DeserializedObject)
    (using_ : string) (iterations : nat) (w : World Ext) :
  (forall obj x, obj ∈ objects ->
     allow_migrate_model env using_ (object_class obj) = true /\
     exists e, (obj_save env using_ obj x).2 = Some e /\
               is_database_error (exc_class e) = true) ->
  objects <> [] -> iterations <= 25 ->
  exists w',
    save_all env objects using_ iterations w = (w', Return 25) /\
    length (saves w') = length (saves w) + (25 - iterations) * length objects.
Proof.
  intros Hfail Hne Hle.
  assert (forall w0 sk c,
    exists w1 c1, save_each env using_ objects sk c w0 = (w1, Return (sk ++ objects, c1)) /\
                  saves w1 = saves w0 ++ objects) as Hpass.
  { clear Hne. induction objects as [|obj objects IH]; intros w0 sk c; simpl.
    - exists w0, c. by rewrite !app_nil_r.
    - destruct (Hfail obj (ext w0) (proj2 (elem_of_cons _ _ _) (or_introl eq_refl))) as (-> & e & He & Hdb).
      destruct (save_cases env using_ obj w0) as [(w1 & Hs & Hok)|(w1 & e1 & Hs & Hko)].
      { rewrite Hok in He. done. }
      rewrite Hko in He. injection He as ->. rewrite Hs, Hdb.
      apply save_saves in Hs.
      destruct (IH (fun o x Ho => Hfail o x (proj2 (elem_of_cons _ _ _) (or_intror Ho)))
                   w1 (sk ++ [obj]) (c ++ [could_not_load obj e])) as (w2 & c2 & -> & Hs2).
      exists w2, c2. rewrite <- app_assoc. split; [done|].
      by rewrite Hs2, Hs, <- app_assoc. }
  remember (25 - iterations) as left eqn:Hleft.
  revert iterations w Hle Hleft.
  induction left as [|left IH]; intros iterations w Hle Hleft.
  - assert (iterations = 25) as -> by lia. exists w. unfold save_all.
    rewrite save_all_rec_stop by (right; lia). split; [done|lia].
  - rewrite save_all_round by (done || lia).
    destruct (Hpass w [] []) as (w1 & c1 & -> & Hs). simpl.
    rewrite bool_decide_false by done.
    destruct (IH (iterations + 1) w1) as (w2 & -> & Hlen); [lia|lia|].
    exists w2. split; [done|]. rewrite Hlen, Hs, length_app. lia.
Qed.

(** An exception of [obj.save] that is no [DatabaseError], its class
    deriving from it neither, ends [save_all]:
    it goes up as it is, and the objects after the one that raised it are not
    tried. *)
Theorem save_all_lets_other_errors_through (using_ : string)
    (pre rest : list DeserializedObject) (obj : DeserializedObject)
    (iterations : nat) (w w1 : World Ext) (skiped1 : list DeserializedObject)
    (caught1 : list Exception) (x : Ext) (e : Exception) :
  save_each env using_ pre [] [] w = (w1, Return (skiped1, caught1)) ->
  allow_migrate_model env using_ (object_class obj) = true ->
  obj_save env using_ obj (ext w1) = (x, Some e) ->
  is_database_error (exc_class e) = false ->
  iterations < 25 ->
  exists w2,
    save_all env (pre ++ obj :: rest) using_ iterations w = (w2, Raise e) /\
    ext w2 = x /\
    saves w2 = saves w ++ routed env using_ pre ++ [obj].
Proof.
  intros Hpre Hallow Hsave Hclass Hlt.
  rewrite save_all_round; [|by destruct pre|done].
  rewrite save_each_app, Hpre. simpl. rewrite Hallow.
  destruct (save_cases env using_ obj w1) as [(w2 & _ & Hok)|(w2 & e2 & Hs & Hko)];
    [congruence|].
  rewrite Hsave in Hko. injection Hko as -> ->. rewrite Hs, Hclass.
  exists w2. split; [done|]. split; [done|].
  apply save_saves in Hs. apply save_each_order in Hpre as [Hpre _].
  by rewrite Hs, Hpre, <- app_assoc.
Qed.
End SaveMore.

(** * Properties of [loaddata] and of the loop of [handle] that calls it *)
Section LoadMore.
Import Gitrestore.
Context {Ext : Type} (env : Env Ext).

Lemma list_remove_middle path (pre rest : list string) :
  path ∉ pre -> list_remove path (pre ++ path :: rest) = pre ++ rest.
Proof.
  induction pre as [|y pre IH]; intros Hnot; simpl.
  - by rewrite decide_True.
  - apply not_elem_of_cons in Hnot as [Hne Hnot].
    rewrite decide_False by done. by rewrite IH.
Qed.

Lemma stepped_over_cons2 {A : Type} (x y : A) (l : list A) :
  stepped_over (x :: y :: l) = y :: stepped_over l.
Proof. by destruct l. Qed.

Lemma list_ind2 {A : Type} (P : list A -> Prop) :
  P [] -> (forall x, P [x]) -> (forall x y l, P l -> P (x :: y :: l)) ->
  forall l, P l.
Proof.
  intros Hnil Hone Htwo l.
  assert (P l /\ forall x, P (x :: l)) as [H _]; [|done].
  induction l as [|y l [IH1 IH2]]; [by split|]. split; [done|].
  intros x. by apply Htwo.
Qed.

Lemma visited_length {A : Type} (l : list A) :
  length (visited l) + length (stepped_over l) = length l /\
  length (stepped_over l) = length l / 2.
Proof.
  induction l as [|x|x y l [Hsum Hhalf]] using list_ind2; [done|done|].
  rewrite stepped_over_cons2. cbn [visited length].
  replace (S (S (length l))) with (1 * 2 + length l) by lia.
  rewrite Nat.div_add_l by done. lia.
Qed.

Lemma visited_perm {A : Type} (l : list A) : visited l ++ stepped_over l ≡ₚ l.
Proof.
  induction l as [|x|x y l IH] using list_ind2; [done|done|].
  rewrite stepped_over_cons2. cbn [visited app]. constructor.
  rewrite <- Permutation_middle. by constructor.
Qed.

Lemma loaddata_loop_decodes options decode : forall n rest pre st (w : World Ext) fuel,
  length rest <= n -> length rest <= fuel ->
  fixture_labels st = pre ++ rest -> NoDup (pre ++ rest) ->
  decodes env options decode rest ->
  exists w' st',
    loaddata_loop env fuel options (length pre) st w = (w', st', Return ()) /\
    fixture_labels st' = pre ++ stepped_over rest /\
    ld_processed st' = ld_processed st ++ visited rest /\
    loaded_objects st' = loaded_objects st ++ concat (decode <$> visited rest) /\
    ld_skiped st' = ld_skiped st /\ ld_missing_fks st' = ld_missing_fks st /\
    ext w' = ext w /\ saves w' = saves w.
Proof.
  induction n as [|n IH]; intros rest pre st w fuel Hn Hfuel Hst Hnodup Hdec.
  { destruct rest; [|simpl in Hn; lia]. rewrite app_nil_r in Hst.
    exists w, st. destruct fuel; simpl; rewrite Hst, lookup_ge_None_2 by done;
      rewrite !app_nil_r; done. }
  destruct rest as [|path rest].
  { rewrite app_nil_r in Hst.
    exists w, st. destruct fuel; simpl; rewrite Hst, lookup_ge_None_2 by done;
      rewrite !app_nil_r; done. }
  destruct fuel as [|fuel]; [simpl in Hfuel; lia|]. simpl loaddata_loop.
  rewrite Hst, list_lookup_middle by done.
  set (w0 := if bool_decide (2 <= opt_verbosity options)
             then write_stdout ("Installing " +:+ humanize path +:+ " fixture") w
             else w).
  assert (ext w0 = ext w /\ saves w0 = saves w) as [He0 Hs0].
  { unfold w0. by case_bool_decide. }
  rewrite (Hdec path (ext w0)) by (by left).
  assert (path ∉ pre) as Hnot.
  { apply NoDup_app in Hnodup as (_ & Hdisj & _). intros Hin.
    apply (Hdisj _ Hin). by left. }
  rewrite list_remove_middle by done.
  assert (NoDup (pre ++ rest)) as Hnodup'.
  { apply NoDup_app in Hnodup as (Hpre & Hdisj & Hrest).
    apply NoDup_cons in Hrest as [_ Hrest]. apply NoDup_app.
    split; [done|]. split; [|done]. intros x Hx Hx'. apply (Hdisj _ Hx). by right. }
  destruct rest as [|next rest].
  - exists w0. eexists. rewrite app_nil_r.
    destruct fuel; simpl; rewrite lookup_ge_None_2 by (simpl; lia);
      (split; [reflexivity|]); simpl; rewrite ?app_nil_r; done.
  - edestruct (IH rest (pre ++ [next])
                 (mkLoading (pre ++ next :: rest) (ld_skiped st)
                    (ld_processed st ++ [path]) (loaded_objects st ++ decode path)
                    (missing_model st) (ld_missing_fks st) (BoundList (decode path)))
                 w0 fuel)
      as (w' & st' & Hrun & Hl & Hp & Ho & Hsk & Hm & He & Hs).
    { simpl in Hn. lia. }
    { simpl in Hfuel. lia. }
    { simpl. by rewrite <- app_assoc. }
    { by rewrite <- app_assoc. }
    { intros p x Hp. apply Hdec. right. by right. }
    rewrite length_app in Hrun. simpl in Hrun. rewrite Hrun.
    exists w', st'. split; [done|]. simpl in *.
    rewrite Hl, Hp, Ho, <- !app_assoc, stepped_over_cons2. cbn [visited fmap list_fmap concat app].
    rewrite <- ?app_assoc.
    repeat split; try done; congruence.
Qed.

Lemma loaddata_decodes options decode (labels : list string) (w : World Ext) :
  toggles_succeed env -> NoDup labels -> decodes env options decode labels ->
  exists w' ld,
    loaddata env options labels w = (w', ld, Return ()) /\
    fixture_labels ld = stepped_over labels /\
    ld_processed ld = visited labels /\
    loaded_objects ld = concat (decode <$> visited labels) /\
    ld_skiped ld = [] /\ ld_missing_fks ld = [] /\ saves w' = saves w.
Proof.
  intros [Hoff Hon] Hnodup Hdec. unfold loaddata, constraint_checks_disabled.
  destruct (Hoff (opt_database options) (ext w)) as (x & disabled & ->).
  destruct (loaddata_loop_decodes options decode (length labels) labels []
              (mkLoading labels [] [] [] [] [] Unbound) (set_ext x w) (length labels))
    as (w1 & ld & Hrun & Hl & Hp & Ho & Hsk & Hm & He & Hs); try done.
  simpl in Hrun. rewrite Hrun. simpl in *.
  destruct disabled.
  - destruct (Hon (opt_database options) (ext w1)) as (x' & ->).
    by exists (set_ext x' w1), ld.
  - by exists w1, ld.
Qed.

(** One call of [loaddata] on distinct fixtures that all deserialize loads
    every other one: the loop walks the list it removes from, so it takes
    the fixtures at the positions 0, 2, 4, ... and hands back those in
    between, untouched. *)
Theorem loaddata_loads_every_other_fixture (options : Options)
    (decode : string -> list DeserializedObject) (labels : list string)
    (w : World Ext) :
  toggles_succeed env -> NoDup labels -> decodes env options decode labels ->
  exists w' ld,
    loaddata env options labels w = (w', ld, Return ()) /\
    fixture_labels ld = stepped_over labels /\
    ld_processed ld = visited labels /\
    loaded_objects ld = concat (decode <$> visited labels) /\
    ld_skiped ld = [] /\ ld_missing_fks ld = [] /\ saves w' = saves w.
Proof. apply loaddata_decodes. Qed.

Lemma ingest_step_decodes options decode st (w : World Ext) :
  toggles_succeed env -> NoDup (unloaded st) ->
  decodes env options decode (unloaded st) ->
  exists w',
    constraint_checks_disabled env (opt_database options) (ingest_pass env options) st w
    = (w',
       mkLocals (stepped_over (unloaded st)) (Some (visited (unloaded st)))
                (processed st ++ visited (unloaded st)) (skiped st) (really_skiped st)
                (objects st ++ concat (decode <$> visited (unloaded st)))
                (Some []) (i st),
       Return ()) /\
    saves w' = saves w.
Proof.
  intros Htog Hnodup Hdec. pose proof Htog as [Hoff Hon].
  unfold constraint_checks_disabled.
  destruct (Hoff (opt_database options) (ext w)) as (x & disabled & ->).
  unfold ingest_pass.
  destruct (loaddata_decodes options decode (unloaded st) (set_ext x w))
    as (w1 & ld & -> & -> & -> & -> & -> & -> & Hs); try done.
  rewrite app_nil_r. destruct disabled.
  - destruct (Hon (opt_database options) (ext w1)) as (x' & ->).
    by exists (set_ext x' w1).
  - by exists w1.
Qed.

Lemma log2_halves n : 2 <= n -> Nat.log2 n = S (Nat.log2 (n / 2)).
Proof.
  intros Hn. pose proof (Nat.div_mod_eq n 2) as Hdiv.
  pose proof (Nat.mod_upper_bound n 2 ltac:(done)) as Hmod.
  assert (0 < n / 2) as Hpos by (apply Nat.div_str_pos; lia).
  destruct (decide (n mod 2 = 0)) as [H0|H1].
  - rewrite Hdiv at 1. rewrite H0, Nat.add_0_r. by apply Nat.log2_double.
  - rewrite Hdiv at 1. replace (n mod 2) with 1 by lia.
    by apply Nat.log2_succ_double.
Qed.

Lemma stepped_over_sublist {A : Type} (l : list A) : sublist (stepped_over l) l.
Proof.
  induction l as [|x|x y l IH] using list_ind2;
    [done|by apply sublist_cons|].
  rewrite stepped_over_cons2. apply sublist_cons. by apply sublist_skip.
Qed.

Lemma ingest_loop_decodes (options : Options)
    (decode : string -> list DeserializedObject) (fuel : nat) (st : Locals)
    (w : World Ext) :
  toggles_succeed env -> NoDup (unloaded st) ->
  decodes env options decode (unloaded st) ->
  unloaded st <> [] -> length (unloaded st) <= fuel ->
  exists w' st' order,
    ingest_loop env fuel options st w = (w', st', Return ()) /\
    unloaded st' = [] /\ order ≡ₚ unloaded st /\
    processed st' = processed st ++ order /\
    objects st' = objects st ++ concat (decode <$> order) /\
    skiped st' = skiped st /\
    i st' = i st + S (Nat.log2 (length (unloaded st))) /\
    missing_fks st' = Some [] /\
    saves w' = saves w.
Proof.
  intros Htog. revert st w.
  induction fuel as [|fuel IH]; intros st w Hnodup Hdec Hne Hfuel.
  { destruct (unloaded st); [done|simpl in Hfuel; lia]. }
  simpl. rewrite bool_decide_false by (by destruct (unloaded st)).
  destruct (ingest_step_decodes options decode st w Htog Hnodup Hdec) as (w1 & -> & Hs1).
  pose proof (visited_length (unloaded st)) as [Hsum Hhalf].
  pose proof (visited_perm (unloaded st)) as Hperm.
  pose proof (stepped_over_sublist (unloaded st)) as Hsub.
  destruct (decide (stepped_over (unloaded st) = [])) as [Hnil|Hmore].
  - assert (length (unloaded st) = 1) as Hone.
    { destruct (unloaded st) as [|a [|b l]]; [done|done|].
      by rewrite stepped_over_cons2 in Hnil. }
    rewrite Hnil in *. rewrite app_nil_r in Hperm. rewrite Hone.
    do 2 eexists. exists (visited (unloaded st)).
    destruct fuel; (split; [reflexivity|]); simpl; by repeat split.
  - destruct (IH (next_pass
                    (mkLocals (stepped_over (unloaded st)) (Some (visited (unloaded st)))
                       (processed st ++ visited (unloaded st)) (skiped st)
                       (really_skiped st)
                       (objects st ++ concat (decode <$> visited (unloaded st)))
                       (Some []) (i st))
                    (stepped_over (unloaded st))) w1)
      as (w' & st' & order & Hrun & Hu & Ho & Hp & Hobj & Hsk & Hi & Hmf & Hs).
    { simpl. by eapply sublist_NoDup. }
    { simpl. intros path x Hin. apply Hdec. by eapply elem_of_sublist. }
    { done. }
    { simpl. rewrite Hhalf.
      assert (length (unloaded st) / 2 < length (unloaded st)); [|lia].
      apply Nat.div_lt; [|lia]. destruct (unloaded st); [done|simpl; lia]. }
    exists w', st', (visited (unloaded st) ++ order).
    split; [exact Hrun|]. simpl in Hu, Ho, Hp, Hobj, Hsk, Hi, Hmf, Hs. split; [done|].
    split; [by rewrite Ho|].
    split; [by rewrite Hp, <- app_assoc|].
    split; [by rewrite Hobj, fmap_app, concat_app, <- app_assoc|].
    split; [done|]. split; [|split; [done|congruence]].
    rewrite Hi, Hhalf, (log2_halves (length (unloaded st))); [lia|].
    clear -Hmore. destruct (unloaded st) as [|a [|b l]]; [done|done|simpl; lia].
Qed.

(** The first loop of [handle] on distinct fixtures that all deserialize:
    each pass loads every other fixture that is left, so [n] fixtures take
    [log2 n + 1] passes, and all of them are loaded, in the order the passes
    took them. *)
Theorem ingest_loop_halves_the_fixtures (options : Options)
    (decode : string -> list DeserializedObject) (fuel : nat) (st : Locals)
    (w : World Ext) :
  toggles_succeed env -> NoDup (unloaded st) ->
  decodes env options decode (unloaded st) ->
  unloaded st <> [] -> length (unloaded st) <= fuel ->
  exists w' st' order,
    ingest_loop env fuel options st w = (w', st', Return ()) /\
    unloaded st' = [] /\ order ≡ₚ unloaded st /\
    processed st' = processed st ++ order /\
    objects st' = objects st ++ concat (decode <$> order) /\
    skiped st' = skiped st /\
    i st' = i st + S (Nat.log2 (length (unloaded st))) /\
    saves w' = saves w.
Proof.
  intros Htog Hnodup Hdec Hne Hfuel.
  destruct (ingest_loop_decodes options decode fuel st w) as (w' & st' & order & H);
    try done.
  exists w', st', order. naive_solver.
Qed.
End LoadMore.

(** * The whole of the restore *)
Section RestoreMore.
Import Gitrestore.
Context {Ext : Type} (env : Env Ext).

Lemma constraint_checks_disabled_toggles {S : Type} using_
    (body : S -> World Ext -> World Ext * S * Result unit) s (w : World Ext) :
  toggles_succeed env ->
  exists x, forall w1 s1 r,
    r <> OutOfFuel -> body s (set_ext x w) = (w1, s1, r) ->
    exists x', constraint_checks_disabled env using_ body s w = (set_ext x' w1, s1, r).
Proof.
  intros [Hoff Hon]. unfold constraint_checks_disabled.
  destruct (Hoff using_ (ext w)) as (x & disabled & ->).
  exists x. intros w1 s1 r Hr ->.
  destruct disabled.
  - destruct (Hon using_ (ext w1)) as (x' & ->). exists x'. by destruct r.
  - exists (ext w1). rewrite set_ext_same. by destruct r.
Qed.

Lemma save_all_nil using_ iterations (w : World Ext) :
  save_all env [] using_ iterations w = (w, Return iterations).
Proof. unfold save_all. apply save_all_rec_stop. by left. Qed.

Lemma elem_of_concat_fmap {A B : Type} (f : A -> list B) (l : list A) (y : B) :
  y ∈ concat (f <$> l) -> exists x, x ∈ l /\ y ∈ f x.
Proof.
  induction l as [|x l IH]; simpl.
  - by intros ?%elem_of_nil.
  - intros [?|(x' & ? & ?)%IH]%elem_of_app.
    + exists x. split; [by left|done].
    + exists x'. split; [by right|done].
Qed.

Lemma retry_loop_nothing_skipped fuel options st (w : World Ext) :
  skiped st = [] -> retry_loop env fuel options st w = (w, st, Return ()).
Proof. intros Hsk. destruct fuel; simpl; by rewrite Hsk. Qed.

(** When the fixtures are distinct and all deserialize, and every save
    succeeds, the restore saves every routed object twice: once after the
    load and once more in the last call of [save_all], which gets the same
    list.  It reports no saving iteration, connects the hook again, and
    [gitversion] has seen none of the saves. *)
Theorem restore_saves_every_object_twice (fuel : nat) (options : Options)
    (decode : string -> list DeserializedObject) (total : list string)
    (w : World Ext) :
  toggles_succeed env -> NoDup total -> decodes env options decode total ->
  total <> [] -> length total <= fuel ->
  (forall path obj x, path ∈ total -> obj ∈ decode path ->
     allow_migrate_model env (opt_database options) (object_class obj) = true ->
     (obj_save env (opt_database options) obj x).2 = None) ->
  exists w' order,
    restore env fuel options total w = (w', Return 0) /\
    order ≡ₚ total /\
    saves w' =
      saves w ++ routed env (opt_database options) (concat (decode <$> order))
              ++ routed env (opt_database options) (concat (decode <$> order)) /\
    hook_connected w' = true /\ versioned w' = versioned w.
Proof.
  intros Htog Hnodup Hdec Hne Hfuel Hok.
  destruct (ingest_loop_decodes env options decode fuel
              (mkLocals total None [] [] [] [] None 0) (set_hook false w))
    as (w1 & st1 & order & Hrun & Hu & Hperm & Hp & Hobj & Hsk & Hi & Hmf & Hs1);
    try done.
  simpl in Hperm, Hobj, Hsk, Hs1.
  assert (forall obj x, obj ∈ objects st1 ->
            allow_migrate_model env (opt_database options) (object_class obj) = true ->
            (obj_save env (opt_database options) obj x).2 = None) as Hsave.
  { intros obj x Hin. rewrite Hobj in Hin.
    apply elem_of_concat_fmap in Hin as (path & Hpath & Hin).
    apply (Hok path); [|done]. by rewrite <- Hperm. }
  destruct (constraint_checks_disabled_toggles (opt_database options)
              (save_first env options st1) None w1 Htog) as (x1 & Hfirst).
  destruct (save_all_ok env (objects st1) (opt_database options) 0 (set_ext x1 w1))
    as (w2 & Hsave2 & Hs2); [done|lia|].
  destruct (Hfirst w2 (Some 0) (Return ())) as (x1' & Hfirst'); [done| |].
  { unfold save_first. by rewrite Hmf, save_all_nil, Hsave2. }
  destruct (constraint_checks_disabled_toggles (opt_database options)
              (save_again env options st1) (Some 0) (set_ext x1' w2) Htog)
    as (x3 & Hagain).
  destruct (save_all_ok env (objects st1) (opt_database options) 0
              (set_ext x3 (set_ext x1' w2)))
    as (w4 & Hsave4 & Hs4); [done|lia|].
  destruct (Hagain w4 (Some 0) (Return ())) as (x3' & Hagain'); [done| |].
  { unfold save_again. by rewrite Hsave4. }
  destruct (restore env fuel options total w) as [w' r] eqn:Hrestore.
  pose proof (restore_hook env _ _ _ _ _ _ Hrestore) as [Hv Hh].
  revert Hrestore. unfold restore.
  rewrite Hrun, Hfirst', (retry_loop_nothing_skipped _ _ _ _ Hsk), Hagain'.
  intros [= Hw' <-]. exists w', order.
  split; [done|]. split; [done|]. split; [|done].
  rewrite <- Hw'. rewrite Hobj in Hs2, Hs4.
  destruct (get_autocommit env (opt_database options) _); simpl;
    rewrite Hs4; simpl; rewrite Hs2; simpl; rewrite Hs1; simpl;
    by rewrite <- app_assoc.
Qed.

(** A fixture that cannot be opened ends the restore: the [IOError] of
    [open] is caught nowhere, nothing is saved, and the hook stays
    disconnected. *)
Theorem restore_unreadable_fixture_raises (fuel : nat) (options : Options)
    (path text : string) (rest : list string) (w : World Ext) :
  toggles_succeed env ->
  (forall x, load_fixture env (opt_database options) (opt_ignore options) path x
             = OpenFails text) ->
  exists w',
    restore env (S fuel) options (path :: rest) w = (w', Raise (mkExc IOError text)) /\
    saves w' = saves w /\ hook_connected w' = false /\ versioned w' = versioned w.
Proof.
  intros Htog Hopen.
  destruct (restore env (S fuel) options (path :: rest) w) as [w' r] eqn:Hrestore.
  pose proof (restore_hook env _ _ _ _ _ _ Hrestore) as [Hv Hh].
  revert Hrestore. unfold restore.
  set (st := mkLocals (path :: rest) None [] [] [] [] None 0).
  destruct (ingest_loop env (S fuel) options st (set_hook false w))
    as [[w1 st1] r1] eqn:Hrun.
  pose proof (ingest_loop_world env _ _ _ _ _ _ _ Hrun) as [_ Hs].
  revert Hrun. simpl ingest_loop.
  destruct (constraint_checks_disabled_toggles (opt_database options)
              (ingest_pass env options) st (set_hook false w) Htog) as (x & Hpass).
  destruct (constraint_checks_disabled_toggles (opt_database options)
              (loaddata_loop env (length (path :: rest)) options 0)
              (mkLoading (path :: rest) [] [] [] [] [] Unbound)
              (set_ext x (set_hook false w)) Htog) as (x0 & Hload).
  edestruct Hload as (x0' & Hload'); [|simpl; rewrite Hopen; reflexivity|]; [done|].
  edestruct Hpass as (x' & Hpass'); [|unfold ingest_pass, loaddata; simpl unloaded;
                                       rewrite Hload'; reflexivity|]; [done|].
  rewrite Hpass'. simpl. intros [= <- <- <-] [= Hw' <-].
  exists w'. split; [done|]. split; [|done]. rewrite <- Hw'. exact Hs.
Qed.
End RestoreMore.

(** * [parse_name] *)
Section NamesMore.
Import Gitrestore.

Lemma append_cons x (a b : string) : String x a +:+ b = String x (a +:+ b).
Proof. reflexivity. Qed.

Lemma append_nil_l (a : string) : "" +:+ a = a.
Proof. reflexivity. Qed.

Lemma append_assoc (a b c : string) : (a +:+ b) +:+ c = a +:+ b +:+ c.
Proof.
  induction a as [|x a IH]; [done|]. by rewrite !append_cons, IH.
Qed.

Lemma append_nil_r (a : string) : a +:+ "" = a.
Proof.
  induction a as [|x a IH]; [done|]. by rewrite append_cons, IH.
Qed.

Lemma split_on_not_nil sep s : split_on sep s <> [].
Proof.
  destruct s as [|c s]; simpl; [done|].
  destruct (Ascii.eqb c sep); [done|]. by destruct (split_on sep s).
Qed.

Lemma join_cons sep p rest :
  rest <> [] -> join sep (p :: rest) = p +:+ sep +:+ join sep rest.
Proof. by destruct rest. Qed.

Lemma join_app sep l1 l2 :
  l1 <> [] -> l2 <> [] -> join sep (l1 ++ l2) = join sep l1 +:+ sep +:+ join sep l2.
Proof.
  intros Hl1 Hl2. induction l1 as [|p l1 IH]; [done|].
  destruct l1 as [|q l1].
  - simpl app. by rewrite join_cons.
  - change ((p :: q :: l1) ++ l2) with (p :: ((q :: l1) ++ l2)).
    rewrite join_cons by done. rewrite IH by done.
    rewrite (join_cons sep p (q :: l1)) by done.
    by rewrite !append_assoc.
Qed.

(** Joining what [split] gave gives the text back. *)
Lemma join_split_on sep s : join (String sep "") (split_on sep s) = s.
Proof.
  induction s as [|c s IH]; [done|]. simpl split_on.
  destruct (Ascii.eqb_spec c sep) as [->|Hne].
  - rewrite join_cons by apply split_on_not_nil.
    by rewrite append_nil_l, append_cons, append_nil_l, IH.
  - pose proof (split_on_not_nil sep s) as Hnil.
    destruct (split_on sep s) as [|part parts]; [done|].
    destruct parts as [|part' parts].
    + simpl in *. by rewrite IH.
    + rewrite join_cons by done. rewrite join_cons in IH by done.
      by rewrite append_cons, IH.
Qed.

Lemma join_regroup sep k (l : list string) :
  take k l <> [] -> join sep (join sep (take k l) :: drop k l) = join sep l.
Proof.
  pose proof (take_drop k l) as Heq. revert Heq.
  generalize (take k l) (drop k l). intros t d <- Ht.
  destruct d as [|d ds]; [by rewrite app_nil_r|].
  rewrite join_cons by done. by rewrite join_app.
Qed.

Lemma join_rsplit sep maxsplit s : join (String sep "") (rsplit sep maxsplit s) = s.
Proof.
  unfold rsplit. case_bool_decide as Hlen; [apply join_split_on|].
  rewrite join_regroup; [apply join_split_on|].
  intros Hnil%(f_equal length). rewrite length_take in Hnil. simpl in Hnil. lia.
Qed.

Lemma rsplit_not_nil sep maxsplit s : rsplit sep maxsplit s <> [].
Proof. unfold rsplit. case_bool_decide; [apply split_on_not_nil|done]. Qed.

Lemma but_last_snoc (l : list string) x : but_last (l ++ [x]) = l.
Proof. unfold but_last. rewrite length_app. simpl. by rewrite Nat.add_sub, take_app_length. Qed.

Lemma join_snoc sep (l : list string) x :
  l <> [] -> join sep (l ++ [x]) = join sep l +:+ sep +:+ x.
Proof. intros Hl. by rewrite join_app. Qed.

(** What [parse_name] takes off a fixture name it puts into the formats it
    returns: the name, the serialization format and the compression
    format, joined by dots, give the fixture name back. *)
Theorem parse_name_takes_endings_off (compression_formats : list (option string))
    (serialization_formats : list string) (fixture_name name : string)
    (ser_fmt cmp_fmt : option string) :
  parse_name compression_formats serialization_formats fixture_name
  = Return (name, ser_fmt, cmp_fmt) ->
  fixture_name = name +:+ ending_of ser_fmt +:+ ending_of cmp_fmt /\
  (forall f, ser_fmt = Some f -> f ∈ serialization_formats) /\
  (forall f, cmp_fmt = Some f -> Some f ∈ compression_formats).
Proof.
  unfold parse_name.
  pose proof (join_rsplit "." 2 fixture_name) as Hjoin.
  pose proof (rsplit_not_nil "." 2 fixture_name) as Hnil.
  destruct (rsplit "." 2 fixture_name) as [|p ps] using rev_ind; [done|]. clear IHps Hnil.
  rename p into ending, ps into parts.
  rewrite last_snoc.
  assert (forall cmp (l : list string),
    fixture_name = join "." l +:+ ending_of cmp ->
    (forall f, cmp = Some f -> Some f ∈ compression_formats) ->
    (if bool_decide (1 < length l)
     then match last l with
          | Some e =>
              if bool_decide (e ∈ serialization_formats)
              then Return (join "." (but_last l), Some e, cmp)
              else Raise (mkExc CommandError
                            ("Problem installing fixture '" +:+ join "" (but_last l) +:+
                             "': " +:+ e +:+ " is not a known serialization format."))
          | None => Raise (mkExc (OtherException "IndexError") "list index out of range")
          end
     else Return (join "." l, None, cmp)) = Return (name, ser_fmt, cmp_fmt) ->
    fixture_name = name +:+ ending_of ser_fmt +:+ ending_of cmp_fmt /\
    (forall f, ser_fmt = Some f -> f ∈ serialization_formats) /\
    (forall f, cmp_fmt = Some f -> Some f ∈ compression_formats)) as Hser.
  { intros cmp l Hname Hcmp. case_bool_decide as Hlen.
    - destruct l as [|e l _] using rev_ind; [simpl in Hlen; lia|].
      rewrite last_snoc, but_last_snoc.
      case_bool_decide as Hin; [|done]. intros [= <- <- <-].
      rewrite Hname, join_snoc, !append_assoc.
      + split; [done|]. split; [by intros f [= <-]|done].
      + intros ->. simpl in Hlen. lia.
    - intros [= <- <- <-]. simpl. split; [done|]. split; [done|done]. }
  destruct (bool_decide (1 < length (parts ++ [ending])) &&
            bool_decide (Some ending ∈ compression_formats)) eqn:Hcmp.
  - apply andb_prop in Hcmp as [Hlen%bool_decide_eq_true Hin%bool_decide_eq_true].
    rewrite but_last_snoc. apply Hser.
    + rewrite <- Hjoin, join_snoc; [done|].
      intros ->. simpl in Hlen. lia.
    + by intros f [= <-].
  - apply Hser; [|done]. simpl. by rewrite append_nil_r.
Qed.

Lemma split_on_dot_free s : dot_free s -> split_on "." s = [s].
Proof.
  unfold dot_free. induction s as [|c s IH]; simpl; [done|].
  intros [Hne Hs]%not_elem_of_cons. destruct (Ascii.eqb_spec c "."); [done|].
  by rewrite IH.
Qed.

Lemma split_on_app sep a b :
  split_on sep (a +:+ String sep b) = split_on sep a ++ split_on sep b.
Proof.
  induction a as [|c a IH]; simpl.
  - by rewrite Ascii.eqb_refl.
  - destruct (Ascii.eqb c sep); [by rewrite IH|].
    rewrite IH. pose proof (split_on_not_nil sep a).
    by destruct (split_on sep a).
Qed.

Lemma rsplit_two_endings name ser cmp :
  dot_free ser -> dot_free cmp ->
  rsplit "." 2 (name +:+ "." +:+ ser +:+ "." +:+ cmp) = [name; ser; cmp].
Proof.
  intros Hser Hcmp. unfold rsplit.
  change ("." +:+ ser +:+ "." +:+ cmp) with (String "." (ser +:+ String "." cmp)).
  rewrite !split_on_app, (split_on_dot_free ser), (split_on_dot_free cmp) by done.
  pose proof (split_on_not_nil "." name) as Hnil.
  pose proof (join_split_on "." name) as Hjoin.
  set (l := split_on "." name) in *.
  rewrite !length_app. simpl length.
  replace (length l + (1 + 1) - 2) with (length l) by lia.
  rewrite take_app_length, drop_app_length.
  case_bool_decide as Hlen; [|by rewrite Hjoin].
  destruct l as [|p [|q l]]; [done| |simpl in Hlen; lia].
  simpl in Hjoin. by subst.
Qed.

(** A name with a known serialization format and a known compression
    format as its last two endings is split into the three, whatever dots
    the name itself holds. *)
Theorem parse_name_of_full_name (compression_formats : list (option string))
    (serialization_formats : list string) (name ser cmp : string) :
  dot_free ser -> dot_free cmp ->
  ser ∈ serialization_formats -> Some cmp ∈ compression_formats ->
  parse_name compression_formats serialization_formats
    (name +:+ "." +:+ ser +:+ "." +:+ cmp)
  = Return (name, Some ser, Some cmp).
Proof.
  intros Hser Hcmp Hs Hc. unfold parse_name.
  rewrite rsplit_two_endings by done.
  change [name; ser; cmp] with ([name; ser] ++ [cmp]). rewrite last_snoc.
  rewrite bool_decide_true by (simpl; lia). rewrite bool_decide_true by done.
  simpl andb. cbv iota beta. rewrite but_last_snoc.
  change [name; ser] with ([name] ++ [ser]). rewrite last_snoc, but_last_snoc.
  rewrite bool_decide_true by (simpl; lia). by rewrite bool_decide_true by done.
Qed.

(** A name without a dot has no format: [parse_name] returns it as it
    is. *)
Theorem parse_name_without_dot (compression_formats : list (option string))
    (serialization_formats : list string) (name : string) :
  dot_free name ->
  parse_name compression_formats serialization_formats name
  = Return (name, None, None).
Proof.
  intros Hname. unfold parse_name, rsplit.
  rewrite split_on_dot_free by done. simpl. reflexivity.
Qed.
End NamesMore.

(** * The further properties on the concrete registries and stores *)
Section MoreExamples.
Import Gitversions Gitrestore Examples RestoreExamples.

Lemma sort_dependencies_keeps_ordered_input_library :
  sort_dependencies library_apps [(library, Some [Author; Book])] =
  Return (input_models [(library, Some [Author; Book])]).
Proof.
  apply (sort_dependencies_keeps_ordered_input library_apps
           [(library, Some [Author; Book])]
           (list_to_set (input_models [(library, Some [Author; Book])]))
           [(Author, []); (Book, [Author; Author; Publisher])]).
  - apply (collect_apps_lists library_apps [(library, Some [Author; Book])]).
    vm_compute. reflexivity.
  - intros l1 entry l2 d Heq Hd Hin.
    destruct l1 as [|a [|b l1]]; simpl in Heq.
    + injection Heq as <- _. by apply elem_of_nil in Hd.
    + injection Heq as <- <- _. simpl in *.
      apply elem_of_cons in Hin as [->|Hin]; [by left|].
      apply list_elem_of_singleton in Hin as ->.
      do 3 (apply elem_of_cons in Hd as [Hd|Hd]; [by discriminate Hd|]).
      by apply elem_of_nil in Hd.
    + injection Heq as _ _ Heq. by destruct l1.
Defined.

Lemma sort_dependencies_unresolved_entries_cycle :
  exists models md promoted remaining,
    collect_apps cycle_apps [(cycle_app, None)] ∅ [] = Return (models, md) /\
    "Can't resolve dependencies for app.A, app.B in serialized app list." =
      Gitversions.unresolved_message remaining /\
    remaining <> [] /\
    promoted ++ remaining.*1 ≡ₚ input_models [(cycle_app, None)] /\
    (forall m deps, (m, deps) ∈ remaining ->
       (m, deps) ∈ md /\
       exists d, d ∈ deps /\ d ∈ remaining.*1) /\
    (forall l1 m l2 deps d,
       promoted = l1 ++ m :: l2 -> (m, deps) ∈ md ->
       d ∈ deps -> d ∈ input_models [(cycle_app, None)] -> d ∈ l1).
Proof.
  apply (sort_dependencies_unresolved_entries cycle_apps [(cycle_app, None)]
           (mkExc CommandError
              "Can't resolve dependencies for app.A, app.B in serialized app list.")).
  - vm_compute. reflexivity.
  - reflexivity.
Defined.


Lemma handle_never_dumps_excluded_apps_shop :
  dump_call (dump_options "json" None) Book ∈ dumped empty_dump \/
  exists app_config,
    model_of_app shop_apps app_config Book /\
    has_models_module app_config = true /\
    forall exclude, exclude ∈ ["trade"] ->
      str_contains "." exclude = false ->
      get_app_config shop_apps exclude <> Some app_config.
Proof.
  apply (handle_never_dumps_excluded_apps shop_apps dump_env []
           (with_exclude (dump_options "json" None) ["trade"]) empty_dump
           (Gitversions.handle shop_apps dump_env []
              (with_exclude (dump_options "json" None) ["trade"]) empty_dump).1
           (dump_call (dump_options "json" None) Book)).
  - vm_compute. reflexivity.
  - vm_compute. repeat constructor.
Defined.

Lemma handle_ignores_model_excludes_book :
  Gitversions.handle library_apps dump_env ["library"]
    (with_exclude (dump_options "json" None) ["library.Book"]) empty_dump =
  Gitversions.handle library_apps dump_env ["library"]
    (with_exclude (with_exclude (dump_options "json" None) ["library.Book"])
       (app_excludes ["library.Book"])) empty_dump.
Proof.
  apply (handle_ignores_model_excludes library_apps dump_env ["library"]
           (with_exclude (dump_options "json" None) ["library.Book"]) empty_dump).
  intros exclude Hin _. apply list_elem_of_singleton in Hin as ->.
  eexists. vm_compute. reflexivity.
Defined.

Lemma save_each_attempts_in_order_shelf :
  saves (mkWorld [author1] true [book7; author1] [author1] [] []) =
    saves empty_shelf ++
    routed (shelf_env []) "default" [book7; publisher3; author1] /\
  sublist [book7] (routed (shelf_env []) "default" [book7; publisher3; author1]).
Proof.
  apply (save_each_attempts_in_order (shelf_env []) "default"
           [book7; publisher3; author1] empty_shelf
           (mkWorld [author1] true [book7; author1] [author1] [] [])
           [book7]
           [Gitrestore.could_not_load book7
              (mkExc IntegrityError "FOREIGN KEY constraint failed")]).
  vm_compute. reflexivity.
Defined.

Lemma save_all_saves_everything_shelf :
  exists w',
    Gitrestore.save_all (shelf_env []) [author1; publisher3] "default" 0 empty_shelf
    = (w', Return 0) /\
    saves w' =
      saves empty_shelf ++ routed (shelf_env []) "default" [author1; publisher3].
Proof.
  apply (save_all_saves_everything (shelf_env []) [author1; publisher3] "default" 0
           empty_shelf).
  - intros obj x Hin Hallow.
    apply elem_of_cons in Hin as [->|Hin]; [reflexivity|].
    apply list_elem_of_singleton in Hin as ->. discriminate Hallow.
  - lia.
Defined.

Lemma save_all_gives_up_at_cap_locked :
  exists w',
    Gitrestore.save_all
      (raising_env (mkExc OperationalError "database is locked"))
      [book7] "default" 0 empty_shelf = (w', Return 25) /\
    length (saves w') = length (saves empty_shelf) + (25 - 0) * length [book7].
Proof.
  apply (save_all_gives_up_at_cap
           (raising_env (mkExc OperationalError "database is locked"))
           [book7] "default" 0 empty_shelf).
  - intros obj x Hin. apply list_elem_of_singleton in Hin as ->.
    split; [reflexivity|]. by eexists.
  - done.
  - lia.
Defined.

Lemma save_all_lets_other_errors_through_book :
  exists w2,
    Gitrestore.save_all (raising_env (mkExc ValueError "invalid literal for int()"))
      ([author1] ++ book7 :: [publisher3]) "default" 0 empty_shelf
    = (w2, Raise (mkExc ValueError "invalid literal for int()")) /\
    ext w2 = [author1] /\
    saves w2 =
      saves empty_shelf ++
      routed (raising_env (mkExc ValueError "invalid literal for int()")) "default"
        [author1] ++ [book7].
Proof.
  apply (save_all_lets_other_errors_through
           (raising_env (mkExc ValueError "invalid literal for int()")) "default"
           [author1] [publisher3] book7 0 empty_shelf
           (mkWorld [author1] true [author1] [author1] [] []) [] []).
  - vm_compute. reflexivity.
  - reflexivity.
  - reflexivity.
  - reflexivity.
  - lia.
Defined.

Lemma shelf_toggles_succeed fixtures : toggles_succeed (shelf_env fixtures).
Proof. split; intros using_ x; by repeat eexists. Qed.

Lemma shelf_decodes options :
  decodes (shelf_env []) options shelf_decode
    ["author.json"; "book.json"; "publisher.json"].
Proof.
  intros path x Hin.
  repeat (apply elem_of_cons in Hin as [->|Hin]; [reflexivity|]).
  by apply elem_of_nil in Hin.
Qed.

Lemma shelf_labels_distinct : NoDup ["author.json"; "book.json"; "publisher.json"].
Proof. apply (bool_decide_unpack _). vm_compute. exact I. Qed.

Lemma loaddata_loads_every_other_fixture_shelf :
  exists w' ld,
    Gitrestore.loaddata (shelf_env []) restore_options
      ["author.json"; "book.json"; "publisher.json"] empty_shelf = (w', ld, Return ()) /\
    fixture_labels ld = stepped_over ["author.json"; "book.json"; "publisher.json"] /\
    ld_processed ld = visited ["author.json"; "book.json"; "publisher.json"] /\
    loaded_objects ld =
      concat (shelf_decode <$> visited ["author.json"; "book.json"; "publisher.json"]) /\
    ld_skiped ld = [] /\ ld_missing_fks ld = [] /\
    saves w' = saves empty_shelf.
Proof.
  apply (loaddata_loads_every_other_fixture (shelf_env []) restore_options shelf_decode
           ["author.json"; "book.json"; "publisher.json"] empty_shelf).
  - apply shelf_toggles_succeed.
  - apply shelf_labels_distinct.
  - apply shelf_decodes.
Defined.

Lemma ingest_loop_halves_the_fixtures_shelf :
  exists w' st' order,
    Gitrestore.ingest_loop (shelf_env []) 3 restore_options
      (mkLocals ["author.json"; "book.json"; "publisher.json"] None [] [] [] [] None 0)
      empty_shelf = (w', st', Return ()) /\
    unloaded st' = [] /\
    order ≡ₚ ["author.json"; "book.json"; "publisher.json"] /\
    processed st' = [] ++ order /\
    objects st' = [] ++ concat (shelf_decode <$> order) /\
    skiped st' = [] /\
    i st' = 0 + S (Nat.log2 3) /\
    saves w' = saves empty_shelf.
Proof.
  apply (ingest_loop_halves_the_fixtures (shelf_env []) restore_options shelf_decode 3
           (mkLocals ["author.json"; "book.json"; "publisher.json"] None [] [] [] [] None 0)
           empty_shelf).
  - apply shelf_toggles_succeed.
  - apply shelf_labels_distinct.
  - apply shelf_decodes.
  - done.
  - simpl. lia.
Defined.

Lemma shelf_pair_decodes options :
  decodes (shelf_env []) options shelf_decode ["author.json"; "publisher.json"].
Proof.
  intros path x Hin.
  repeat (apply elem_of_cons in Hin as [->|Hin]; [reflexivity|]).
  by apply elem_of_nil in Hin.
Qed.

Lemma restore_saves_every_object_twice_shelf :
  exists w' order,
    Gitrestore.restore (shelf_env []) 2 restore_options
      ["author.json"; "publisher.json"] empty_shelf = (w', Return 0) /\
    order ≡ₚ ["author.json"; "publisher.json"] /\
    saves w' =
      saves empty_shelf
        ++ routed (shelf_env []) (Gitrestore.opt_database restore_options)
             (concat (shelf_decode <$> order))
        ++ routed (shelf_env []) (Gitrestore.opt_database restore_options)
             (concat (shelf_decode <$> order)) /\
    hook_connected w' = true /\ versioned w' = versioned empty_shelf.
Proof.
  apply (restore_saves_every_object_twice (shelf_env []) 2 restore_options shelf_decode
           ["author.json"; "publisher.json"] empty_shelf).
  - apply shelf_toggles_succeed.
  - apply (bool_decide_unpack _). vm_compute. exact I.
  - apply shelf_pair_decodes.
  - done.
  - simpl. lia.
  - intros path obj x Hpath Hobj Hallow.
    apply elem_of_cons in Hpath as [->|Hpath].
    + apply list_elem_of_singleton in Hobj as ->. reflexivity.
    + apply list_elem_of_singleton in Hpath as ->.
      apply list_elem_of_singleton in Hobj as ->. discriminate Hallow.
Defined.

Lemma restore_unreadable_fixture_raises_shelf :
  exists w',
    Gitrestore.restore (shelf_env []) 1 restore_options
      ("missing.json" :: ["author.json"]) empty_shelf =
      (w', Raise (mkExc IOError "No such file or directory: missing.json")) /\
    saves w' = saves empty_shelf /\ hook_connected w' = false /\
    versioned w' = versioned empty_shelf.
Proof.
  apply (restore_unreadable_fixture_raises (shelf_env []) 0 restore_options
           "missing.json" "No such file or directory: missing.json"
           ["author.json"] empty_shelf).
  - apply shelf_toggles_succeed.
  - intros x. reflexivity.
Defined.

Lemma parse_name_takes_endings_off_backup :
  "backup.2015.json.gz" = "backup.2015" +:+ ending_of (Some "json") +:+ ending_of (Some "gz") /\
  (forall f, Some "json" = Some f -> f ∈ serializer_names) /\
  (forall f, Some "gz" = Some f -> Some f ∈ compression_keys).
Proof.
  apply (parse_name_takes_endings_off compression_keys serializer_names
           "backup.2015.json.gz" "backup.2015" (Some "json") (Some "gz")).
  vm_compute. reflexivity.
Defined.

Lemma parse_name_of_full_name_backup :
  parse_name compression_keys serializer_names ("backup.2015" +:+ "." +:+ "json" +:+ "." +:+ "gz")
  = Return ("backup.2015", Some "json", Some "gz").
Proof.
  apply (parse_name_of_full_name compression_keys serializer_names
           "backup.2015" "json" "gz").
  - apply (bool_decide_unpack _). vm_compute. exact I.
  - apply (bool_decide_unpack _). vm_compute. exact I.
  - apply (bool_decide_unpack _). vm_compute. exact I.
  - apply (bool_decide_unpack _). vm_compute. exact I.
Defined.

Lemma parse_name_without_dot_initial_data :
  parse_name compression_keys serializer_names "initial_data"
  = Return ("initial_data", None, None).
Proof.
  apply (parse_name_without_dot compression_keys serializer_names "initial_data").
  apply (bool_decide_unpack _). vm_compute. exact I.
Defined.
End MoreExamples.
